(** * LocalTopSH knowledge base: chunker, embeddings client, vector index,
    ingestion CLI and retrieval tools, embedded from the TypeScript sources.

  JavaScript strings are sequences of UTF-16 code units; they are modelled
  as [list N].  JavaScript numbers that the code uses as sizes, cursors and
  indexes are integer valued and are modelled as [Z]; where the source
  divides by two ([chunkSize / 2]) the comparison is written with both
  sides doubled, which is the same test on integers. *)

From Stdlib Require Import ZArith Lia String Ascii DecimalString DecimalNat.
From stdpp Require Import base option list gmap sorting.

#[local] Open Scope Z_scope.

(** ** JavaScript strings *)

Module JS.

Abbreviation str := (list N).

(** Code units of an ASCII literal, for readable examples. *)
Definition lit (s : string) : str :=
  List.map N_of_ascii (list_ascii_of_string s).

Definition LF : N := 10%N.
Definition CR : N := 13%N.

(** [WhiteSpace] and [LineTerminator] of ECMA-262, the code units that
    [String.prototype.trim] strips. *)
Definition isWhiteSpace (c : N) : bool :=
  match c with
  | 9 | 10 | 11 | 12 | 13 | 32 | 160 | 5760
  | 8232 | 8233 | 8239 | 8287 | 12288 | 65279 => true
  | _ => (8192 <=? c)%N && (c <=? 8202)%N
  end%N.

Fixpoint trimStart (s : str) : str :=
  match s with
  | [] => []
  | c :: r => if isWhiteSpace c then trimStart r else s
  end.

Definition trimEnd (s : str) : str := reverse (trimStart (reverse s)).

(** [s.trim()] *)
Definition trim (s : str) : str := trimEnd (trimStart s).

(** A string is blank when it is empty or whitespace-only. *)
Definition blank (s : str) : bool := forallb isWhiteSpace s.

(** Truthiness of a string: [if (s)] holds for non-empty strings. *)
Definition truthy (s : str) : bool :=
  match s with [] => false | _ => true end.

(** [a.length], of a string or of an array. *)
Definition len {A} (s : list A) : Z := Z.of_nat (length s).

(** Relative index of [Array.prototype.slice] / [String.prototype.slice]:
    negative arguments count from the end, all are clamped to [0, len]. *)
Definition relIndex (n k : Z) : Z :=
  if k <? 0 then Z.max (n + k) 0 else Z.min k n.

(** [a.slice(start, end)], of a string or of an array. *)
Definition slice {A} (s : list A) (start end_ : Z) : list A :=
  let from := relIndex (len s) start in
  let to := relIndex (len s) end_ in
  take (Z.to_nat (to - from)) (drop (Z.to_nat from) s).

(** Does [pat] occur in [s] at position [k]? *)
Definition occursAt (pat s : str) (k : nat) : bool :=
  bool_decide (take (length pat) (drop k s) = pat).

Fixpoint lastIndexDown (pat s : str) (k : nat) : Z :=
  if occursAt pat s k then Z.of_nat k
  else match k with
       | O => -1
       | S k' => lastIndexDown pat s k'
       end.

(** [s.lastIndexOf(pat, pos)]: the largest [k <= min(max(pos,0), len)] at
    which [pat] occurs, or [-1]. *)
Definition lastIndexOf (s pat : str) (pos : Z) : Z :=
  lastIndexDown pat s (Z.to_nat (Z.min (Z.max pos 0) (len s))).

(** [s.replace(/\r\n/g, '\n')] *)
Fixpoint replaceCRLF (s : str) : str :=
  match s with
  | [] => []
  | c :: r =>
      match r with
      | d :: r' =>
          if (c =? CR)%N && (d =? LF)%N then LF :: replaceCRLF r'
          else c :: replaceCRLF r
      | [] => [c]
      end
  end.

(** [s.replace(/\n{3,}/g, '\n\n')]: every maximal run of three or more
    line feeds becomes two; shorter runs are kept.  [seen] counts the
    line feeds of the current run that were already emitted. *)
Fixpoint collapseLF (seen : nat) (s : str) : str :=
  match s with
  | [] => []
  | c :: r =>
      if (c =? LF)%N then
        if (seen <? 2)%nat then c :: collapseLF (S seen) r
        else collapseLF seen r
      else c :: collapseLF O r
  end.

(** [parts.join(sep)] *)
Fixpoint join (sep : str) (parts : list str) : str :=
  match parts with
  | [] => []
  | [p] => p
  | p :: rest => p ++ sep ++ join sep rest
  end.

(** [s.split(c)] for a separator of one code unit. *)
Fixpoint splitOn (c : N) (s : str) : list str :=
  match s with
  | [] => [[]]
  | d :: r =>
      if (d =? c)%N then [] :: splitOn c r
      else match splitOn c r with
           | h :: t => (d :: h) :: t
           | [] => [[d]]
           end
  end.

(** [s.startsWith(prefix)] *)
Definition startsWith (s prefix : str) : bool :=
  bool_decide (take (length prefix) s = prefix).

(** [a.includes(x)] *)
Definition includes (a : list str) (x : str) : bool :=
  existsb (fun y => bool_decide (y = x)) a.

(** Decimal digits of a number, as template literals print integers. *)
Definition showNat (n : nat) : str :=
  lit (NilEmpty.string_of_uint (Nat.to_uint n)).

Definition showZ (z : Z) : str :=
  if z <? 0 then 45%N :: showNat (Z.to_nat (- z)) else showNat (Z.to_nat z).

(** [a.sort(cmp)]: the sort is stable, so with a consistent comparator the
    result is the one of a stable insertion sort.  [cmp a b > 0] puts [b]
    first. *)
Fixpoint insertSorted {A} (cmp : A -> A -> Z) (x : A) (l : list A) : list A :=
  match l with
  | [] => [x]
  | y :: r => if 0 <? cmp x y then y :: insertSorted cmp x r else x :: l
  end.

Definition sort {A} (cmp : A -> A -> Z) (l : list A) : list A :=
  foldr (insertSorted cmp) [] l.

(** The default comparator of [a.sort()] on strings: code unit order. *)
Fixpoint compareStr (a b : str) : Z :=
  match a, b with
  | [], [] => 0
  | [], _ :: _ => -1
  | _ :: _, [] => 1
  | c :: a', d :: b' =>
      if (c <? d)%N then -1 else if (d <? c)%N then 1 else compareStr a' b'
  end.

(** A JavaScript number that is only stored and passed on (an embedding
    coordinate, a score): its IEEE 754 binary64 bit pattern. *)
Record number : Type := Float64 { bits : N }.

End JS.

Import JS.

(** ** Node's [Buffer]: UTF-8 and base64url *)

Module Buffer.

(** U+FFFD, which stands in for a surrogate without its partner. *)
Definition replacement : list N := [239; 191; 189]%N.

(** [Buffer.from(s)]: the UTF-8 bytes of a string. *)
Fixpoint utf8Encode (s : str) : list N :=
  match s with
  | [] => []
  | c :: r =>
      if (c <? 128)%N then c :: utf8Encode r
      else if (c <? 2048)%N then
        [192 + c / 64; 128 + c mod 64]%N ++ utf8Encode r
      else if (55296 <=? c)%N && (c <=? 56319)%N then
        match r with
        | d :: r' =>
            if (56320 <=? d)%N && (d <=? 57343)%N then
              let cp := (65536 + (c - 55296) * 1024 + (d - 56320))%N in
              [240 + cp / 262144; 128 + (cp / 4096) mod 64;
               128 + (cp / 64) mod 64; 128 + cp mod 64]%N ++ utf8Encode r'
            else replacement ++ utf8Encode r
        | [] => replacement
        end
      else if (56320 <=? c)%N && (c <=? 57343)%N then
        replacement ++ utf8Encode r
      else
        [224 + c / 4096; 128 + (c / 64) mod 64; 128 + c mod 64]%N
          ++ utf8Encode r
  end.

(** The base64url alphabet: [A-Z], [a-z], [0-9], [-], [_]. *)
Definition base64urlChar (n : N) : N :=
  (if n <? 26 then 65 + n
   else if n <? 52 then 97 + (n - 26)
   else if n <? 62 then 48 + (n - 52)
   else if n =? 62 then 45 else 95)%N.

(** [buffer.toString('base64url')]: four characters for every three
    bytes, no padding. *)
Fixpoint base64urlEncode (bytes : list N) : str :=
  match bytes with
  | a :: b :: c :: r =>
      [base64urlChar (a / 4); base64urlChar ((a mod 4) * 16 + b / 16);
       base64urlChar ((b mod 16) * 4 + c / 64); base64urlChar (c mod 64)]%N
        ++ base64urlEncode r
  | [a; b] =>
      [base64urlChar (a / 4); base64urlChar ((a mod 4) * 16 + b / 16);
       base64urlChar ((b mod 16) * 4)]%N
  | [a] => [base64urlChar (a / 4); base64urlChar ((a mod 4) * 16)]%N
  | [] => []
  end.

End Buffer.

Import Buffer.

(** ** The environment: file system, embedding endpoint, vector store *)

Module Env.

(** What [fs] finds at a path: a regular file with its bytes, a directory
    (which may refuse to be listed) with its entries, or something that is
    neither (a symbolic link, a socket). *)
Inductive Node : Type :=
| File (bytes : list N)
| Dir (readable : bool) (entries : list Dirent)
| Special
with Dirent : Type :=
| Entry (name : str) (node : Node).

(** One item of the [data] array of an embeddings response. *)
Record EmbeddingItem : Type := {
  embedding : list number;
  index : Z;
}.

(** What [fetch] to [/v1/embeddings] yields: [response.ok],
    [response.status], [response.text()] and the [data] of
    [response.json()]. *)
Record Response : Type := {
  ok : bool;
  status : Z;
  text : str;
  data : list EmbeddingItem;
}.

(** The seven fields that a chunk's [metadata], a point's payload and a
    search result share; an absent, [undefined] or [null] value is [None]. *)
Record Metadata : Type := {
  documentId : str;
  documentName : str;
  documentPath : str;
  chunkIndex : Z;
  totalChunks : Z;
  category : option str;
  title : option str;
}.

(** The payload that [indexChunks] stores with a point: [chunkId],
    [content] and, grouped in [payload_meta], the seven fields above. *)
Record Payload : Type := {
  chunkId : str;
  payload_content : str;
  payload_meta : Metadata;
}.

Record Point : Type := {
  point_id : str;
  vector : list number;
  payload : Payload;
}.

Inductive Distance : Type := Cosine | Euclid | Dot | Manhattan.

Record PayloadIndex : Type := {
  field_name : str;
  field_schema : str;
}.

(** A collection of the vector store.  [points] lists the points in the
    order in which the store scrolls through them. *)
Record Collection : Type := {
  vectors_size : Z;
  vectors_distance : Distance;
  default_segment_number : Z;
  replication_factor : Z;
  payload_indexes : list PayloadIndex;
  collection_status : str;
  points : list Point;
}.

(** The vector store: its collections by name, and whether it can be
    reached at all (every request to a store that is not reachable fails). *)
Record Store : Type := {
  online : bool;
  collections : gmap str Collection;
}.

(** Everything outside the process that the code reads or changes.
    [endpoint n input] is the answer of the embedding endpoint to its
    [n]-th request when that request carries [input], [None] when the
    request fails to get an answer; [requests] logs the inputs sent so
    far.  [uuids] is the sequence that [uuidv4()] draws
    from and [minted] counts the draws. *)
Record World : Type := {
  files : str -> option Node;
  qdrant : Store;
  endpoint : nat -> list str -> option Response;
  requests : list (list str);
  uuids : nat -> str;
  minted : nat;
}.

Definition withQdrant (w : World) (s : Store) : World :=
  {| files := files w; qdrant := s; endpoint := endpoint w;
     requests := requests w; uuids := uuids w; minted := minted w |}.

Definition withRequest (w : World) (input : list str) : World :=
  {| files := files w; qdrant := qdrant w; endpoint := endpoint w;
     requests := requests w ++ [input]; uuids := uuids w;
     minted := minted w |}.

Definition withMinted (w : World) (n : nat) : World :=
  {| files := files w; qdrant := qdrant w; endpoint := endpoint w;
     requests := requests w; uuids := uuids w; minted := n |}.

(** How a call ends: with a value, with a thrown [Error], by
    [process.exit(code)], or not within the fuel given to its loops. *)
Inductive res (A : Type) : Type :=
| Ok (a : A)
| Throw (message : str)
| Exit (code : Z)
| OutOfFuel.

Arguments Ok {A} a.
Arguments Throw {A} message.
Arguments Exit {A} code.
Arguments OutOfFuel {A}.

(** Computations that act on the world. *)
Definition M (A : Type) : Type := World -> res A * World.

Definition ret {A} (a : A) : M A := fun w => (Ok a, w).

Definition bind {A B} (m : M A) (k : A -> M B) : M B :=
  fun w =>
    match m w with
    | (Ok a, w') => k a w'
    | (Throw e, w') => (Throw e, w')
    | (Exit c, w') => (Exit c, w')
    | (OutOfFuel, w') => (OutOfFuel, w')
    end.

Definition throw {A} (message : str) : M A := fun w => (Throw message, w).

(** [process.exit(code)] *)
Definition exit {A} (code : Z) : M A := fun w => (Exit code, w).

(** [try { m } catch (e) { handler(e.message) }] *)
Definition tryCatch {A} (m : M A) (handler : str -> M A) : M A :=
  fun w =>
    match m w with
    | (Throw e, w') => handler e w'
    | r => r
    end.

(** A result that was computed without touching the world. *)
Definition lift {A} (r : res A) : M A := fun w => (r, w).

Definition get : M World := fun w => (Ok w, w).

End Env.

Import Env.

Declare Scope eff_scope.
Delimit Scope eff_scope with eff.
Notation "x <- m ;; k" := (bind m (fun x => k))
  (at level 100, m at next level, right associativity) : eff_scope.
Notation "m ;; k" := (bind m (fun _ => k))
  (at level 100, right associativity) : eff_scope.
#[local] Open Scope eff_scope.

(** ** Node's library and the configuration *)

(** The functions of Node's [path] and [Buffer], of the string prototype
    and of the document decoders that the code calls but that are not part
    of the repository. *)
Class NodeLib : Type := {
  path_resolve : str -> str;
  path_join : str -> str -> str;
  path_extname : str -> str;
  path_basename : str -> str;
  path_basename_ext : str -> str -> str;
  path_relative : str -> str -> str;
  path_sep : N;
  toLowerCase : str -> str;
  (** [Buffer.from(s).toString('base64url')] *)
  base64url : str -> str;
  (** [fs.readFileSync(p, 'utf-8')] decodes the bytes read. *)
  utf8_decode : list N -> str;
  (** [mammoth.extractRawText], [pdfParse]: the text, or the message of
      the error thrown. *)
  mammoth_extractRawText : list N -> str + str;
  pdfParse : list N -> str + str;
}.

(** [CONFIG.knowledge] of config.ts. *)
Record Config : Type := {
  knowledge_chunkSize : Z;
  knowledge_chunkOverlap : Z;
  knowledge_embeddingModel : str;
  knowledge_embeddingDimension : Z;
  knowledge_qdrantUrl : str;
  knowledge_collectionName : str;
  knowledge_documentsPath : str;
}.

(** ** parser.ts *)

Module Parser.

Definition paragraphBreak : str := [LF; LF].
Definition sentenceBreak : str := [46%N; 32%N].

(** The cleaned text of [splitIntoChunks]. *)
Definition cleanText (text : str) : str :=
  trim (collapseLF O (replaceCRLF text)).

(** Lines 111-126: the end of the window that starts at [start]. *)
Definition chunkEnd (clean : str) (chunkSize start : Z) : Z :=
  let end0 := start + chunkSize in
  if end0 <? len clean then
    let paragraphEnd := lastIndexOf clean paragraphBreak end0 in
    if 2 * start + chunkSize <? 2 * paragraphEnd then paragraphEnd
    else
      let sentenceEnd := lastIndexOf clean sentenceBreak end0 in
      if 2 * start + chunkSize <? 2 * sentenceEnd then sentenceEnd + 1
      else end0
  else end0.

(** What one trip through the [while] loop does. *)
Inductive trip : Type :=
| Again (start : Z) (chunks : list str)
| Leave (chunks : list str).

(** Lines 110-137: the guard, the body and the [break]. *)
Definition chunkTrip (clean : str) (chunkSize overlap : Z)
    (start : Z) (chunks : list str) : trip :=
  if start <? len clean then
    let end_ := chunkEnd clean chunkSize start in
    let chunk := trim (slice clean start end_) in
    let chunks' := if truthy chunk then chunks ++ [chunk] else chunks in
    let start' := end_ - overlap in
    if len clean - overlap <=? start' then Leave chunks'
    else Again start' chunks'
  else Leave chunks.

(** The loop, run for at most [fuel] trips; [None] when the fuel runs out
    before the loop is left. *)
Fixpoint chunkLoop (fuel : nat) (clean : str) (chunkSize overlap : Z)
    (start : Z) (chunks : list str) : option (list str) :=
  match fuel with
  | O => None
  | S fuel' =>
      match chunkTrip clean chunkSize overlap start chunks with
      | Leave r => Some r
      | Again start' chunks' =>
          chunkLoop fuel' clean chunkSize overlap start' chunks'
      end
  end.

(** The states in which the loop head is reached, starting from
    [start = 0] and [chunks = []]. *)
Inductive loopHead (clean : str) (chunkSize overlap : Z) :
    Z -> list str -> Prop :=
| head_first : loopHead clean chunkSize overlap 0 []
| head_next start chunks start' chunks' :
    loopHead clean chunkSize overlap start chunks ->
    chunkTrip clean chunkSize overlap start chunks = Again start' chunks' ->
    loopHead clean chunkSize overlap start' chunks'.

(** [splitIntoChunks(text, chunkSize, overlap)] *)
Definition splitIntoChunks (fuel : nat) (text : str)
    (chunkSize overlap : Z) : option (list str) :=
  let clean := cleanText text in
  if len clean <=? chunkSize then Some [clean]
  else chunkLoop fuel clean chunkSize overlap 0 [].

(** *** Documents *)

Record DocumentChunk : Type := {
  id : str;
  content : str;
  metadata : Metadata;
}.

(** A [Map] with string keys, in insertion order. *)
Fixpoint mapGet {V} (m : list (str * V)) (k : str) : option V :=
  match m with
  | [] => None
  | (k', v) :: r => if bool_decide (k' = k) then Some v else mapGet r k
  end.

Fixpoint mapSet {V} (m : list (str * V)) (k : str) (v : V) : list (str * V) :=
  match m with
  | [] => [(k, v)]
  | (k', v') :: r =>
      if bool_decide (k' = k) then (k', v) :: r else (k', v') :: mapSet r k v
  end.

(** A [Set] of strings, in insertion order. *)
Definition setAdd (s : list str) (x : str) : list str :=
  if includes s x then s else s ++ [x].

(** Truthiness of an optional string. *)
Definition truthyOpt (o : option str) : bool :=
  match o with Some s => truthy s | None => false end.

Record DocumentStat : Type := {
  stat_name : str;
  stat_chunks : Z;
  stat_category : option str;
}.

Record Stats : Type := {
  stats_totalDocuments : Z;
  stats_totalChunks : Z;
  stats_categories : list str;
  stats_documents : list DocumentStat;
}.

Section Documents.

Context `{NodeLib} (CONFIG : Config).

(** [fs.readFileSync(filePath)] *)
Definition readFileSync (filePath : str) : M (list N) :=
  fun w =>
    match files w filePath with
    | Some (File bytes) => (Ok bytes, w)
    | Some _ => (Throw (lit "EISDIR: illegal operation on a directory"), w)
    | None => (Throw (lit "ENOENT: no such file or directory"), w)
    end.

Definition decoded (r : str + str) : M str :=
  match r with
  | inl value => ret value
  | inr message => throw message
  end.

Definition parseWordDocument (filePath : str) : M str :=
  buffer <- readFileSync filePath ;;
  decoded (mammoth_extractRawText buffer).

Definition parsePdfDocument (filePath : str) : M str :=
  buffer <- readFileSync filePath ;;
  decoded (pdfParse buffer).

Definition parseDocument (filePath : str) : M str :=
  let ext := toLowerCase (path_extname filePath) in
  if includes [lit ".docx"; lit ".doc"] ext then parseWordDocument filePath
  else if includes [lit ".pdf"] ext then parsePdfDocument filePath
  else if includes [lit ".txt"; lit ".md"] ext then
    bytes <- readFileSync filePath ;;
    ret (utf8_decode bytes)
  else throw (lit "Unsupported file format: " ++ ext).

Definition extractTitle (content fileName : str) : str :=
  let lines := List.filter (fun l => truthy (trim l)) (splitOn LF content) in
  match lines with
  | first :: _ =>
      let firstLine := trim first in
      if len firstLine <=? 100 then firstLine
      else slice firstLine 0 97 ++ lit "..."
  | [] => fileName
  end.

(** [/[^a-z0-9]/] *)
Definition lowerAlnum (c : N) : bool :=
  ((97 <=? c) && (c <=? 122) || (48 <=? c) && (c <=? 57))%N.

Definition generateDocumentId (filePath : str) : str :=
  let normalized :=
    List.map (fun c => if (c =? 92)%N then 47%N else c) filePath in
  let hash := slice (base64url normalized) 0 12 in
  let name :=
    slice (List.map (fun c => if lowerAlnum c then c else 45%N)
             (toLowerCase
                (path_basename_ext filePath (path_extname filePath))))
      0 30 in
  name ++ lit "-" ++ hash.

Definition extractCategory (filePath basePath : str) : option str :=
  let relativePath := path_relative basePath filePath in
  let parts := splitOn path_sep relativePath in
  if 1 <? len parts then head parts else None.

Definition parseAndChunkDocument (fuel : nat) (filePath basePath : str)
    : M (list DocumentChunk) :=
  content <- parseDocument filePath ;;
  let documentId := generateDocumentId filePath in
  let documentName := path_basename filePath in
  let category := extractCategory filePath basePath in
  let title := extractTitle content documentName in
  match splitIntoChunks fuel content
          (knowledge_chunkSize CONFIG) (knowledge_chunkOverlap CONFIG) with
  | None => lift OutOfFuel
  | Some textChunks =>
      ret (imap (fun index chunk =>
                   {| id := documentId ++ lit "-chunk-" ++ showNat index;
                      content := chunk;
                      metadata :=
                        {| documentId := documentId;
                           documentName := documentName;
                           documentPath := filePath;
                           chunkIndex := Z.of_nat index;
                           totalChunks := len textChunks;
                           category := category;
                           title := Some title |} |})
             textChunks)
  end.

Definition supportedExtensions : list str :=
  [lit ".docx"; lit ".doc"; lit ".pdf"; lit ".txt"; lit ".md"].

(** [scanDir(currentPath)], where [node] is what the file system has at
    [currentPath]; [documents] is the array the scan pushes to. *)
Fixpoint scanDir (currentPath : str) (node : Node) (documents : list str)
    {struct node} : res (list str) :=
  match node with
  | Dir true entries =>
      (fix each (entries : list Dirent) (documents : list str)
           {struct entries} : res (list str) :=
         match entries with
         | [] => Ok documents
         | Entry name entry :: rest =>
             let fullPath := path_join currentPath name in
             match entry with
             | Dir _ _ =>
                 if startsWith name (lit ".") then each rest documents
                 else match scanDir fullPath entry documents with
                      | Ok documents' => each rest documents'
                      | failure => failure
                      end
             | File _ =>
                 let ext := toLowerCase (path_extname name) in
                 if includes supportedExtensions ext
                 then each rest (documents ++ [fullPath])
                 else each rest documents
             | Special => each rest documents
             end
         end) entries documents
  | Dir false _ => Throw (lit "EACCES: permission denied, scandir")
  | File _ | Special => Throw (lit "ENOTDIR: not a directory, scandir")
  end.

(** [fs.existsSync(dirPath)] *)
Definition existsSync (w : World) (dirPath : str) : bool :=
  match files w dirPath with Some _ => true | None => false end.

Definition findDocuments (dirPath : str) : M (list str) :=
  fun w =>
    if existsSync w dirPath then
      match files w dirPath with
      | Some node => (scanDir dirPath node [], w)
      | None => (Throw (lit "ENOENT: no such file or directory, scandir"), w)
      end
    else (Ok [], w).

(** The directories that [scanDir] lists below a node can all be read. *)
Fixpoint scannable (node : Node) : bool :=
  match node with
  | Dir true entries =>
      (fix each (entries : list Dirent) : bool :=
         match entries with
         | [] => true
         | Entry name entry :: rest =>
             match entry with
             | Dir _ _ =>
                 (startsWith name (lit ".") || scannable entry) && each rest
             | _ => each rest
             end
         end) entries
  | _ => false
  end.

Definition countChunk (acc : list (str * DocumentStat) * list str)
    (chunk : DocumentChunk) : list (str * DocumentStat) * list str :=
  let (docMap, categories) := acc in
  let docMap' :=
    match mapGet docMap (documentId (metadata chunk)) with
    | Some existing =>
        mapSet docMap (documentId (metadata chunk))
          {| stat_name := stat_name existing;
             stat_chunks := stat_chunks existing + 1;
             stat_category := stat_category existing |}
    | None =>
        mapSet docMap (documentId (metadata chunk))
          {| stat_name := documentName (metadata chunk);
             stat_chunks := 1;
             stat_category := category (metadata chunk) |}
    end in
  let categories' :=
    match category (metadata chunk) with
    | Some c => if truthy c then setAdd categories c else categories
    | None => categories
    end in
  (docMap', categories').

Definition getDocumentStats (chunks : list DocumentChunk) : Stats :=
  let (docMap, categories) := foldl countChunk ([], []) chunks in
  {| stats_totalDocuments := len docMap;
     stats_totalChunks := len chunks;
     stats_categories := sort compareStr categories;
     stats_documents := List.map snd docMap |}.

End Documents.

End Parser.

Import Parser.

(** ** embeddings.ts *)

Module Embeddings.

(** [fetch(proxyUrl + '/v1/embeddings', { input })]: one request to the
    embedding endpoint. *)
Definition fetchEmbeddings (input : list str) : M Response :=
  fun w =>
    match endpoint w (length (requests w)) input with
    | Some response => (Ok response, withRequest w input)
    | None => (Throw (lit "fetch failed"), withRequest w input)
    end.

Definition apiError (response : Response) : str :=
  lit "Embedding API error: " ++ showZ (status response)
    ++ lit " - " ++ text response.

Definition batchSize : Z := 100.

(** The [for] loop of [createEmbeddings], from index [i] on. *)
Fixpoint embedBatches (fuel : nat) (texts : list str) (i : Z)
    (allEmbeddings : list (list number)) : M (list (list number)) :=
  match fuel with
  | O => lift OutOfFuel
  | S fuel' =>
      if i <? len texts then
        let batch := slice texts i (i + batchSize) in
        response <- fetchEmbeddings batch ;;
        if ok response then
          let sortedData :=
            sort (fun a b => index a - index b) (data response) in
          embedBatches fuel' texts (i + batchSize)
            (allEmbeddings ++ List.map embedding sortedData)
        else throw (apiError response)
      else ret allEmbeddings
  end.

Definition createEmbeddings (texts : list str) : M (list (list number)) :=
  if len texts =? 0 then ret []
  else embedBatches (S (length texts)) texts 0 [].

End Embeddings.

Import Embeddings.

(** ** qdrant.ts *)

Module Qdrant.

(** *** The client of the vector store *)

(** A request to the store: it fails when the store cannot be reached. *)
Definition rpc {A} (f : Store -> res A * Store) : M A :=
  fun w =>
    if online (qdrant w) then
      let (r, s) := f (qdrant w) in (r, withQdrant w s)
    else (Throw (lit "fetch failed"), w).

Definition withCollections (s : Store) (m : gmap str Collection) : Store :=
  {| online := online s; collections := m |}.

Definition notFound : str := lit "Not found: Collection doesn't exist!".

(** [qdrant.getCollections()]: the names. *)
Definition getCollections : M (list str) :=
  rpc (fun s => (Ok ((map_to_list (collections s)).*1), s)).

(** [qdrant.createCollection(name, { vectors: { size, distance },
    optimizers_config: { default_segment_number }, replication_factor })] *)
Definition createCollectionRpc (name : str) (size : Z) (distance : Distance)
    (segments replication : Z) : M unit :=
  rpc (fun s =>
    match collections s !! name with
    | Some _ => (Throw (lit "Conflict: Collection already exists!"), s)
    | None =>
        (Ok tt,
         withCollections s
           (<[name := {| vectors_size := size;
                         vectors_distance := distance;
                         default_segment_number := segments;
                         replication_factor := replication;
                         payload_indexes := [];
                         collection_status := lit "green";
                         points := [] |}]> (collections s)))
    end).

Definition withIndex (c : Collection) (i : PayloadIndex) : Collection :=
  {| vectors_size := vectors_size c;
     vectors_distance := vectors_distance c;
     default_segment_number := default_segment_number c;
     replication_factor := replication_factor c;
     payload_indexes := payload_indexes c ++ [i];
     collection_status := collection_status c;
     points := points c |}.

Definition withPoints (c : Collection) (ps : list Point) : Collection :=
  {| vectors_size := vectors_size c;
     vectors_distance := vectors_distance c;
     default_segment_number := default_segment_number c;
     replication_factor := replication_factor c;
     payload_indexes := payload_indexes c;
     collection_status := collection_status c;
     points := ps |}.

(** [qdrant.createPayloadIndex(name, { field_name, field_schema })] *)
Definition createPayloadIndex (name : str) (i : PayloadIndex) : M unit :=
  rpc (fun s =>
    match collections s !! name with
    | Some c => (Ok tt, withCollections s (<[name := withIndex c i]> (collections s)))
    | None => (Throw notFound, s)
    end).

(** [qdrant.deleteCollection(name)] *)
Definition deleteCollectionRpc (name : str) : M unit :=
  rpc (fun s => (Ok tt, withCollections s (delete name (collections s)))).

(** A point with the identifier of a stored point replaces it, any other
    point is added. *)
Fixpoint upsertPoint (ps : list Point) (p : Point) : list Point :=
  match ps with
  | [] => [p]
  | q :: r =>
      if bool_decide (point_id q = point_id p) then p :: r
      else q :: upsertPoint r p
  end.

(** [qdrant.upsert(name, { points })] *)
Definition upsert (name : str) (batch : list Point) : M unit :=
  rpc (fun s =>
    match collections s !! name with
    | Some c =>
        (Ok tt,
         withCollections s
           (<[name := withPoints c (foldl upsertPoint (points c) batch)]>
              (collections s)))
    | None => (Throw notFound, s)
    end).

Record ScrollResult : Type := {
  scroll_points : list Point;
  next_page_offset : option str;
}.

Fixpoint fromPoint (o : str) (ps : list Point) : list Point :=
  match ps with
  | [] => []
  | p :: r => if bool_decide (point_id p = o) then ps else fromPoint o r
  end.

(** [qdrant.scroll(name, { filter: { must: [{ key: 'documentId', match:
    { value } }] }, limit, offset, with_payload })]: the points that
    match, from the one named by [offset] on, at most [limit] of them, and
    the identifier of the point that follows them.  The whole payload is
    returned whatever [with_payload] selects; the callers read selected
    fields only. *)
Definition scroll (name : str) (documentIdFilter : option str) (limit : nat)
    (offset : option str) : M ScrollResult :=
  rpc (fun s =>
    match collections s !! name with
    | Some c =>
        let matching :=
          List.filter
            (fun p =>
               match documentIdFilter with
               | Some d =>
                   bool_decide (documentId (payload_meta (payload p)) = d)
               | None => true
               end) (points c) in
        let rest :=
          match offset with
          | Some o => fromPoint o matching
          | None => matching
          end in
        (Ok {| scroll_points := take limit rest;
               next_page_offset := point_id <$> head (drop limit rest) |}, s)
    | None => (Throw notFound, s)
    end).

Record CollectionInfo : Type := {
  points_count : Z;
  info_status : str;
}.

(** [qdrant.getCollection(name)] *)
Definition getCollection (name : str) : M CollectionInfo :=
  rpc (fun s =>
    match collections s !! name with
    | Some c =>
        (Ok {| points_count := len (points c);
               info_status := collection_status c |}, s)
    | None => (Throw notFound, s)
    end).

(** *** qdrant.ts proper *)

Record SearchResult : Type := {
  result_content : str;
  score : number;
  result_meta : Metadata;
}.

Record DocumentEntry : Type := {
  entry_documentId : str;
  entry_documentName : str;
  entry_category : option str;
  entry_title : option str;
}.

Record CollectionStats : Type := {
  totalPoints : Z;
  stats_status : str;
}.

(** [uuidv4()] *)
Definition uuidv4 : M str :=
  fun w => (Ok (uuids w (minted w)), withMinted w (S (minted w))).

Section Qdrant.

Context (CONFIG : Config).

#[local] Abbreviation NAME := (knowledge_collectionName CONFIG).

Definition collectionExists : M bool :=
  tryCatch
    (collections <- getCollections ;;
     ret (existsb (fun c => bool_decide (c = NAME)) collections))
    (fun _ => ret false).

Definition createCollection : M unit :=
  present <- collectionExists ;;
  if present then ret tt
  else
    createCollectionRpc NAME (knowledge_embeddingDimension CONFIG) Cosine 2 1 ;;
    createPayloadIndex NAME
      {| field_name := lit "documentId"; field_schema := lit "keyword" |} ;;
    createPayloadIndex NAME
      {| field_name := lit "category"; field_schema := lit "keyword" |} ;;
    ret tt.

Definition deleteCollection : M unit :=
  present <- collectionExists ;;
  if present then deleteCollectionRpc NAME else ret tt.

(** [x || null] for an optional string. *)
Definition orNull (o : option str) : option str :=
  if truthyOpt o then o else None.

(** The points of [indexChunks]: [chunks.map((chunk, i) => ...)] from
    position [i] on.  A vector that the embeddings lack is [undefined] in
    the source; it is the empty vector here. *)
Fixpoint preparePoints (chunks : list DocumentChunk)
    (embeddings : list (list number)) (i : nat) : M (list Point) :=
  match chunks with
  | [] => ret []
  | chunk :: rest =>
      uuid <- uuidv4 ;;
      points <- preparePoints rest embeddings (S i) ;;
      ret ({| point_id := uuid;
              vector := default [] (embeddings !! i);
              payload :=
                {| chunkId := id chunk;
                   payload_content := content chunk;
                   payload_meta :=
                     {| documentId := documentId (metadata chunk);
                        documentName := documentName (metadata chunk);
                        documentPath := documentPath (metadata chunk);
                        chunkIndex := chunkIndex (metadata chunk);
                        totalChunks := totalChunks (metadata chunk);
                        category := orNull (category (metadata chunk));
                        title := orNull (title (metadata chunk)) |} |} |}
             :: points)
  end.

(** The [for] loop of [indexChunks], from index [i] on. *)
Fixpoint upsertBatches (fuel : nat) (points : list Point) (i : Z) : M unit :=
  match fuel with
  | O => lift OutOfFuel
  | S fuel' =>
      if i <? len points then
        upsert NAME (slice points i (i + batchSize)) ;;
        upsertBatches fuel' points (i + batchSize)
      else ret tt
  end.

Definition indexChunks (chunks : list DocumentChunk) : M unit :=
  if len chunks =? 0 then ret tt
  else
    let texts := List.map content chunks in
    embeddings <- createEmbeddings texts ;;
    points <- preparePoints chunks embeddings O ;;
    upsertBatches (S (length points)) points 0.

Definition resultOf (r : Point) : SearchResult :=
  {| result_content := payload_content (payload r);
     score := Float64 4607182418800017408;
     result_meta := payload_meta (payload r) |}.

Definition byChunkIndex (a b : SearchResult) : Z :=
  chunkIndex (result_meta a) - chunkIndex (result_meta b).

Definition getDocumentChunks (documentId : str) : M (list SearchResult) :=
  results <- scroll NAME (Some documentId) 1000 None ;;
  let chunks := List.map resultOf (scroll_points results) in
  ret (sort byChunkIndex chunks).

Definition getStats : M CollectionStats :=
  present <- collectionExists ;;
  if negb present then
    ret {| totalPoints := 0; stats_status := lit "not_created" |}
  else
    info <- getCollection NAME ;;
    ret {| totalPoints := points_count info;
           stats_status := info_status info |}.

(** The [for] loop over one page of [listDocuments]. *)
Definition seeDocument (seen : list (str * DocumentEntry)) (point : Point)
    : list (str * DocumentEntry) :=
  let docId := documentId (payload_meta (payload point)) in
  match mapGet seen docId with
  | Some _ => seen
  | None =>
      mapSet seen docId
        {| entry_documentId := docId;
           entry_documentName := documentName (payload_meta (payload point));
           entry_category := category (payload_meta (payload point));
           entry_title := title (payload_meta (payload point)) |}
  end.

(** The [while (true)] loop of [listDocuments]. *)
Fixpoint scrollDocuments (fuel : nat) (offset : option str)
    (seen : list (str * DocumentEntry)) : M (list (str * DocumentEntry)) :=
  match fuel with
  | O => lift OutOfFuel
  | S fuel' =>
      results <-
        scroll NAME None 100 (if truthyOpt offset then offset else None) ;;
      let seen' := foldl seeDocument seen (scroll_points results) in
      if negb (truthyOpt (next_page_offset results)) then ret seen'
      else scrollDocuments fuel' (next_page_offset results) seen'
  end.

Definition listDocuments (fuel : nat) : M (list DocumentEntry) :=
  present <- collectionExists ;;
  if negb present then ret []
  else
    seen <- scrollDocuments fuel None [] ;;
    ret (List.map snd seen).

Definition listCategories (fuel : nat) : M (list str) :=
  docs <- listDocuments fuel ;;
  let categories :=
    foldl (fun categories doc =>
             match entry_category doc with
             | Some c => if truthy c then setAdd categories c else categories
             | None => categories
             end) [] docs in
  ret (sort compareStr categories).

End Qdrant.

End Qdrant.

Import Qdrant.

(** ** tools/knowledge.ts *)

Module Knowledge.

Record ToolResult : Type := {
  success : bool;
  output : option str;
  error : option str;
}.

Definition notFoundPrefix : str :=
  [1044; 1086; 1082; 1091; 1084; 1077; 1085; 1090; 32; 1089; 32; 73; 68;
   32; 34]%N.
Definition notFoundSuffix : str :=
  [34; 32; 1085; 1077; 32; 1085; 1072; 1081; 1076; 1077; 1085]%N.
Definition documentMark : str := [55357; 56516; 32; 42; 42]%N.
Definition titleLabel : str :=
  [1047; 1072; 1075; 1086; 1083; 1086; 1074; 1086; 1082; 58; 32]%N.
Definition categoryLabel : str :=
  [1050; 1072; 1090; 1077; 1075; 1086; 1088; 1080; 1103; 58; 32]%N.
Definition partsLabel : str := [1063; 1072; 1089; 1090; 1077; 1081; 58; 32]%N.
Definition getDocumentError : str :=
  [1054; 1096; 1080; 1073; 1082; 1072; 32; 1087; 1086; 1083; 1091; 1095;
   1077; 1085; 1080; 1103; 32; 1076; 1086; 1082; 1091; 1084; 1077; 1085;
   1090; 1072; 58; 32]%N.

Definition blankLine : str := [LF; LF].

(** The [header] of [executeGetInstruction]. *)
Definition headerOf (meta : SearchResult) : str :=
  join [LF]
    (List.filter truthy
       [documentMark ++ documentName (result_meta meta) ++ lit "**";
        match title (result_meta meta) with
        | Some t => if truthy t then titleLabel ++ t else []
        | None => []
        end;
        match category (result_meta meta) with
        | Some c => if truthy c then categoryLabel ++ c else []
        | None => []
        end;
        partsLabel ++ showZ (totalChunks (result_meta meta))]).

Section Knowledge.

Context (CONFIG : Config).

Definition executeGetInstruction (document_id : str) : M ToolResult :=
  tryCatch
    (chunks <- getDocumentChunks CONFIG document_id ;;
     match chunks with
     | [] =>
         ret {| success := false; output := None;
                error := Some (notFoundPrefix ++ document_id
                                 ++ notFoundSuffix) |}
     | meta :: _ =>
         let fullContent := join blankLine (List.map result_content chunks) in
         let header := headerOf meta in
         ret {| success := true;
                output := Some (header ++ blankLine ++ lit "---" ++ blankLine
                                  ++ fullContent);
                error := None |}
     end)
    (fun message =>
       ret {| success := false; output := None;
              error := Some (getDocumentError ++ message) |}).

End Knowledge.

End Knowledge.

Import Knowledge.

(** ** ingest.ts *)

Module Ingest.

(** What a run that completes has shown: the statistics of the chunks and
    those of the collection. *)
Record Report : Type := {
  report_stats : Stats;
  report_qdrant : CollectionStats;
}.

Section Ingest.

Context `{NodeLib} (CONFIG : Config).

(** The [for] loop that parses and chunks the documents found. *)
Fixpoint parseAll (fuel : nat) (absolutePath : str) (documentPaths : list str)
    (allChunks : list DocumentChunk) : M (list DocumentChunk) :=
  match documentPaths with
  | [] => ret allChunks
  | docPath :: rest =>
      allChunks' <-
        tryCatch
          (chunks <- parseAndChunkDocument CONFIG fuel docPath absolutePath ;;
           ret (allChunks ++ chunks))
          (fun _ => ret allChunks) ;;
      parseAll fuel absolutePath rest allChunks'
  end.

(** [main()], with [argv2] for [process.argv[2]] and [shouldReset] for
    the presence of [--reset].  What is written to the console is left
    out. *)
Definition main (fuel : nat) (argv2 : option str) (shouldReset : bool)
    : M Report :=
  let docsPath :=
    if truthyOpt argv2 then default [] argv2
    else knowledge_documentsPath CONFIG in
  let absolutePath := path_resolve docsPath in
  (if shouldReset then deleteCollection CONFIG else ret tt) ;;
  documentPaths <- findDocuments absolutePath ;;
  if len documentPaths =? 0 then exit 1
  else
    createCollection CONFIG ;;
    allChunks <- parseAll fuel absolutePath documentPaths [] ;;
    if len allChunks =? 0 then exit 1
    else
      let stats := getDocumentStats allChunks in
      tryCatch (indexChunks CONFIG allChunks) (fun _ => exit 1) ;;
      qdrantStats <- getStats CONFIG ;;
      ret {| report_stats := stats; report_qdrant := qdrantStats |}.

(** [main().catch(e => { ...; process.exit(1) })] *)
Definition run (fuel : nat) (argv2 : option str) (shouldReset : bool)
    : M Report :=
  tryCatch (main fuel argv2 shouldReset) (fun _ => exit 1).

End Ingest.

End Ingest.

Import Ingest.

(** ** Notions used in the statements *)

(** [a] may stand before [b] under the comparator [cmp]. *)
Definition inOrder {A} (cmp : A -> A -> Z) (a b : A) : Prop := cmp a b <= 0.

(** A chunk of at most [chunkSize + 1] characters. *)
Definition short (chunkSize : Z) (c : str) : Prop := len c <= chunkSize + 1.

(** The text on which the overlap of 6 undoes the advance of a window of 10
    that is snapped to the paragraph break at index 6. *)
Definition stallText : str := lit "abcdef" ++ [LF; LF] ++ lit "ghijklmnop".

(** For an overlap above half the chunk size, a text on which the loop
    never ends: a paragraph break right after [overlap] letters when the
    overlap does not exceed the chunk size, letters only when it does. *)
Definition stallTextFor (chunkSize overlap : Z) : str :=
  if overlap <=? chunkSize then
    replicate (Z.to_nat overlap) 97%N ++ paragraphBreak
      ++ replicate (Z.to_nat chunkSize) 98%N
  else replicate (S (Z.to_nat chunkSize)) 97%N.

(** The answers of an embedding endpoint that embeds each text by [E]:
    the item for the text at position [j] of the input carries [index j]. *)
Definition answers (E : str -> list number) (batch : list str)
    : list EmbeddingItem :=
  imap (fun j t => {| embedding := E t; index := Z.of_nat j |}) batch.

(** An endpoint that answers every request with the items of [answers], in
    an order of its own choosing, which may differ from request to
    request. *)
Definition shuffling (E : str -> list number)
    (endpoint : nat -> list str -> option Response) : Prop :=
  forall n batch,
    exists response,
      endpoint n batch = Some response /\
      ok response = true /\
      data response ≡ₚ answers E batch.

(** The page of at most 1000 points that the store hands to
    [getDocumentChunks], in the store's order. *)
Definition documentPage (documentId' : str) (c : Collection) : list Point :=
  take 1000
    (List.filter
       (fun p => bool_decide (documentId (payload_meta (payload p)) = documentId'))
       (points c)).

(** The collection that [createCollection] sets up. *)
Definition freshCollection (CONFIG : Config) : Collection :=
  {| vectors_size := knowledge_embeddingDimension CONFIG;
     vectors_distance := Cosine;
     default_segment_number := 2;
     replication_factor := 1;
     payload_indexes :=
       [{| field_name := lit "documentId"; field_schema := lit "keyword" |};
        {| field_name := lit "category"; field_schema := lit "keyword" |}];
     collection_status := lit "green";
     points := [] |}.

(** [a] occurs in [s] as a run of consecutive code units. *)
Definition infixOf (a s : str) : Prop := exists pre suf, s = pre ++ a ++ suf.

(** [filePath.replace(/\\/g, '/')], the path that [generateDocumentId]
    hashes. *)
Definition normalizedPath (filePath : str) : str :=
  List.map (fun c => if (c =? 92)%N then 47%N else c) filePath.

(** A library whose [base64url] is the encoding of Node's [Buffer]. *)
Definition bufferLib `{NodeLib} : Prop :=
  forall s, base64url s = base64urlEncode (utf8Encode s).

(** No three line feeds in a row from here on, when [seen] line feeds
    come right before. *)
Fixpoint shortRuns (seen : nat) (s : str) : bool :=
  match s with
  | [] => true
  | c :: r =>
      if (c =? LF)%N then (seen <? 2)%nat && shortRuns (S seen) r
      else shortRuns O r
  end.

(** What may be said of every chunk: it is cut out of the cleaned text
    and neither starts nor ends with white space. *)
Definition cutFrom (clean c : str) : Prop :=
  infixOf c clean /\
  (forall a r, c = a :: r -> isWhiteSpace a = false) /\
  (forall l b, c = l ++ [b] -> isWhiteSpace b = false).

(** The chunks of [chunks] that belong to the document [d], in order. *)
Definition chunksOfDocument (d : str) (chunks : list DocumentChunk)
    : list DocumentChunk :=
  List.filter (fun c => bool_decide (documentId (metadata c) = d)) chunks.

(** [s] is the entry of [getDocumentStats] for document [d]: the name and
    the category of the first chunk of [d], and the number of its chunks. *)
Definition statFor (chunks : list DocumentChunk) (d : str) (s : DocumentStat)
    : Prop :=
  exists first rest,
    chunksOfDocument d chunks = first :: rest /\
    stat_name s = documentName (metadata first) /\
    stat_chunks s = 1 + len rest /\
    stat_category s = category (metadata first).

(** [a] comes before [b] in the order of their UTF-16 code units, the order
    of [Array.prototype.sort] without a comparator: [a] is a proper prefix
    of [b], or the first code unit in which they differ is smaller in
    [a]. *)
Definition codeUnitLess (a b : str) : Prop :=
  exists common,
    (a = common /\ exists y b', b = common ++ y :: b') \/
    (exists x a' y b',
        a = common ++ x :: a' /\ b = common ++ y :: b' /\ (x < y)%N).

(** [x || null] spelled out: an empty string is stored as [null]. *)
Definition emptyAsNull (o : option str) : option str :=
  match o with
  | Some (c :: r) => Some (c :: r)
  | Some [] | None => None
  end.

(** The point [p] is what [indexChunks] stores for [chunk] when [v] is the
    embedding of its content. *)
Definition stores (v : list number) (chunk : DocumentChunk) (p : Point)
    : Prop :=
  vector p = v /\
  chunkId (payload p) = id chunk /\
  payload_content (payload p) = content chunk /\
  documentId (payload_meta (payload p)) = documentId (metadata chunk) /\
  documentName (payload_meta (payload p)) = documentName (metadata chunk) /\
  documentPath (payload_meta (payload p)) = documentPath (metadata chunk) /\
  chunkIndex (payload_meta (payload p)) = chunkIndex (metadata chunk) /\
  totalChunks (payload_meta (payload p)) = totalChunks (metadata chunk) /\
  category (payload_meta (payload p))
  = emptyAsNull (category (metadata chunk)) /\
  title (payload_meta (payload p)) = emptyAsNull (title (metadata chunk)).

(** The identifiers that [uuidv4()] hands out next are all different and
    none of them names a point of [c]. *)
Definition freshUuids (w : World) (n : nat) (c : Collection) : Prop :=
  NoDup (List.map (uuids w) (seq (minted w) n)) /\
  forall i, (i < n)%nat ->
            uuids w (minted w + i) ∉ List.map point_id (points c).

(** The points of [c] that belong to the document [d], in the store's
    order. *)
Definition pointsOfDocument (d : str) (c : Collection) : list Point :=
  List.filter (fun p => bool_decide (documentId (payload_meta (payload p)) = d))
    (points c).

(** [e] is the entry of [listDocuments] for a document of [c]: its fields
    are those of the first point of that document. *)
Definition entryFor (c : Collection) (e : DocumentEntry) : Prop :=
  exists first rest,
    pointsOfDocument (entry_documentId e) c = first :: rest /\
    entry_documentName e = documentName (payload_meta (payload first)) /\
    entry_category e = category (payload_meta (payload first)) /\
    entry_title e = title (payload_meta (payload first)).

(** The identifiers of the points of [c] are all different and none of
    them is the empty string. *)
Definition properIds (c : Collection) : Prop :=
  NoDup (List.map point_id (points c)) /\
  Forall (fun p => point_id p <> []) (points c).

(** The chunks that a file contributes to a run of the ingestion: those
    of [parseAndChunkDocument], none when it raises. *)
Definition contribution `{NodeLib} (CONFIG : Config) (fuel : nat)
    (basePath : str) (w : World) (filePath : str) : list DocumentChunk :=
  match (parseAndChunkDocument CONFIG fuel filePath basePath w).1 with
  | Ok chunks => chunks
  | _ => []
  end.

Section Found.

Context `{NodeLib}.

(** [found currentPath node p]: [p] is the path of a regular file with a
    supported extension, whatever the case of its letters, that lies in
    the directory [node] at [currentPath] or below it in directories whose
    names do not start with a dot.  A path is put together by [path.join]
    from the path of the directory and the name of the entry. *)
Inductive found : str -> Node -> str -> Prop :=
| found_entry currentPath readable entries name entry p :
    Entry name entry ∈ entries ->
    foundAt currentPath name entry p ->
    found currentPath (Dir readable entries) p
with foundAt : str -> str -> Node -> str -> Prop :=
| found_file currentPath name bytes :
    toLowerCase (path_extname name)
      ∈ [lit ".docx"; lit ".doc"; lit ".pdf"; lit ".txt"; lit ".md"] ->
    foundAt currentPath name (File bytes) (path_join currentPath name)
| found_below currentPath name readable entries p :
    take 1 name <> lit "." ->
    found (path_join currentPath name) (Dir readable entries) p ->
    foundAt currentPath name (Dir readable entries) p.

End Found.



(** *** Sample data *)

(** An embedding for the examples: one coordinate, the length of the
    text. *)
Definition lengthEmbedding (t : str) : list number :=
  [Float64 (N.of_nat (length t))].

(** An endpoint that answers every batch back to front. *)
Definition reversingEndpoint (n : nat) (batch : list str) : option Response :=
  Some {| ok := true; status := 200; text := [];
          data := reverse (answers lengthEmbedding batch) |}.

Definition emptyStore : Store := {| online := true; collections := ∅ |}.

(** A world with an empty folder at every path, a store without
    collections and the endpoint above. *)
Definition emptyFolderWorld : World :=
  {| files := fun _ => Some (Dir true []);
     qdrant := emptyStore;
     endpoint := reversingEndpoint;
     requests := [];
     uuids := fun n => lit "point-" ++ showNat n;
     minted := O |}.

Definition sampleConfig : Config :=
  {| knowledge_chunkSize := 500;
     knowledge_chunkOverlap := 50;
     knowledge_embeddingModel := lit "text-embedding-3-small";
     knowledge_embeddingDimension := 1536;
     knowledge_qdrantUrl := lit "http://localhost:6333";
     knowledge_collectionName := lit "kb";
     knowledge_documentsPath := lit "./knowledge_docs" |}.

Definition samplePoint (n : Z) (text : string) : Point :=
  {| point_id := lit "point-" ++ showZ n;
     vector := [];
     payload :=
       {| chunkId := lit "doc-chunk-" ++ showZ n;
          payload_content := lit text;
          payload_meta :=
            {| documentId := lit "doc";
               documentName := lit "doc.txt";
               documentPath := lit "/kb/doc.txt";
               chunkIndex := n;
               totalChunks := 3;
               category := None;
               title := Some (lit "zero") |} |} |}.

(** A collection that scrolls through the three chunks of a document in
    the order 2, 0, 1. *)
Definition shuffledCollection : Collection :=
  withPoints (freshCollection sampleConfig)
    [samplePoint 2 "two"; samplePoint 0 "zero"; samplePoint 1 "one"].

Definition shuffledWorld : World :=
  withQdrant emptyFolderWorld
    {| online := true;
       collections := {[ lit "kb" := shuffledCollection ]} |}.

(** Stand-ins for Node's library in the examples: POSIX paths that are
    already absolute, ASCII letters, and decoders that hand the bytes back
    as they are. *)
Definition asciiLower (s : str) : str :=
  List.map (fun c => if (65 <=? c)%N && (c <=? 90)%N then (c + 32)%N else c) s.

Definition sampleExtname (p : str) : str :=
  let i := lastIndexOf p (lit ".") (len p) in
  if i <=? 0 then [] else slice p i (len p).

Definition sampleBasename (p : str) : str :=
  List.last (splitOn 47%N p) [].

Definition sampleRelative (base p : str) : str :=
  if startsWith p (base ++ lit "/") then drop (S (length base)) p else p.

Definition sampleLib : NodeLib :=
  {| path_resolve := fun p => p;
     path_join := fun a b => a ++ lit "/" ++ b;
     path_extname := sampleExtname;
     path_basename := sampleBasename;
     path_basename_ext :=
       fun p ext =>
         let b := sampleBasename p in
         slice b 0 (len b - len ext);
     path_relative := sampleRelative;
     path_sep := 47%N;
     toLowerCase := asciiLower;
     base64url := fun s => s;
     utf8_decode := fun bytes => bytes;
     mammoth_extractRawText := inl;
     pdfParse := inl |}.

Definition tinyConfig : Config :=
  {| knowledge_chunkSize := 12;
     knowledge_chunkOverlap := 2;
     knowledge_embeddingModel := lit "text-embedding-3-small";
     knowledge_embeddingDimension := 1536;
     knowledge_qdrantUrl := lit "http://localhost:6333";
     knowledge_collectionName := lit "kb";
     knowledge_documentsPath := lit "/kb" |}.

(** A world whose only file is [/kb/faq/returns.txt]. *)
Definition returnsWorld : World :=
  {| files :=
       fun p =>
         if bool_decide (p = lit "/kb/faq/returns.txt")
         then Some (File (lit "aaaa bbbb. cccc dddd eeee"))
         else if bool_decide (p = lit "/kb")
         then Some (Dir true
                      [Entry (lit "faq")
                         (Dir true
                            [Entry (lit "returns.txt")
                               (File (lit "aaaa bbbb. cccc dddd eeee"))])])
         else None;
     qdrant := emptyStore;
     endpoint := reversingEndpoint;
     requests := [];
     uuids := fun n => lit "point-" ++ showNat n;
     minted := O |}.

(** A world whose only file, [/kb/empty.txt], has no bytes. *)
Definition emptyFileWorld : World :=
  {| files :=
       fun p =>
         if bool_decide (p = lit "/kb/empty.txt") then Some (File [])
         else if bool_decide (p = lit "/kb")
         then Some (Dir true [Entry (lit "empty.txt") (File [])])
         else None;
     qdrant := emptyStore;
     endpoint := reversingEndpoint;
     requests := [];
     uuids := fun n => lit "point-" ++ showNat n;
     minted := O |}.

(** A world in which every path is a directory that refuses to be
    listed. *)
Definition lockedWorld : World :=
  {| files := fun _ => Some (Dir false []);
     qdrant := emptyStore;
     endpoint := reversingEndpoint;
     requests := [];
     uuids := fun n => lit "point-" ++ showNat n;
     minted := O |}.

(** [sampleLib] with the base64url encoding of Node's [Buffer]. *)
Definition bufferSampleLib : NodeLib :=
  {| path_resolve := @path_resolve sampleLib;
     path_join := @path_join sampleLib;
     path_extname := @path_extname sampleLib;
     path_basename := @path_basename sampleLib;
     path_basename_ext := @path_basename_ext sampleLib;
     path_relative := @path_relative sampleLib;
     path_sep := @path_sep sampleLib;
     toLowerCase := @toLowerCase sampleLib;
     base64url := fun s => base64urlEncode (utf8Encode s);
     utf8_decode := @utf8_decode sampleLib;
     mammoth_extractRawText := @mammoth_extractRawText sampleLib;
     pdfParse := @pdfParse sampleLib |}.

(** An endpoint that is out of order: every request is answered with
    status 500. *)
Definition brokenEndpoint (n : nat) (batch : list str) : option Response :=
  Some {| ok := false; status := 500; text := lit "overloaded"; data := [] |}.

Definition brokenEndpointWorld : World :=
  {| files := fun _ => None;
     qdrant := emptyStore;
     endpoint := brokenEndpoint;
     requests := [];
     uuids := fun n => lit "point-" ++ showNat n;
     minted := O |}.

(** A world whose store cannot be reached. *)
Definition offlineWorld : World :=
  withQdrant emptyFolderWorld {| online := false; collections := ∅ |}.

(** [returnsWorld] with the freshly created collection in its store. *)
Definition readyWorld : World :=
  withQdrant returnsWorld
    {| online := true;
       collections := {[ lit "kb" := freshCollection tinyConfig ]} |}.

(** A chunk of a document of its own. *)
Definition sampleChunk : DocumentChunk :=
  {| id := lit "doc-chunk-0";
     content := lit "zero";
     metadata :=
       {| documentId := lit "doc";
          documentName := lit "doc.txt";
          documentPath := lit "/kb/doc.txt";
          chunkIndex := 0;
          totalChunks := 1;
          category := Some [];
          title := Some (lit "zero") |} |}.

(** A collection of 250 points, five for each of 50 documents. *)
Definition largeCollection : Collection :=
  withPoints (freshCollection sampleConfig)
    (List.map
       (fun n =>
          {| point_id := lit "point-" ++ showNat n;
             vector := [];
             payload :=
               {| chunkId := lit "chunk-" ++ showNat n;
                  payload_content := showNat n;
                  payload_meta :=
                    {| documentId := lit "doc-" ++ showNat (n mod 50);
                       documentName := lit "doc.txt";
                       documentPath := lit "/kb/doc.txt";
                       chunkIndex := Z.of_nat (n / 50);
                       totalChunks := 5;
                       category :=
                         Some (lit "cat-" ++ showNat (n mod 3));
                       title := None |} |} |})
       (seq 0 250)).

Definition largeWorld : World :=
  withQdrant emptyFolderWorld
    {| online := true; collections := {[ lit "kb" := largeCollection ]} |}.

(** * Properties *)

(** ** Strings *)

Section StringFacts.

Implicit Types s t pat : str.

Lemma trimStart_length s : (length (trimStart s) <= length s)%nat.
Proof.
  induction s as [|c r IH]; simpl; [lia|].
  destruct (isWhiteSpace c); simpl; lia.
Qed.

Lemma trim_length s : (length (trim s) <= length s)%nat.
Proof.
  unfold trim, trimEnd. rewrite length_reverse.
  etransitivity; [apply trimStart_length|].
  rewrite length_reverse. apply trimStart_length.
Qed.

(** What [trimStart] leaves starts with a code unit that is not white. *)
Lemma trimStart_head s c r :
  trimStart s = c :: r -> isWhiteSpace c = false.
Proof.
  induction s as [|d s IH]; simpl; [discriminate|].
  destruct (isWhiteSpace d) eqn:E; [exact IH|].
  intros [= <- _]. exact E.
Qed.

Lemma trimEnd_last s t c :
  trimEnd s = t ++ [c] -> isWhiteSpace c = false.
Proof.
  unfold trimEnd. intros H.
  apply (f_equal reverse) in H.
  rewrite reverse_involutive, reverse_snoc in H.
  eapply trimStart_head, H.
Qed.

Lemma blank_snoc s c : blank (s ++ [c]) = blank s && isWhiteSpace c.
Proof.
  unfold blank. rewrite forallb_app. simpl. now rewrite andb_true_r.
Qed.

(** A trimmed string that is not empty is not whitespace-only. *)
Lemma trim_truthy_not_blank s : truthy (trim s) = true -> blank (trim s) = false.
Proof.
  unfold trim. intros H.
  destruct (trimEnd (trimStart s)) as [|c r] eqn:E using rev_ind;
    [discriminate|].
  rewrite blank_snoc.
  rewrite (trimEnd_last _ _ _ E). apply andb_false_r.
Qed.

Lemma relIndex_range n k : 0 <= n -> 0 <= relIndex n k <= n.
Proof. unfold relIndex. destruct (Z.ltb_spec k 0); lia. Qed.

Lemma slice_length s a b :
  0 <= a -> 0 <= b -> len (slice s a b) <= Z.max (b - a) 0.
Proof.
  intros Ha Hb. unfold slice, len, relIndex.
  rewrite length_take, length_drop.
  destruct (Z.ltb_spec a 0), (Z.ltb_spec b 0); lia.
Qed.

Lemma trim_len s : len (trim s) <= len s.
Proof. unfold len. pose proof (trim_length s). lia. Qed.

End StringFacts.

(** ** [sort] *)

Section SortFacts.

Context {A : Type} (cmp : A -> A -> Z).

Lemma insertSorted_Permutation x l : insertSorted cmp x l ≡ₚ x :: l.
Proof.
  induction l as [|y l IH]; simpl; [reflexivity|].
  destruct (0 <? cmp x y); [|reflexivity].
  rewrite IH. apply perm_swap.
Qed.

Lemma sort_Permutation l : sort cmp l ≡ₚ l.
Proof.
  induction l as [|x l IH]; simpl; [reflexivity|].
  fold (sort cmp l). rewrite insertSorted_Permutation. now rewrite IH.
Qed.

(** The comparator never puts each of two elements before the other. *)
Hypothesis cmp_flip : forall x y, 0 < cmp x y -> cmp y x <= 0.

Lemma insertSorted_Sorted x l :
  Sorted (inOrder cmp) l -> Sorted (inOrder cmp) (insertSorted cmp x l).
Proof.
  induction 1 as [|y l Hl IH Hhd]; simpl; [repeat constructor|].
  destruct (Z.ltb_spec 0 (cmp x y)) as [Hgt|Hle].
  - constructor; [exact IH|].
    destruct Hhd as [|z l Hyz]; simpl.
    + constructor. now apply cmp_flip.
    + destruct (0 <? cmp x z); constructor; [exact Hyz|now apply cmp_flip].
  - constructor; [now constructor|]. constructor. exact Hle.
Qed.

Lemma sort_Sorted l : Sorted (inOrder cmp) (sort cmp l).
Proof.
  induction l as [|x l IH]; simpl; [constructor|].
  now apply insertSorted_Sorted.
Qed.

End SortFacts.

(** Sorting by an integer key, [(a, b) => key(a) - key(b)]. *)
Section SortByKey.

Context {A : Type} (key : A -> Z).

#[local] Abbreviation byKey := (fun a b : A => key a - key b).

Lemma sortByKey_Sorted l :
  Sorted (fun a b => key a <= key b) (sort byKey l).
Proof.
  eapply Sorted_ind with (P := Sorted (fun a b => key a <= key b));
    [constructor| |apply (sort_Sorted byKey); intros; lia].
  intros a l' _ IH Hhd. constructor; [exact IH|].
  destruct Hhd as [|b l'' Hab]; constructor.
  unfold inOrder in Hab. lia.
Qed.

Lemma increasing_key_inj l x y :
  StronglySorted (fun a b => key a < key b) l ->
  x ∈ l -> y ∈ l -> key x = key y -> x = y.
Proof.
  induction 1 as [|z l _ IH Hz]; intros Hx Hy Hk; [now inv Hx|].
  rewrite Forall_forall in Hz.
  inv Hx; inv Hy; [reflexivity| | |now apply IH].
  - match goal with Hin : _ ∈ l |- _ => pose proof (Hz _ Hin) end. lia.
  - match goal with Hin : _ ∈ l |- _ => pose proof (Hz _ Hin) end. lia.
Qed.

(** Sorting any arrangement of a list whose keys increase gives back
    that list. *)
Lemma sort_permuted l l0 :
  StronglySorted (fun a b => key a < key b) l0 ->
  l ≡ₚ l0 -> sort byKey l = l0.
Proof.
  intros Hinc Hperm.
  assert (Transitive (fun a b : A => key a <= key b)) by (intros ???; lia).
  apply (Sorted_unique_strong (fun a b => key a <= key b)).
  - intros x1 x2 Hx1 Hx2 H12 H21.
    apply (increasing_key_inj l0); [assumption| |assumption|lia].
    now rewrite <- Hperm, <- (sort_Permutation byKey l).
  - apply sortByKey_Sorted.
  - apply StronglySorted_Sorted.
    eapply StronglySorted_ind with
      (P := StronglySorted (fun a b => key a <= key b));
      [constructor| |exact Hinc].
    intros a l' _ IH Ha. constructor; [exact IH|].
    eapply Forall_impl; [exact Ha|]. simpl. intros; lia.
  - now rewrite sort_Permutation.
Qed.

Lemma distinct_key_inj l x y :
  NoDup (List.map key l) -> x ∈ l -> y ∈ l -> key x = key y -> x = y.
Proof.
  induction l as [|a l IH]; intros Hnd Hx Hy Hk; [now inv Hx|].
  cbn [List.map] in Hnd. apply NoDup_cons in Hnd as [Ha Hnd].
  assert (forall z, z ∈ l -> key z <> key a) as Hfresh.
  { intros z Hz Hza. apply Ha. rewrite <- Hza.
    apply list_elem_of_In, in_map, list_elem_of_In, Hz. }
  inv Hx; inv Hy; [reflexivity| | |now apply IH].
  - match goal with Hin : _ ∈ l |- _ => pose proof (Hfresh _ Hin) end.
    congruence.
  - match goal with Hin : _ ∈ l |- _ => pose proof (Hfresh _ Hin) end.
    congruence.
Qed.

(** With keys that are all different, the sorted list does not depend on
    the order of the input. *)
Lemma sort_order_independent l l' :
  NoDup (List.map key l) -> l ≡ₚ l' -> sort byKey l = sort byKey l'.
Proof.
  intros Hnd Hperm.
  assert (Transitive (fun a b : A => key a <= key b)) by (intros ???; lia).
  apply (Sorted_unique_strong (fun a b => key a <= key b));
    [|apply sortByKey_Sorted..|now rewrite !sort_Permutation].
  intros x1 x2 Hx1 Hx2 H12 H21.
  rewrite sort_Permutation in Hx1. rewrite sort_Permutation, <- Hperm in Hx2.
  apply (distinct_key_inj l); [assumption..|lia].
Qed.

End SortByKey.

(** ** [lastIndexOf] *)

Section LastIndexFacts.

Implicit Types s pat : str.

Lemma occursAt_fits pat s k :
  pat <> [] -> occursAt pat s k = true ->
  (k + length pat <= length s)%nat.
Proof.
  unfold occursAt. intros Hne H%bool_decide_eq_true.
  apply (f_equal length) in H.
  rewrite length_take, length_drop in H.
  destruct pat; [congruence|]. cbn [length] in *. lia.
Qed.

Lemma lastIndexDown_range pat s k :
  -1 <= lastIndexDown pat s k <= Z.of_nat k.
Proof.
  induction k as [|k IH]; simpl; destruct (occursAt pat s _); lia.
Qed.

Lemma lastIndexDown_occurs pat s k :
  0 <= lastIndexDown pat s k ->
  occursAt pat s (Z.to_nat (lastIndexDown pat s k)) = true.
Proof.
  induction k as [|k IH]; simpl.
  - destruct (occursAt pat s 0) eqn:E; [intros _; exact E|lia].
  - destruct (occursAt pat s (S k)) eqn:E; [|exact IH].
    intros _. now rewrite Nat2Z.id.
Qed.

Lemma lastIndexDown_max pat s j k :
  (j <= k)%nat -> occursAt pat s j = true ->
  Z.of_nat j <= lastIndexDown pat s k.
Proof.
  intros Hjk Hj. induction k as [|k IH].
  - assert (j = O) as -> by lia. simpl. rewrite Hj. lia.
  - simpl. destruct (occursAt pat s (S k)) eqn:E; [lia|].
    apply IH. destruct (decide (j = S k)) as [->|]; [congruence|lia].
Qed.

Lemma lastIndexDown_mono pat s j k :
  (j <= k)%nat -> lastIndexDown pat s j <= lastIndexDown pat s k.
Proof.
  intros Hjk. pose proof (lastIndexDown_range pat s j) as Hr.
  destruct (Z_lt_le_dec (lastIndexDown pat s j) 0) as [Hneg|Hpos].
  - pose proof (lastIndexDown_range pat s k). lia.
  - pose proof (lastIndexDown_occurs pat s j Hpos) as Hocc.
    pose proof (lastIndexDown_max pat s
      (Z.to_nat (lastIndexDown pat s j)) k ltac:(lia) Hocc). lia.
Qed.

(** A result that changes between two search positions lies beyond the
    smaller position. *)
Lemma lastIndexDown_jump pat s j k :
  lastIndexDown pat s j < lastIndexDown pat s k ->
  Z.of_nat j < lastIndexDown pat s k.
Proof.
  intros Hlt. pose proof (lastIndexDown_range pat s j) as Hr.
  assert (0 <= lastIndexDown pat s k) as Hpos by lia.
  pose proof (lastIndexDown_occurs pat s k Hpos) as Hocc.
  destruct (Z_lt_le_dec (Z.of_nat j) (lastIndexDown pat s k)); [assumption|].
  pose proof (lastIndexDown_max pat s
    (Z.to_nat (lastIndexDown pat s k)) j ltac:(lia) Hocc). lia.
Qed.

Lemma lastIndexOf_range s pat pos :
  -1 <= lastIndexOf s pat pos <= Z.max pos 0.
Proof.
  unfold lastIndexOf, len.
  pose proof (lastIndexDown_range pat s
    (Z.to_nat (Z.min (Z.max pos 0) (Z.of_nat (length s))))). lia.
Qed.

Lemma lastIndexOf_fits s pat pos :
  pat <> [] -> 0 <= lastIndexOf s pat pos ->
  lastIndexOf s pat pos + len pat <= len s.
Proof.
  unfold lastIndexOf. intros Hne Hpos.
  pose proof (occursAt_fits pat s _ Hne (lastIndexDown_occurs pat s _ Hpos)).
  unfold len in *. lia.
Qed.

Lemma lastIndexOf_mono s pat pos pos' :
  pos <= pos' -> lastIndexOf s pat pos <= lastIndexOf s pat pos'.
Proof.
  intros H. unfold lastIndexOf, len. apply lastIndexDown_mono. lia.
Qed.

Lemma lastIndexOf_jump s pat pos pos' :
  pat <> [] -> lastIndexOf s pat pos < lastIndexOf s pat pos' ->
  Z.max pos 0 < lastIndexOf s pat pos'.
Proof.
  intros Hne Hlt.
  pose proof (lastIndexOf_range s pat pos) as Hr.
  pose proof (lastIndexOf_fits s pat pos' Hne ltac:(lia)) as Hfit.
  assert (0 < len pat) by (unfold len; destruct pat; cbn [length]; [congruence|lia]).
  unfold lastIndexOf in *. apply lastIndexDown_jump in Hlt.
  unfold len in *. lia.
Qed.

End LastIndexFacts.

(** ** The chunker's window *)

Section WindowFacts.

Variable clean : str.
Variable chunkSize : Z.

#[local] Abbreviation endOf := (chunkEnd clean chunkSize).

(** Everything the loop needs to know about the two boundary searches at a
    cursor. *)
Ltac searches start :=
  pose proof (Nat2Z.is_nonneg (length clean) : 0 <= len clean);
  pose proof (lastIndexOf_range clean paragraphBreak (start + chunkSize));
  pose proof (lastIndexOf_range clean sentenceBreak (start + chunkSize));
  pose proof (lastIndexOf_fits clean paragraphBreak (start + chunkSize)
                ltac:(discriminate));
  pose proof (lastIndexOf_fits clean sentenceBreak (start + chunkSize)
                ltac:(discriminate)).

(** From a cursor that is not negative the window is at most one unit
    longer than the chunk size. *)
Lemma chunkEnd_window start :
  0 <= chunkSize -> 0 <= start ->
  start <= endOf start <= start + chunkSize + 1.
Proof.
  intros Hc Hs. unfold chunkEnd. searches start.
  repeat case_match; lia.
Qed.

(** A window that starts before the end of the text and is snapped, or is
    short of the end, ends inside the text. *)
Lemma chunkEnd_inside start :
  0 < len clean -> start + chunkSize < len clean -> endOf start < len clean.
Proof.
  intros Hl Hs. unfold chunkEnd. searches start.
  change (len paragraphBreak) with 2 in *.
  change (len sentenceBreak) with 2 in *.
  repeat case_match; lia.
Qed.

(** The end of the window does not decrease when the cursor advances. *)
Lemma chunkEnd_mono s t :
  1 <= chunkSize -> s <= t -> endOf s <= endOf t.
Proof.
  intros Hc Hst. unfold chunkEnd. searches s. searches t.
  pose proof (lastIndexOf_mono clean paragraphBreak
                (s + chunkSize) (t + chunkSize) ltac:(lia)).
  pose proof (lastIndexOf_mono clean sentenceBreak
                (s + chunkSize) (t + chunkSize) ltac:(lia)).
  pose proof (lastIndexOf_jump clean paragraphBreak
                (s + chunkSize) (t + chunkSize) ltac:(discriminate)).
  pose proof (lastIndexOf_jump clean sentenceBreak
                (s + chunkSize) (t + chunkSize) ltac:(discriminate)).
  change (len paragraphBreak) with 2 in *.
  change (len sentenceBreak) with 2 in *.
  repeat case_match; lia.
Qed.

End WindowFacts.

(** ** The chunker's loop *)

Section LoopFacts.

Variable clean : str.
Variables chunkSize overlap : Z.

#[local] Abbreviation endOf := (chunkEnd clean chunkSize).
#[local] Abbreviation loop fuel := (chunkLoop fuel clean chunkSize overlap).

(** Once the cursor is negative and does not advance, the loop is never
    left: every later window ends inside the text. *)
Lemma chunkLoop_stuck_below fuel start chunks :
  1 <= chunkSize -> chunkSize < len clean ->
  start < 0 -> endOf start - overlap <= start ->
  loop fuel start chunks = None.
Proof.
  intros Hc Hl. revert start chunks.
  induction fuel as [|fuel IH]; intros start chunks Hs Hback; [reflexivity|].
  simpl. unfold chunkTrip.
  destruct (Z.ltb_spec start (len clean)); [|lia].
  pose proof (chunkEnd_inside clean chunkSize start ltac:(lia) ltac:(lia)).
  destruct (Z.leb_spec (len clean - overlap) (endOf start - overlap)); [lia|].
  apply IH; [lia|].
  pose proof (chunkEnd_mono clean chunkSize (endOf start - overlap) start
                Hc Hback). lia.
Qed.

(** With a chunk size of zero and a positive overlap the cursor never
    becomes positive. *)
Lemma chunkLoop_stuck_zero fuel start chunks :
  chunkSize = 0 -> 1 <= overlap -> 0 < len clean ->
  start <= 0 -> loop fuel start chunks = None.
Proof.
  intros Hc Ho Hl. revert start chunks.
  induction fuel as [|fuel IH]; intros start chunks Hs; [reflexivity|].
  simpl. unfold chunkTrip.
  destruct (Z.ltb_spec start (len clean)); [|lia].
  assert (endOf start <= 1 /\ endOf start < len clean) as [Hend Hin].
  { unfold chunkEnd.
    pose proof (lastIndexOf_range clean paragraphBreak (start + chunkSize)).
    pose proof (lastIndexOf_range clean sentenceBreak (start + chunkSize)).
    pose proof (lastIndexOf_fits clean paragraphBreak (start + chunkSize)
                  ltac:(discriminate)).
    pose proof (lastIndexOf_fits clean sentenceBreak (start + chunkSize)
                  ltac:(discriminate)).
    change (len paragraphBreak) with 2 in *.
    change (len sentenceBreak) with 2 in *.
    repeat case_match; lia. }
  destruct (Z.leb_spec (len clean - overlap) (endOf start - overlap)); [lia|].
  apply IH. lia.
Qed.

(** The chunk cut at a cursor that is not negative is short. *)
Lemma chunk_short start :
  0 <= chunkSize -> 0 <= start ->
  short chunkSize (trim (slice clean start (endOf start))).
Proof.
  intros Hc Hs. unfold short.
  pose proof (chunkEnd_window clean chunkSize start Hc Hs).
  pose proof (trim_len (slice clean start (endOf start))).
  pose proof (slice_length clean start (endOf start) Hs ltac:(lia)). lia.
Qed.

Lemma chunkLoop_short fuel start chunks r :
  0 <= chunkSize -> chunkSize < len clean ->
  0 <= start -> Forall (short chunkSize) chunks ->
  loop fuel start chunks = Some r -> Forall (short chunkSize) r.
Proof.
  intros Hc Hl. revert start chunks.
  induction fuel as [|fuel IH]; intros start chunks Hs Hall; [discriminate|].
  simpl. unfold chunkTrip.
  destruct (Z.ltb_spec start (len clean)); [|now intros [= <-]].
  set (chunk := trim (slice clean start (endOf start))).
  set (chunks' := if truthy chunk then chunks ++ [chunk] else chunks).
  assert (Forall (short chunkSize) chunks') as Hall'.
  { subst chunks'. destruct (truthy chunk); [|assumption].
    apply Forall_app. split; [assumption|].
    constructor; [|constructor]. now apply chunk_short. }
  destruct (Z.leb_spec (len clean - overlap) (endOf start - overlap));
    [now intros [= <-]|].
  destruct (Z_lt_le_dec (endOf start - overlap) 0) as [Hneg|Hpos];
    [|now apply IH].
  destruct (Z.eq_dec chunkSize 0) as [Hz|Hnz].
  - pose proof (chunkEnd_window clean chunkSize start Hc Hs).
    rewrite (chunkLoop_stuck_zero fuel _ chunks') by lia. discriminate.
  - pose proof (chunkEnd_mono clean chunkSize (endOf start - overlap) start
                  ltac:(lia) ltac:(lia)).
    rewrite (chunkLoop_stuck_below fuel _ chunks') by lia. discriminate.
Qed.

(** Chunks that the loop pushes are never blank. *)
Lemma chunkLoop_not_blank fuel start chunks r :
  Forall (fun c => blank c = false) chunks ->
  loop fuel start chunks = Some r -> Forall (fun c => blank c = false) r.
Proof.
  revert start chunks.
  induction fuel as [|fuel IH]; intros start chunks Hall; [discriminate|].
  simpl. unfold chunkTrip.
  destruct (Z.ltb_spec start (len clean)); [|now intros [= <-]].
  set (chunk := trim (slice clean start (endOf start))).
  set (chunks' := if truthy chunk then chunks ++ [chunk] else chunks).
  assert (Forall (fun c => blank c = false) chunks') as Hall'.
  { subst chunks'. destruct (truthy chunk) eqn:E; [|assumption].
    apply Forall_app. split; [assumption|].
    constructor; [|constructor]. now apply trim_truthy_not_blank. }
  destruct (Z.leb_spec (len clean - overlap) (endOf start - overlap));
    [now intros [= <-]|].
  now apply IH.
Qed.

(** With an overlap of at most half the chunk size every trip moves the
    cursor forward. *)
Lemma chunkEnd_progress start :
  0 < chunkSize -> 2 * overlap <= chunkSize ->
  start < endOf start - overlap.
Proof. intros Hc Ho. unfold chunkEnd. repeat case_match; lia. Qed.

Lemma chunkLoop_returns fuel start chunks :
  0 < chunkSize -> 2 * overlap <= chunkSize -> 0 <= overlap ->
  0 <= start < len clean -> len clean - start <= Z.of_nat fuel ->
  exists r, loop fuel start chunks = Some r.
Proof.
  intros Hc Ho Hov. revert start chunks.
  induction fuel as [|fuel IH]; intros start chunks Hs Hfuel; [lia|].
  simpl. unfold chunkTrip.
  destruct (Z.ltb_spec start (len clean)); [|lia].
  pose proof (chunkEnd_progress start Hc Ho).
  destruct (Z.leb_spec (len clean - overlap) (endOf start - overlap));
    [eauto|].
  apply IH; lia.
Qed.

Lemma loopHead_range start chunks :
  0 < chunkSize -> 2 * overlap <= chunkSize -> 0 <= overlap ->
  chunkSize < len clean ->
  loopHead clean chunkSize overlap start chunks -> 0 <= start < len clean.
Proof.
  intros Hc Ho Hov Hl. induction 1 as [|s c s' c' _ IH Htrip]; [lia|].
  unfold chunkTrip in Htrip.
  destruct (Z.ltb_spec s (len clean)); [|discriminate].
  pose proof (chunkEnd_progress s Hc Ho).
  destruct (Z.leb_spec (len clean - overlap) (endOf s - overlap));
    [discriminate|].
  injection Htrip as <- _. lia.
Qed.

End LoopFacts.

(** ** The bound on the overlap cannot be relaxed *)

Section Tightness.

Lemma occursAt_two (a b : N) (s : str) (k : nat) :
  occursAt [a; b] s k = true -> s !! k = Some a /\ s !! S k = Some b.
Proof.
  unfold occursAt. intros Heq%bool_decide_eq_true. cbn [length] in Heq.
  split.
  - apply (f_equal (fun l => l !! O)) in Heq.
    rewrite lookup_take_lt, lookup_drop in Heq by lia.
    now rewrite Nat.add_0_r in Heq.
  - apply (f_equal (fun l => l !! 1%nat)) in Heq.
    rewrite lookup_take_lt, lookup_drop in Heq by lia.
    now rewrite Nat.add_1_r in Heq.
Qed.

Lemma lastIndexDown_none pat s k :
  (forall j, occursAt pat s j = false) -> lastIndexDown pat s k = -1.
Proof.
  intros Hno. induction k as [|k IH]; simpl; rewrite Hno; [reflexivity|].
  exact IH.
Qed.

Lemma occursAt_replicate (a b c : N) (n k : nat) :
  a <> c -> occursAt [a; b] (replicate n c) k = false.
Proof.
  intros Hac. destruct (occursAt [a; b] (replicate n c) k) eqn:E;
    [|reflexivity].
  apply occursAt_two in E as [E _].
  apply lookup_replicate in E as [E _]. congruence.
Qed.

Lemma lastIndexOf_replicate (a b c : N) (n : nat) (pos : Z) :
  a <> c -> lastIndexOf (replicate n c) [a; b] pos = -1.
Proof.
  intros Hac. apply lastIndexDown_none. intros j.
  now apply occursAt_replicate.
Qed.

(** The only paragraph break of [a...a LF LF b...b] is the one written. *)
Lemma paragraphBreak_only (n m k : nat) :
  occursAt paragraphBreak
    (replicate n 97%N ++ paragraphBreak ++ replicate m 98%N) k = true ->
  k = n.
Proof.
  intros [Hk HSk]%occursAt_two.
  destruct (Nat.lt_trichotomy k n) as [Hlt|[->|Hgt]]; [|reflexivity|].
  - rewrite lookup_app_l, lookup_replicate_2 in Hk
      by (rewrite ?length_replicate; lia).
    discriminate.
  - rewrite lookup_app_r in HSk by (rewrite length_replicate; lia).
    rewrite length_replicate in HSk.
    replace (S k - n)%nat with (S (S (k - S n))) in HSk by lia.
    cbn in HSk. apply lookup_replicate in HSk as [HSk _]. discriminate.
Qed.

Lemma paragraphBreak_found (n m : nat) (pos : Z) :
  Z.of_nat n <= pos ->
  lastIndexOf (replicate n 97%N ++ paragraphBreak ++ replicate m 98%N)
    paragraphBreak pos = Z.of_nat n.
Proof.
  intros Hpos. set (s := replicate n 97%N ++ paragraphBreak ++ replicate m 98%N).
  assert (occursAt paragraphBreak s n = true) as Hocc.
  { unfold occursAt, s. apply bool_decide_eq_true.
    rewrite drop_app_length' by now rewrite length_replicate.
    reflexivity. }
  assert (Z.of_nat n + 2 <= len s) as Hlen.
  { unfold len, s. rewrite !length_app, !length_replicate.
    change (length paragraphBreak) with 2%nat. lia. }
  unfold lastIndexOf.
  set (k := Z.to_nat (Z.min (Z.max pos 0) (len s))).
  pose proof (lastIndexDown_max paragraphBreak s n k ltac:(lia) Hocc) as Hge.
  pose proof (lastIndexDown_occurs paragraphBreak s k ltac:(lia)) as Hat.
  apply paragraphBreak_only in Hat. lia.
Qed.

(** A trip that leads back to its own cursor is repeated for ever. *)
Lemma chunkLoop_cycle clean chunkSize overlap start :
  (forall chunks, exists chunks',
      chunkTrip clean chunkSize overlap start chunks = Again start chunks') ->
  forall fuel chunks, chunkLoop fuel clean chunkSize overlap start chunks = None.
Proof.
  intros Hcycle fuel. induction fuel as [|fuel IH]; intros chunks;
    [reflexivity|].
  simpl. destruct (Hcycle chunks) as [chunks' ->]. apply IH.
Qed.

(** For every chunk size above zero and every overlap above half of it,
    there is a text, longer than the chunk size, on which the loop never
    ends. *)
Lemma overlap_bound_tight chunkSize overlap :
  0 < chunkSize -> chunkSize < 2 * overlap ->
  chunkSize < len (stallTextFor chunkSize overlap) /\
  forall fuel,
    chunkLoop fuel (stallTextFor chunkSize overlap) chunkSize overlap 0 []
    = None.
Proof.
  intros Hc Ho. unfold stallTextFor.
  destruct (Z.leb_spec overlap chunkSize) as [Hle|Hgt].
  - set (s := replicate (Z.to_nat overlap) 97%N ++ paragraphBreak
                ++ replicate (Z.to_nat chunkSize) 98%N).
    assert (len s = overlap + 2 + chunkSize) as Hlen.
    { unfold len, s. rewrite !length_app, !length_replicate.
      change (length paragraphBreak) with 2%nat. lia. }
    assert (chunkEnd s chunkSize 0 = overlap) as Hend.
    { unfold chunkEnd.
      destruct (Z.ltb_spec (0 + chunkSize) (len s)); [|lia].
      pose proof (paragraphBreak_found (Z.to_nat overlap)
                    (Z.to_nat chunkSize) (0 + chunkSize) ltac:(lia)) as HP.
      fold s in HP. rewrite HP, Z2Nat.id by lia.
      destruct (Z.ltb_spec (2 * 0 + chunkSize) (2 * overlap)); lia. }
    split; [lia|]. intros fuel. apply chunkLoop_cycle. intros chunks.
    unfold chunkTrip. rewrite Hend.
    destruct (Z.ltb_spec 0 (len s)); [|lia].
    destruct (Z.leb_spec (len s - overlap) (overlap - overlap)); [lia|].
    rewrite Z.sub_diag. eauto.
  - set (s := replicate (S (Z.to_nat chunkSize)) 97%N).
    assert (len s = chunkSize + 1) as Hlen.
    { unfold len, s. rewrite length_replicate. lia. }
    split; [lia|]. intros [|fuel]; [reflexivity|].
    assert (chunkEnd s chunkSize 0 = chunkSize) as Hend.
    { unfold chunkEnd, s, paragraphBreak, sentenceBreak.
      rewrite !lastIndexOf_replicate by discriminate.
      repeat case_match; lia. }
    simpl. unfold chunkTrip. rewrite Hend.
    destruct (Z.ltb_spec 0 (len s)); [|lia].
    destruct (Z.leb_spec (len s - overlap) (chunkSize - overlap)); [lia|].
    apply chunkLoop_stuck_below; [lia..|].
    pose proof (chunkEnd_mono s chunkSize (chunkSize - overlap) 0
                  ltac:(lia) ltac:(lia)).
    lia.
Qed.

(** Cleaning leaves these texts as they are. *)

Lemma replaceCRLF_id s : Forall (fun c => c <> CR) s -> replaceCRLF s = s.
Proof.
  induction 1 as [|c r Hc Hr IH]; [reflexivity|].
  cbn [replaceCRLF]. destruct r as [|d r']; [reflexivity|].
  destruct (N.eqb_spec c CR); [contradiction|]. simpl andb. cbv iota.
  now rewrite IH.
Qed.

Lemma collapseLF_replicate seen k a r :
  a <> LF ->
  collapseLF seen (replicate k a ++ r)
  = replicate k a ++ collapseLF (match k with O => seen | S _ => O end) r.
Proof.
  intros Ha. revert seen. induction k as [|k IH]; intros seen; [reflexivity|].
  cbn [replicate app collapseLF].
  destruct (N.eqb_spec a LF); [contradiction|].
  rewrite IH. now destruct k.
Qed.

Lemma trim_id s a r l b :
  s = a :: r -> s = l ++ [b] ->
  isWhiteSpace a = false -> isWhiteSpace b = false -> trim s = s.
Proof.
  intros Hhead Hlast Ha Hb. unfold trim, trimEnd.
  assert (trimStart s = s) as -> by (rewrite Hhead; simpl; now rewrite Ha).
  rewrite Hlast at 1. rewrite reverse_snoc. simpl. rewrite Hb.
  now rewrite <- reverse_snoc, reverse_involutive, <- Hlast.
Qed.

Lemma stallTextFor_clean chunkSize overlap :
  0 < chunkSize -> chunkSize < 2 * overlap ->
  cleanText (stallTextFor chunkSize overlap) = stallTextFor chunkSize overlap.
Proof.
  intros Hc Ho. unfold cleanText, stallTextFor.
  destruct (Z.to_nat chunkSize) as [|m] eqn:Em; [lia|].
  destruct (Z.to_nat overlap) as [|n] eqn:En; [lia|].
  destruct (overlap <=? chunkSize).
  - rewrite replaceCRLF_id.
    2:{ rewrite !Forall_app. repeat split;
          [apply Forall_replicate; discriminate
          |repeat constructor; discriminate
          |apply Forall_replicate; discriminate]. }
    rewrite collapseLF_replicate by discriminate.
    cbn [paragraphBreak app collapseLF N.eqb Pos.eqb LF Nat.ltb Nat.leb].
    rewrite <- (app_nil_r (replicate (S m) 98%N)) at 1.
    rewrite collapseLF_replicate by discriminate. cbn [collapseLF].
    rewrite app_nil_r.
    eapply (trim_id _ 97%N _ _ 98%N); [reflexivity| |reflexivity..].
    rewrite (replicate_S_end m).
    change (LF :: LF :: replicate m 98%N ++ [98%N])
      with ((LF :: LF :: replicate m 98%N) ++ [98%N]).
    now rewrite app_assoc.
  - rewrite replaceCRLF_id by (apply Forall_replicate; discriminate).
    rewrite <- (app_nil_r (replicate (S (S m)) 97%N)) at 1.
    rewrite collapseLF_replicate by discriminate. cbn [collapseLF].
    rewrite app_nil_r.
    eapply (trim_id _ 97%N _ _ 97%N); [reflexivity| |reflexivity..].
    apply (replicate_S_end (S m)).
Qed.

(** For every chunk size above zero and every overlap above half of it,
    [splitIntoChunks] does not return on [stallTextFor]. *)
Lemma splitIntoChunks_overlap_tight chunkSize overlap fuel :
  0 < chunkSize -> chunkSize < 2 * overlap ->
  splitIntoChunks fuel (stallTextFor chunkSize overlap) chunkSize overlap
  = None.
Proof.
  intros Hc Ho. unfold splitIntoChunks.
  rewrite (stallTextFor_clean chunkSize overlap Hc Ho).
  destruct (overlap_bound_tight chunkSize overlap Hc Ho) as [Hlen Hloop].
  destruct (Z.leb_spec (len (stallTextFor chunkSize overlap)) chunkSize);
    [lia|apply Hloop].
Qed.

End Tightness.

(** ** The chunker: results *)

Lemma stallText_trip chunks :
  chunkTrip stallText 10 6 0 chunks = Again 0 (chunks ++ [lit "abcdef"]).
Proof. reflexivity. Qed.

Lemma stallText_loop fuel chunks : chunkLoop fuel stallText 10 6 0 chunks = None.
Proof.
  revert chunks. induction fuel as [|fuel IH]; intros chunks; [reflexivity|].
  cbn [chunkLoop]. rewrite stallText_trip. apply IH.
Qed.

(** When the cleaned text is not empty, no chunk is blank. *)
Lemma splitIntoChunks_not_blank fuel text chunkSize overlap chunks :
  cleanText text <> [] ->
  splitIntoChunks fuel text chunkSize overlap = Some chunks ->
  Forall (fun c => blank c = false) chunks.
Proof.
  intros Hne. unfold splitIntoChunks.
  destruct (len (cleanText text) <=? chunkSize).
  - intros [= <-]. constructor; [|constructor].
    apply trim_truthy_not_blank. fold (cleanText text).
    destruct (cleanText text); [congruence|reflexivity].
  - apply chunkLoop_not_blank. constructor.
Qed.

(** C2: the early return hands back the cleaned text as the single chunk
    without the emptiness test of the loop, so an empty or whitespace-only
    text yields one empty chunk. *)
Theorem splitIntoChunks_blank_text_empty_chunk :
  forall fuel,
    splitIntoChunks fuel [] 500 50 = Some [[]] /\
    splitIntoChunks fuel [32%N; CR; LF; 9%N; LF] 500 50 = Some [[]] /\
    truthy [] = false /\ blank [] = true.
Proof. intros fuel. repeat split. Qed.

(** C6, as stated, fails: with chunk size 10 and overlap 6 the loop never
    ends on [stallText]. *)
Lemma splitIntoChunks_stalls :
  ~ exists fuel chunks, splitIntoChunks fuel stallText 10 6 = Some chunks.
Proof.
  intros (fuel & chunks & H). unfold splitIntoChunks in H.
  change (len (cleanText stallText) <=? 10) with false in H.
  change (cleanText stallText) with stallText in H.
  now rewrite stallText_loop in H.
Qed.

(** C6 (amended): for a chunk size above zero and an overlap between zero
    and half the chunk size, the chunker returns a list after at most as
    many trips as the cleaned text has characters, and a trip leaves the
    loop exactly when the advanced cursor [end - overlap] lies within the
    final [overlap] characters of the cleaned text. *)
Theorem splitIntoChunks_terminates text chunkSize overlap :
  0 < chunkSize -> 0 <= overlap -> 2 * overlap <= chunkSize ->
  let clean := cleanText text in
  (exists chunks,
      splitIntoChunks (length clean) text chunkSize overlap = Some chunks) /\
  (chunkSize < len clean ->
   forall start chunks,
     loopHead clean chunkSize overlap start chunks ->
     (exists r, chunkTrip clean chunkSize overlap start chunks = Leave r) <->
     len clean - overlap <= chunkEnd clean chunkSize start - overlap).
Proof.
  intros Hc Hov Ho clean. split.
  - unfold splitIntoChunks. fold clean.
    destruct (Z.leb_spec (len clean) chunkSize); [eauto|].
    apply chunkLoop_returns; unfold len in *; lia.
  - intros Hl start chunks Hhead.
    pose proof (loopHead_range clean chunkSize overlap start chunks
                  Hc Ho Hov Hl Hhead) as Hr.
    unfold chunkTrip. destruct (Z.ltb_spec start (len clean)); [|lia].
    destruct (Z.leb_spec (len clean - overlap)
                (chunkEnd clean chunkSize start - overlap)).
    + split; [lia|eauto].
    + split; [intros [r [=]]|lia].
Qed.

Lemma splitIntoChunks_terminates_witness :
  exists chunks,
    splitIntoChunks 25 (lit "aaaa bbbb. cccc dddd eeee") 12 2 = Some chunks.
Proof.
  refine (proj1 (splitIntoChunks_terminates
            (lit "aaaa bbbb. cccc dddd eeee") 12 2 _ _ _)); lia.
Defined.

(** C9: when the cleaned text is longer than the chunk size, every chunk
    that [splitIntoChunks] returns has at most [chunkSize + 1] characters. *)
Theorem splitIntoChunks_chunk_length fuel text chunkSize overlap chunks :
  0 <= chunkSize ->
  chunkSize < len (cleanText text) ->
  splitIntoChunks fuel text chunkSize overlap = Some chunks ->
  Forall (fun c => len c <= chunkSize + 1) chunks.
Proof.
  intros Hc Hl. unfold splitIntoChunks.
  destruct (Z.leb_spec (len (cleanText text)) chunkSize); [lia|].
  apply (chunkLoop_short (cleanText text) chunkSize overlap fuel 0 []);
    [assumption..|lia|constructor].
Qed.

Lemma splitIntoChunks_chunk_length_witness :
  Forall (fun c => len c <= 9 + 1)
    [lit "aaaa bbbb."; lit "b. cccc d"; lit "dddd eee"; lit "eee"].
Proof.
  apply (splitIntoChunks_chunk_length 5
           (lit "aaaa bbbb. cccc dddd eeee") 9 2); [lia|reflexivity|].
  vm_compute. reflexivity.
Defined.

Example split_short :
splitIntoChunks 0 (lit "  hello world ") 500 50 = Some [lit "hello world"].
Proof. reflexivity. Qed.

(** 600 characters with a chunk size of 500 and an overlap of 50 make two
    chunks, of 500 and of 150 characters. *)
Example split_600 :
  option_map (List.map length) (splitIntoChunks 2 (replicate 600 97%N) 500 50)
  = Some [500; 150]%nat.
Proof. vm_compute. reflexivity. Qed.

(** An empty file makes one chunk, and that chunk is empty. *)
Example split_empty : splitIntoChunks 0 [] 500 50 = Some [[]].
Proof. reflexivity. Qed.

Example split_two :
splitIntoChunks 5 (lit "aaaa bbbb. cccc dddd eeee") 12 2
= Some [lit "aaaa bbbb."; lit "b. cccc dddd"; lit "dd eeee"].
Proof. vm_compute. reflexivity. Qed.

(** ** embeddings.ts *)

Section EmbeddingFacts.

Variable E : str -> list number.

Lemma answersFrom_increasing batch k :
  let items :=
    imap (fun j t => {| embedding := E t; index := Z.of_nat (k + j) |})
      batch in
  Forall (fun b => Z.of_nat k <= index b) items /\
  StronglySorted (fun a b => index a < index b) items.
Proof.
  revert k. induction batch as [|t batch IH]; intros k; simpl;
    [split; constructor|].
  rewrite (imap_ext _
    (fun j t => {| embedding := E t; index := Z.of_nat (S k + j) |}))
    by (intros; simpl; do 2 f_equal; lia).
  destruct (IH (S k)) as [Hlow Hinc]. split.
  - constructor; [simpl; lia|].
    eapply Forall_impl; [exact Hlow|]. simpl. intros; lia.
  - constructor; [exact Hinc|].
    eapply Forall_impl; [exact Hlow|]. simpl. intros; lia.
Qed.

Lemma answers_increasing batch :
  StronglySorted (fun a b => index a < index b) (answers E batch).
Proof. apply (answersFrom_increasing batch O). Qed.

Lemma answers_embedding batch :
  List.map embedding (answers E batch) = List.map E batch.
Proof.
  unfold answers. change (List.map embedding) with (fmap (M:=list) embedding).
  rewrite fmap_imap. apply imap_const.
Qed.

(** A batch and what follows it make up what was left. *)
Lemma slice_drop {A} (a : list A) (i n : Z) :
  0 <= i -> 0 <= n ->
  slice a i (i + n) ++ drop (Z.to_nat (i + n)) a = drop (Z.to_nat i) a.
Proof.
  intros Hi Hn. unfold slice, relIndex, len.
  destruct (Z.ltb_spec i 0); [lia|]. destruct (Z.ltb_spec (i + n) 0); [lia|].
  destruct (Z_lt_le_dec i (Z.of_nat (length a))) as [Hin|Hout].
  - rewrite (Z.min_l i) by lia.
    destruct (Z_lt_le_dec (Z.of_nat (length a)) (i + n)).
    + rewrite Z.min_r by lia. rewrite take_ge by (rewrite length_drop; lia).
      rewrite (drop_ge a (Z.to_nat (i + n))) by lia. apply app_nil_r.
    + rewrite Z.min_l by lia.
      replace (Z.to_nat (i + n)) with (Z.to_nat i + Z.to_nat (i + n - i))%nat
        by lia.
      rewrite <- drop_drop. apply take_drop.
  - rewrite !Z.min_r by lia. rewrite Z.sub_diag. simpl.
    rewrite !drop_ge by lia. reflexivity.
Qed.

Lemma embedBatches_shuffled fuel texts i allEmbeddings w :
  shuffling E (endpoint w) ->
  0 <= i -> Z.max 0 (len texts - i) < Z.of_nat fuel ->
  exists w',
    embedBatches fuel texts i allEmbeddings w
    = (Ok (allEmbeddings ++ List.map E (drop (Z.to_nat i) texts)), w') /\
    endpoint w' = endpoint w.
Proof.
  revert i allEmbeddings w.
  induction fuel as [|fuel IH]; intros i allEmbeddings w Hsh Hi Hfuel; [lia|].
  simpl. destruct (Z.ltb_spec i (len texts)) as [Hin|Hout].
  - unfold bind at 1. unfold fetchEmbeddings.
    destruct (Hsh (length (requests w)) (slice texts i (i + batchSize)))
      as (response & -> & Hok & Hdata).
    rewrite Hok.
    rewrite (sort_permuted index _ _ (answers_increasing _) Hdata).
    rewrite answers_embedding.
    destruct (IH (i + batchSize)
                (allEmbeddings ++ List.map E (slice texts i (i + batchSize)))
                (withRequest w (slice texts i (i + batchSize))))
      as (w' & -> & Hend); [exact Hsh|unfold batchSize; lia..|].
    exists w'. split; [|exact Hend].
    rewrite <- app_assoc, <- map_app.
    now rewrite slice_drop by (unfold batchSize; lia).
  - exists w. split; [|reflexivity]. unfold ret.
    rewrite drop_ge by (unfold len in *; lia). now rewrite app_nil_r.
Qed.

End EmbeddingFacts.

(** C3: against an endpoint that answers each batch with the right items
    in an order of its own, [createEmbeddings] returns the embeddings in
    the order of the input texts, however many batches of 100 it takes. *)
Theorem createEmbeddings_input_order E texts w :
  shuffling E (endpoint w) ->
  (createEmbeddings texts w).1 = Ok (List.map E texts).
Proof.
  intros Hsh. unfold createEmbeddings.
  destruct (Z.eqb_spec (len texts) 0) as [Hz|Hnz].
  - destruct texts; [reflexivity|discriminate].
  - destruct (embedBatches_shuffled E (S (length texts)) texts 0 [] w Hsh)
      as (w' & -> & _); [lia|unfold len; lia|reflexivity].
Qed.

Lemma reversingEndpoint_shuffling : shuffling lengthEmbedding reversingEndpoint.
Proof.
  intros n batch. eexists. split; [reflexivity|]. split; [reflexivity|].
  apply reverse_Permutation.
Qed.

Lemma createEmbeddings_input_order_witness :
  (createEmbeddings [lit "a"; lit "bbb"; lit "cc"] emptyFolderWorld).1
  = Ok [[Float64 1]; [Float64 3]; [Float64 2]].
Proof.
  apply (createEmbeddings_input_order lengthEmbedding
           [lit "a"; lit "bbb"; lit "cc"] emptyFolderWorld).
  exact reversingEndpoint_shuffling.
Defined.

(** 250 texts go out in three requests of 100, 100 and 50 texts, and the
    vectors come back in the order of the texts. *)
Example createEmbeddings_three_batches :
  let texts := List.map showNat (seq 0 250) in
  let (r, w) := createEmbeddings texts emptyFolderWorld in
  r = Ok (List.map lengthEmbedding texts) /\
  List.map length (requests w) = [100; 100; 50]%nat.
Proof. vm_compute. split; reflexivity. Qed.

(** ** qdrant.ts *)

Section QdrantFacts.

Variable CONFIG : Config.

#[local] Abbreviation NAME := (knowledge_collectionName CONFIG).

Lemma withQdrant_same w : withQdrant w (qdrant w) = w.
Proof. now destruct w. Qed.

Lemma withCollections_same s : withCollections s (collections s) = s.
Proof. now destruct s. Qed.

Lemma names_present (m : gmap str Collection) (name : str) :
  existsb (fun c => bool_decide (c = name)) (map_to_list m).*1
  = bool_decide (is_Some (m !! name)).
Proof.
  apply eq_true_iff_eq. rewrite existsb_exists, bool_decide_eq_true. split.
  - intros (x & Hin & Hx%bool_decide_eq_true). subst x.
    apply list_elem_of_In, list_elem_of_fmap in Hin as ([k v] & -> & Hkv).
    apply elem_of_map_to_list in Hkv. simpl. eauto.
  - intros [v Hv]. exists name. split; [|now apply bool_decide_eq_true].
    apply list_elem_of_In, list_elem_of_fmap. exists (name, v).
    split; [reflexivity|]. now apply elem_of_map_to_list.
Qed.

Lemma collectionExists_eq w :
  collectionExists CONFIG w
  = (Ok (online (qdrant w)
         && bool_decide (is_Some (collections (qdrant w) !! NAME))), w).
Proof.
  unfold collectionExists, tryCatch, bind, getCollections, rpc, ret.
  destruct (online (qdrant w)); [|reflexivity].
  rewrite withQdrant_same, names_present. reflexivity.
Qed.

Lemma collectionExists_present w c :
  online (qdrant w) = true -> collections (qdrant w) !! NAME = Some c ->
  collectionExists CONFIG w = (Ok true, w).
Proof.
  intros Hon Hc. rewrite collectionExists_eq, Hon, Hc.
  now rewrite bool_decide_eq_true_2 by eauto.
Qed.

Lemma collectionExists_absent w :
  collections (qdrant w) !! NAME = None ->
  collectionExists CONFIG w = (Ok false, w).
Proof.
  intros Hc. rewrite collectionExists_eq, Hc.
  rewrite bool_decide_eq_false_2 by (intros [? [=]]).
  now rewrite andb_false_r.
Qed.

Lemma collectionExists_offline w :
  online (qdrant w) = false -> collectionExists CONFIG w = (Ok false, w).
Proof. intros Hoff. now rewrite collectionExists_eq, Hoff. Qed.

Lemma createCollection_present w c :
  online (qdrant w) = true -> collections (qdrant w) !! NAME = Some c ->
  createCollection CONFIG w = (Ok tt, w).
Proof.
  intros Hon Hc. unfold createCollection, bind at 1.
  now rewrite (collectionExists_present w c).
Qed.

Lemma createCollection_absent w :
  online (qdrant w) = true -> collections (qdrant w) !! NAME = None ->
  createCollection CONFIG w
  = (Ok tt,
     withQdrant w
       (withCollections (qdrant w)
          (<[NAME := freshCollection CONFIG]> (collections (qdrant w))))).
Proof.
  intros Hon Hc. unfold createCollection, bind at 1.
  rewrite (collectionExists_absent w Hc).
  unfold bind, createCollectionRpc, createPayloadIndex, rpc, ret. simpl.
  rewrite Hon, Hc. simpl. rewrite Hon, lookup_insert_eq. simpl.
  rewrite Hon, lookup_insert_eq. simpl.
  rewrite !insert_insert_eq. reflexivity.
Qed.

Lemma createCollection_offline w :
  online (qdrant w) = false ->
  createCollection CONFIG w = (Throw (lit "fetch failed"), w).
Proof.
  intros Hoff. unfold createCollection, bind at 1.
  rewrite (collectionExists_offline w Hoff).
  unfold bind, createCollectionRpc, rpc. now rewrite Hoff.
Qed.

Lemma deleteCollection_runs w :
  exists s,
    deleteCollection CONFIG w = (Ok tt, withQdrant w s) /\
    online s = online (qdrant w).
Proof.
  unfold deleteCollection, bind. rewrite collectionExists_eq.
  destruct (online (qdrant w)) eqn:Hon; simpl.
  - destruct (bool_decide _).
    + unfold deleteCollectionRpc, rpc. rewrite Hon. eexists.
      split; [reflexivity|exact Hon].
    + exists (qdrant w). now rewrite withQdrant_same.
  - exists (qdrant w). now rewrite withQdrant_same.
Qed.

Lemma getDocumentChunks_page w documentId' c :
  online (qdrant w) = true -> collections (qdrant w) !! NAME = Some c ->
  getDocumentChunks CONFIG documentId' w
  = (Ok (sort byChunkIndex (List.map resultOf (documentPage documentId' c))),
     w).
Proof.
  intros Hon Hc. unfold getDocumentChunks, bind, scroll, rpc, ret.
  rewrite Hon, Hc, withQdrant_same. reflexivity.
Qed.

(** Two stores that hold the same points of a document, with chunk
    indexes that are all different, in different orders yield the same
    chunks. *)
Lemma getDocumentChunks_order_independent w w' documentId' c c' :
  online (qdrant w) = true -> collections (qdrant w) !! NAME = Some c ->
  online (qdrant w') = true -> collections (qdrant w') !! NAME = Some c' ->
  documentPage documentId' c ≡ₚ documentPage documentId' c' ->
  NoDup (List.map (fun p => chunkIndex (payload_meta (payload p)))
           (documentPage documentId' c)) ->
  (getDocumentChunks CONFIG documentId' w).1
  = (getDocumentChunks CONFIG documentId' w').1.
Proof.
  intros Hon Hc Hon' Hc' Hperm Hnd.
  rewrite (getDocumentChunks_page w documentId' c Hon Hc).
  rewrite (getDocumentChunks_page w' documentId' c' Hon' Hc').
  simpl. f_equal.
  apply (sort_order_independent (fun r => chunkIndex (result_meta r))).
  - now rewrite map_map.
  - now apply Permutation_map.
Qed.

End QdrantFacts.

(** C7: [createCollection] leaves a store that has the collection as it
    is and returns; run twice in a row it leaves the store that one run
    leaves; and where the collection is missing it creates it with the
    configured dimension, the cosine metric and the keyword indexes on
    [documentId] and [category]. *)
Theorem createCollection_idempotent CONFIG :
  (forall w c,
      online (qdrant w) = true ->
      collections (qdrant w) !! knowledge_collectionName CONFIG = Some c ->
      createCollection CONFIG w = (Ok tt, w)) /\
  (forall w,
      (createCollection CONFIG (createCollection CONFIG w).2).2
      = (createCollection CONFIG w).2) /\
  (forall w,
      online (qdrant w) = true ->
      collections (qdrant w) !! knowledge_collectionName CONFIG = None ->
      createCollection CONFIG w
      = (Ok tt,
         withQdrant w
           (withCollections (qdrant w)
              (<[knowledge_collectionName CONFIG := freshCollection CONFIG]>
                 (collections (qdrant w)))))).
Proof.
  split; [apply createCollection_present|].
  split; [|apply createCollection_absent].
  intros w. destruct (online (qdrant w)) eqn:Hon.
  - destruct (collections (qdrant w) !! knowledge_collectionName CONFIG)
      as [c|] eqn:Hc.
    + rewrite (createCollection_present CONFIG w c Hon Hc). simpl.
      now rewrite (createCollection_present CONFIG w c Hon Hc).
    + rewrite (createCollection_absent CONFIG w Hon Hc). simpl.
      erewrite createCollection_present; [reflexivity|exact Hon|].
      simpl. apply lookup_insert_eq.
  - rewrite (createCollection_offline CONFIG w Hon). simpl.
    now rewrite (createCollection_offline CONFIG w Hon).
Qed.

Lemma createCollection_idempotent_witness :
  createCollection sampleConfig shuffledWorld = (Ok tt, shuffledWorld) /\
  createCollection sampleConfig emptyFolderWorld
  = (Ok tt,
     withQdrant emptyFolderWorld
       (withCollections emptyStore
          (<[lit "kb" := freshCollection sampleConfig]> ∅))).
Proof.
  split.
  - apply (proj1 (createCollection_idempotent sampleConfig)
             shuffledWorld shuffledCollection); reflexivity.
  - apply (proj2 (proj2 (createCollection_idempotent sampleConfig))
             emptyFolderWorld); reflexivity.
Defined.

(** C10: when the collection does not exist, [listDocuments] returns the
    empty list without raising and without reading the store any further,
    and so does [listCategories]. *)
Theorem listDocuments_absent CONFIG fuel w :
  collections (qdrant w) !! knowledge_collectionName CONFIG = None ->
  listDocuments CONFIG fuel w = (Ok [], w) /\
  listCategories CONFIG fuel w = (Ok [], w).
Proof.
  intros Hc.
  assert (listDocuments CONFIG fuel w = (Ok [], w)) as Hlist.
  { unfold listDocuments, bind.
    now rewrite (collectionExists_absent CONFIG w Hc). }
  split; [exact Hlist|].
  unfold listCategories, bind. now rewrite Hlist.
Qed.

Lemma listDocuments_absent_witness :
  listDocuments sampleConfig 0 emptyFolderWorld = (Ok [], emptyFolderWorld) /\
  listCategories sampleConfig 0 emptyFolderWorld = (Ok [], emptyFolderWorld).
Proof.
  apply (listDocuments_absent sampleConfig 0 emptyFolderWorld). reflexivity.
Defined.

(** Sorting the images of a list is sorting the list by the comparator
    read through the map. *)
Lemma insertSorted_map {A B} (f : A -> B) (cmp : B -> B -> Z) x l :
  insertSorted cmp (f x) (List.map f l)
  = List.map f (insertSorted (fun a b => cmp (f a) (f b)) x l).
Proof.
  induction l as [|y l IH]; [reflexivity|]. simpl.
  destruct (0 <? cmp (f x) (f y)); [|reflexivity]. simpl. now rewrite IH.
Qed.

Lemma sort_map {A B} (f : A -> B) (cmp : B -> B -> Z) l :
  sort cmp (List.map f l)
  = List.map f (sort (fun a b => cmp (f a) (f b)) l).
Proof.
  induction l as [|x l IH]; [reflexivity|]. simpl.
  fold (sort cmp (List.map f l)).
  fold (sort (fun a b => cmp (f a) (f b)) l).
  now rewrite IH, insertSorted_map.
Qed.

(** C4: whatever the order in which the store hands over the points of a
    document, [getDocumentChunks] returns them sorted by the ascending
    [chunkIndex] of their payloads, each chunk carrying the [content] and
    the fields of the payload of its point, and [executeGetInstruction]
    joins the [content] fields of the payloads, in that order, with a
    blank line between them; points that arrive with the chunk indexes
    2, 0, 1 are joined as 0, 1, 2. *)
Theorem getDocument_sorts_and_joins CONFIG :
  (forall w documentId' c,
      online (qdrant w) = true ->
      collections (qdrant w) !! knowledge_collectionName CONFIG = Some c ->
      exists (sorted : list Point) (chunks : list SearchResult),
        sorted ≡ₚ documentPage documentId' c /\
        Sorted (fun p q =>
                  chunkIndex (payload_meta (payload p))
                  <= chunkIndex (payload_meta (payload q)))
          sorted /\
        getDocumentChunks CONFIG documentId' w = (Ok chunks, w) /\
        List.map result_content chunks
        = List.map (fun p => payload_content (payload p)) sorted /\
        List.map result_meta chunks
        = List.map (fun p => payload_meta (payload p)) sorted /\
        forall meta rest,
          chunks = meta :: rest ->
          executeGetInstruction CONFIG documentId' w
          = (Ok {| success := true;
                   output :=
                     Some (headerOf meta ++ [LF; LF] ++ lit "---"
                             ++ [LF; LF]
                             ++ join [LF; LF]
                                  (List.map
                                     (fun p => payload_content (payload p))
                                     sorted));
                   error := None |}, w)) /\
  (forall w documentId' c p0 p1 p2,
      online (qdrant w) = true ->
      collections (qdrant w) !! knowledge_collectionName CONFIG = Some c ->
      documentPage documentId' c = [p2; p0; p1] ->
      chunkIndex (payload_meta (payload p0)) = 0 ->
      chunkIndex (payload_meta (payload p1)) = 1 ->
      chunkIndex (payload_meta (payload p2)) = 2 ->
      exists chunks header,
        getDocumentChunks CONFIG documentId' w = (Ok chunks, w) /\
        List.map result_content chunks
        = [payload_content (payload p0); payload_content (payload p1);
           payload_content (payload p2)] /\
        List.map (fun r => chunkIndex (result_meta r)) chunks = [0; 1; 2] /\
        executeGetInstruction CONFIG documentId' w
        = (Ok {| success := true;
                 output :=
                   Some (header ++ [LF; LF] ++ lit "---" ++ [LF; LF]
                           ++ payload_content (payload p0) ++ [LF; LF]
                           ++ payload_content (payload p1) ++ [LF; LF]
                           ++ payload_content (payload p2));
                 error := None |}, w)).
Proof.
  split.
  - intros w documentId' c Hon Hc.
    pose proof (getDocumentChunks_page CONFIG w documentId' c Hon Hc) as Hget.
    rewrite sort_map in Hget.
    set (sorted :=
           sort (fun a b => byChunkIndex (resultOf a) (resultOf b))
             (documentPage documentId' c)) in Hget.
    exists sorted, (List.map resultOf sorted).
    split; [apply sort_Permutation|].
    split; [exact (sortByKey_Sorted
                     (fun p => chunkIndex (payload_meta (payload p))) _)|].
    split; [exact Hget|].
    split; [now rewrite map_map|]. split; [now rewrite map_map|].
    intros meta rest Hchunks.
    unfold executeGetInstruction, tryCatch, bind. rewrite Hget, Hchunks.
    unfold ret. rewrite <- Hchunks, map_map. reflexivity.
  - intros w documentId' c p0 p1 p2 Hon Hc Hpage H0 H1 H2.
    pose proof (getDocumentChunks_page CONFIG w documentId' c Hon Hc) as Hget.
    rewrite Hpage in Hget.
    assert (sort byChunkIndex (List.map resultOf [p2; p0; p1])
            = [resultOf p0; resultOf p1; resultOf p2]) as Hsort.
    { change (sort byChunkIndex (List.map resultOf [p2; p0; p1]))
        with (insertSorted byChunkIndex (resultOf p2)
                (insertSorted byChunkIndex (resultOf p0) [resultOf p1])).
      assert (insertSorted byChunkIndex (resultOf p0) [resultOf p1]
              = [resultOf p0; resultOf p1]) as ->
        by (simpl; unfold byChunkIndex; simpl; rewrite H0, H1; reflexivity).
      simpl. unfold byChunkIndex. simpl. rewrite H0, H1, H2. reflexivity. }
    rewrite Hsort in Hget.
    exists [resultOf p0; resultOf p1; resultOf p2], (headerOf (resultOf p0)).
    split; [exact Hget|]. split; [reflexivity|].
    split; [simpl; now rewrite H0, H1, H2|].
    unfold executeGetInstruction, tryCatch, bind. rewrite Hget. reflexivity.
Qed.

Lemma getDocument_sorts_and_joins_witness :
  (exists (sorted : list Point) (chunks : list SearchResult),
      sorted ≡ₚ documentPage (lit "doc") shuffledCollection /\
      Sorted (fun p q =>
                chunkIndex (payload_meta (payload p))
                <= chunkIndex (payload_meta (payload q)))
        sorted /\
      getDocumentChunks sampleConfig (lit "doc") shuffledWorld
      = (Ok chunks, shuffledWorld) /\
      List.map result_content chunks
      = List.map (fun p => payload_content (payload p)) sorted /\
      List.map result_meta chunks
      = List.map (fun p => payload_meta (payload p)) sorted /\
      forall meta rest,
        chunks = meta :: rest ->
        executeGetInstruction sampleConfig (lit "doc") shuffledWorld
        = (Ok {| success := true;
                 output :=
                   Some (headerOf meta ++ [LF; LF] ++ lit "---" ++ [LF; LF]
                           ++ join [LF; LF]
                                (List.map
                                   (fun p => payload_content (payload p))
                                   sorted));
                 error := None |}, shuffledWorld)) /\
  exists chunks header,
    getDocumentChunks sampleConfig (lit "doc") shuffledWorld
    = (Ok chunks, shuffledWorld) /\
    List.map result_content chunks = [lit "zero"; lit "one"; lit "two"] /\
    List.map (fun r => chunkIndex (result_meta r)) chunks = [0; 1; 2] /\
    executeGetInstruction sampleConfig (lit "doc") shuffledWorld
    = (Ok {| success := true;
             output :=
               Some (header ++ [LF; LF] ++ lit "---" ++ [LF; LF]
                       ++ lit "zero" ++ [LF; LF] ++ lit "one" ++ [LF; LF]
                       ++ lit "two");
             error := None |}, shuffledWorld).
Proof.
  split.
  - apply (proj1 (getDocument_sorts_and_joins sampleConfig)
             shuffledWorld (lit "doc") shuffledCollection); reflexivity.
  - apply (proj2 (getDocument_sorts_and_joins sampleConfig)
             shuffledWorld (lit "doc") shuffledCollection
             (samplePoint 0 "zero") (samplePoint 1 "one")
             (samplePoint 2 "two")); reflexivity.
Defined.

Example getDocument_shuffled :
  (executeGetInstruction sampleConfig (lit "doc") shuffledWorld).1
  = Ok {| success := true;
          output :=
            Some (documentMark ++ lit "doc.txt**" ++ [LF]
                    ++ titleLabel ++ lit "zero" ++ [LF]
                    ++ partsLabel ++ lit "3" ++ blankLine ++ lit "---"
                    ++ blankLine
                    ++ lit "zero" ++ blankLine ++ lit "one" ++ blankLine
                    ++ lit "two");
          error := None |}.
Proof. vm_compute. reflexivity. Qed.

(** ** parser.ts: documents *)

Section DocumentFacts.

Context `{NodeLib}.

Lemma Forall_imap {A B} (P : B -> Prop) (f : nat -> A -> B) (l : list A) :
  (forall i x, P (f i x)) -> Forall P (imap f l).
Proof.
  revert f. induction l as [|x l IH]; intros f Hf; simpl; constructor;
    [apply Hf|].
  apply IH. intros i y. apply Hf.
Qed.

(** A tree all of whose listed directories can be read is scanned to the
    end. *)
Lemma scanDir_scannable :
  forall node currentPath documents,
    scannable node = true ->
    exists documents', scanDir currentPath node documents = Ok documents'.
Proof.
  fix IH 1. intros node. destruct node as [bytes|readable entries|];
    intros currentPath documents Hs; try discriminate.
  destruct readable; [|discriminate].
  simpl in Hs |- *. revert documents Hs.
  induction entries as [|a rest IHrest]; intros documents Hs; [eauto|].
  destruct a as [name entry].
  pose proof (fun p d => IH entry p d) as Hentry.
  destruct entry as [bytes|readable entries|]; simpl in Hs |- *.
  - match goal with |- context [if ?b then _ else _] => destruct b end;
      apply IHrest; exact Hs.
  - apply andb_prop in Hs as [Hdir Hrest].
    destruct (startsWith name (lit ".")); [apply IHrest; exact Hrest|].
    destruct (Hentry (path_join currentPath name) documents Hdir)
      as [documents' Hscan].
    simpl in Hscan. rewrite Hscan.
    apply IHrest; exact Hrest.
  - apply IHrest; exact Hs.
Qed.

Lemma findDocuments_world dirPath w : (findDocuments dirPath w).2 = w.
Proof.
  unfold findDocuments, existsSync.
  destruct (files w dirPath); reflexivity.
Qed.

(** [findDocuments] reads the file system only. *)
Lemma findDocuments_files dirPath w w' :
  files w' = files w ->
  findDocuments dirPath w' = ((findDocuments dirPath w).1, w').
Proof.
  intros Hf. unfold findDocuments, existsSync. rewrite Hf.
  destruct (files w dirPath); reflexivity.
Qed.

End DocumentFacts.

(** C5: the chunks of a document that was parsed carry the chunk indexes
    0, 1, ..., N-1 in this order, where N is their number, and each of them
    reports [totalChunks = N]. *)
Theorem parseAndChunkDocument_dense `{NodeLib} CONFIG fuel filePath basePath
    w chunks w' :
  parseAndChunkDocument CONFIG fuel filePath basePath w = (Ok chunks, w') ->
  List.map (fun c => chunkIndex (metadata c)) chunks
  = List.map Z.of_nat (seq 0 (length chunks)) /\
  Forall (fun c => totalChunks (metadata c) = len chunks) chunks.
Proof.
  unfold parseAndChunkDocument, bind.
  destruct (parseDocument filePath w) as [[text| | |] w1]; try discriminate.
  destruct (splitIntoChunks fuel text _ _) as [textChunks|];
    [|discriminate].
  unfold ret. intros [= <- <-]. split.
  - rewrite length_imap.
    change (List.map (fun c => chunkIndex (metadata c)))
      with (fmap (M:=list) (fun c : DocumentChunk => chunkIndex (metadata c))).
    rewrite fmap_imap. apply (imap_seq_0 textChunks Z.of_nat).
  - unfold len. rewrite length_imap. apply Forall_imap. reflexivity.
Qed.

Lemma parseAndChunkDocument_dense_witness :
  exists chunks,
    @parseAndChunkDocument sampleLib tinyConfig 5
      (lit "/kb/faq/returns.txt") (lit "/kb") returnsWorld
    = (Ok chunks, returnsWorld) /\
    List.map (fun c => chunkIndex (metadata c)) chunks
    = List.map Z.of_nat (seq 0 (length chunks)) /\
    Forall (fun c => totalChunks (metadata c) = len chunks) chunks.
Proof.
  eexists. split; [vm_compute; reflexivity|].
  eapply (@parseAndChunkDocument_dense sampleLib tinyConfig 5
            (lit "/kb/faq/returns.txt") (lit "/kb") returnsWorld).
  vm_compute. reflexivity.
Defined.

Example parseAndChunkDocument_returns :
  match (@parseAndChunkDocument sampleLib tinyConfig 5
           (lit "/kb/faq/returns.txt") (lit "/kb") returnsWorld).1 with
  | Ok chunks =>
      List.map (fun c => (chunkIndex (metadata c), totalChunks (metadata c),
                          category (metadata c), content c)) chunks
      = [(0, 3, Some (lit "faq"), lit "aaaa bbbb.");
         (1, 3, Some (lit "faq"), lit "b. cccc dddd");
         (2, 3, Some (lit "faq"), lit "dd eeee")]
  | _ => False
  end.
Proof. vm_compute. reflexivity. Qed.

(** An empty text file is indexed as one chunk without content. *)
Example parseAndChunkDocument_empty_file :
  match (@parseAndChunkDocument sampleLib sampleConfig 0
           (lit "/kb/empty.txt") (lit "/kb") emptyFileWorld).1 with
  | Ok chunks => List.map content chunks = [[]]
  | _ => False
  end.
Proof. vm_compute. reflexivity. Qed.

(** C8, as stated, fails: a root that exists but refuses to be listed
    makes [findDocuments] raise. *)
Lemma findDocuments_unreadable_root :
  (exists message,
      @findDocuments sampleLib (lit "/kb") lockedWorld
      = (Throw message, lockedWorld)) /\
  ~ exists documents,
      (@findDocuments sampleLib (lit "/kb") lockedWorld).1 = Ok documents.
Proof.
  split; [eexists; reflexivity|]. intros [documents Hdocs]. discriminate Hdocs.
Qed.

(** C8 (amended): [findDocuments] leaves the world as it is; for a root
    that does not exist it returns the empty list, and for a root
    directory below which every directory it lists can be read it returns
    a list of paths. *)
Theorem findDocuments_total `{NodeLib} dirPath w :
  (findDocuments dirPath w).2 = w /\
  (files w dirPath = None -> findDocuments dirPath w = (Ok [], w)) /\
  (forall node,
      files w dirPath = Some node -> scannable node = true ->
      exists documents, findDocuments dirPath w = (Ok documents, w)).
Proof.
  split; [apply findDocuments_world|]. split.
  - intros Hnone. unfold findDocuments, existsSync. now rewrite Hnone.
  - intros node Hnode Hs. unfold findDocuments, existsSync. rewrite Hnode.
    destruct (scanDir_scannable node dirPath [] Hs) as [documents ->].
    eauto.
Qed.

Lemma findDocuments_total_witness :
  @findDocuments sampleLib (lit "/nowhere") returnsWorld
  = (Ok [], returnsWorld) /\
  exists documents,
    @findDocuments sampleLib (lit "/kb") returnsWorld
    = (Ok documents, returnsWorld).
Proof.
  split.
  - apply (proj1 (proj2 (@findDocuments_total sampleLib (lit "/nowhere")
                           returnsWorld))). reflexivity.
  - eapply (proj2 (proj2 (@findDocuments_total sampleLib (lit "/kb")
                            returnsWorld))); reflexivity.
Defined.

Example findDocuments_returns :
  (@findDocuments sampleLib (lit "/kb") returnsWorld).1
  = Ok [lit "/kb/faq/returns.txt"].
Proof. vm_compute. reflexivity. Qed.

(** ** ingest.ts *)

Section IngestFacts.

Context `{NodeLib} (CONFIG : Config).

Lemma deleteCollection_requests w :
  (deleteCollection CONFIG w).1 = Ok tt /\
  requests (deleteCollection CONFIG w).2 = requests w /\
  files (deleteCollection CONFIG w).2 = files w.
Proof.
  destruct (deleteCollection_runs CONFIG w) as (s & -> & _).
  repeat split.
Qed.

(** When no document is found, the run ends at the first
    [process.exit(1)]. *)
Lemma main_no_documents fuel argv2 shouldReset w :
  (findDocuments
     (path_resolve (if truthyOpt argv2 then default [] argv2
                    else knowledge_documentsPath CONFIG)) w).1 = Ok [] ->
  main CONFIG fuel argv2 shouldReset w
  = (Exit 1, if shouldReset then (deleteCollection CONFIG w).2 else w).
Proof.
  intros Hfind. unfold main. unfold bind at 1. destruct shouldReset.
  - destruct (deleteCollection_runs CONFIG w) as (s & -> & _).
    unfold bind at 1.
    rewrite (findDocuments_files _ w (withQdrant w s)) by reflexivity.
    rewrite Hfind. reflexivity.
  - unfold ret at 1. unfold bind at 1.
    rewrite (surjective_pairing (findDocuments _ w)), Hfind,
      findDocuments_world.
    reflexivity.
Qed.

End IngestFacts.

(** C1, as stated, fails: on an empty folder the run ends with
    [process.exit(1)] and returns no statistics. *)
Lemma ingest_empty_folder_exits :
  (@findDocuments sampleLib (lit "./knowledge_docs") emptyFolderWorld).1
  = Ok [] /\
  @run sampleLib sampleConfig 0 None false emptyFolderWorld
  = (Exit 1, emptyFolderWorld) /\
  ~ exists report w,
      @run sampleLib sampleConfig 0 None false emptyFolderWorld
      = (Ok report, w).
Proof.
  split; [reflexivity|]. split; [reflexivity|].
  intros (report & w & Hrun). discriminate Hrun.
Qed.

(** C1 (amended): a run of the ingestion on a folder in which no
    ingestible document is found ends with [process.exit(1)] right after
    the scan: it returns no statistics, creates no collection (the store
    is as the optional reset left it) and sends no request to the
    embedding endpoint. *)
Theorem ingest_no_documents `{NodeLib} CONFIG fuel argv2 shouldReset w :
  (findDocuments
     (path_resolve (if truthyOpt argv2 then default [] argv2
                    else knowledge_documentsPath CONFIG)) w).1 = Ok [] ->
  run CONFIG fuel argv2 shouldReset w
  = (Exit 1, if shouldReset then (deleteCollection CONFIG w).2 else w) /\
  requests (run CONFIG fuel argv2 shouldReset w).2 = requests w.
Proof.
  intros Hfind.
  assert (run CONFIG fuel argv2 shouldReset w
          = (Exit 1, if shouldReset then (deleteCollection CONFIG w).2 else w))
    as Hrun.
  { unfold run, tryCatch.
    now rewrite (main_no_documents CONFIG fuel argv2 shouldReset w Hfind). }
  split; [exact Hrun|]. rewrite Hrun. simpl.
  destruct shouldReset; [|reflexivity].
  apply (deleteCollection_requests CONFIG w).
Qed.

Lemma ingest_no_documents_witness :
  @run sampleLib sampleConfig 0 (Some (lit "/docs")) true shuffledWorld
  = (Exit 1, (deleteCollection sampleConfig shuffledWorld).2) /\
  requests (@run sampleLib sampleConfig 0 (Some (lit "/docs")) true
              shuffledWorld).2
  = requests shuffledWorld.
Proof.
  apply (@ingest_no_documents sampleLib sampleConfig 0 (Some (lit "/docs"))
           true shuffledWorld).
  reflexivity.
Defined.

(** A folder with one short text file is ingested in one request to the
    embedding endpoint, and the run reports one document, three chunks and
    three points. *)
Example ingest_returns :
  match @run sampleLib tinyConfig 5 None false returnsWorld with
  | (Ok report, w) =>
      stats_totalDocuments (report_stats report) = 1 /\
      stats_totalChunks (report_stats report) = 3 /\
      stats_categories (report_stats report) = [lit "faq"] /\
      totalPoints (report_qdrant report) = 3 /\
      requests w
      = [[lit "aaaa bbbb."; lit "b. cccc dddd"; lit "dd eeee"]]
  | _ => False
  end.
Proof. vm_compute. repeat split. Qed.

(** * Further properties *)

(** ** Chunks and the cleaned text *)

Section InfixFacts.

Implicit Types s t : str.

Lemma infixOf_refl s : infixOf s s.
Proof. exists [], []. now rewrite app_nil_r. Qed.

Lemma infixOf_trans (a : str) s t : infixOf a s -> infixOf s t -> infixOf a t.
Proof.
  intros (p1 & s1 & ->) (p2 & s2 & ->).
  exists (p2 ++ p1), (s1 ++ s2). now rewrite <- !app_assoc.
Qed.

Lemma trimStart_suffix s : exists pre, s = pre ++ trimStart s.
Proof.
  induction s as [|c r [pre IH]]; [now exists []|]. simpl.
  destruct (isWhiteSpace c); [|now exists []].
  exists (c :: pre). simpl. now rewrite <- IH.
Qed.

Lemma trimEnd_prefix s : exists suf, s = trimEnd s ++ suf.
Proof.
  unfold trimEnd. destruct (trimStart_suffix (reverse s)) as [pre Hpre].
  exists (reverse pre).
  rewrite <- reverse_app, <- Hpre. now rewrite reverse_involutive.
Qed.

Lemma trim_infix s : infixOf (trim s) s.
Proof.
  unfold trim. destruct (trimStart_suffix s) as [pre Hpre].
  destruct (trimEnd_prefix (trimStart s)) as [suf Hsuf].
  exists pre, suf. now rewrite <- Hsuf.
Qed.

Lemma slice_infix s a b : infixOf (slice s a b) s.
Proof.
  unfold slice.
  set (from := Z.to_nat (relIndex (len s) a)).
  set (n := Z.to_nat (relIndex (len s) b - relIndex (len s) a)).
  exists (take from s), (drop n (drop from s)).
  now rewrite take_drop, take_drop.
Qed.

(** What [trim] leaves neither starts nor ends with white space. *)
Lemma trim_head s c r : trim s = c :: r -> isWhiteSpace c = false.
Proof.
  unfold trim. intros Heq.
  destruct (trimEnd_prefix (trimStart s)) as [suf Hsuf].
  rewrite Heq in Hsuf. eapply trimStart_head, Hsuf.
Qed.

Lemma trim_last s l c : trim s = l ++ [c] -> isWhiteSpace c = false.
Proof. unfold trim. apply trimEnd_last. Qed.

Lemma shortRuns_collapseLF seen s : shortRuns seen (collapseLF seen s) = true.
Proof.
  revert seen. induction s as [|c r IH]; intros seen; [reflexivity|].
  simpl. destruct (N.eqb_spec c LF) as [->|Hc].
  - destruct (Nat.ltb_spec seen 2) as [Hlt|Hge]; [|apply IH].
    cbn [shortRuns]. rewrite N.eqb_refl, IH, andb_true_r.
    now apply Nat.ltb_lt.
  - cbn [shortRuns]. destruct (N.eqb_spec c LF); [contradiction|]. apply IH.
Qed.

Lemma shortRuns_triple seen pre suf :
  shortRuns seen (pre ++ [LF; LF; LF] ++ suf) = false.
Proof.
  revert seen. induction pre as [|c pre IH]; intros seen; simpl.
  - destruct seen as [|[|seen]]; reflexivity.
  - destruct (c =? LF)%N; [|apply IH]. rewrite IH. apply andb_false_r.
Qed.

Lemma shortRuns_no_triple s (a : str) :
  shortRuns O s = true -> infixOf a s -> ~ infixOf [LF; LF; LF] a.
Proof.
  intros Hs Ha Htriple.
  destruct (infixOf_trans _ _ _ Htriple Ha) as (pre & suf & ->).
  now rewrite shortRuns_triple in Hs.
Qed.

End InfixFacts.

(** X1: the text that [splitIntoChunks] cuts up, [cleanText], holds no
    three line feeds in a row and neither starts nor ends with white
    space. *)
Theorem cleanText_normal text :
  ~ infixOf [LF; LF; LF] (cleanText text) /\
  (forall c r, cleanText text = c :: r -> isWhiteSpace c = false) /\
  (forall l c, cleanText text = l ++ [c] -> isWhiteSpace c = false).
Proof.
  unfold cleanText. split; [|split].
  - eapply shortRuns_no_triple;
      [apply (shortRuns_collapseLF O)|apply trim_infix].
  - apply trim_head.
  - apply trim_last.
Qed.

Section ChunkFacts.

Variable clean : str.
Variables chunkSize overlap : Z.

Lemma chunkLoop_cutFrom fuel start chunks r :
  Forall (cutFrom clean) chunks ->
  chunkLoop fuel clean chunkSize overlap start chunks = Some r ->
  Forall (cutFrom clean) r.
Proof.
  revert start chunks.
  induction fuel as [|fuel IH]; intros start chunks Hall; [discriminate|].
  simpl. unfold chunkTrip.
  destruct (start <? len clean); [|now intros [= <-]].
  set (chunk := trim (slice clean start (chunkEnd clean chunkSize start))).
  set (chunks' := if truthy chunk then chunks ++ [chunk] else chunks).
  assert (Forall (cutFrom clean) chunks') as Hall'.
  { subst chunks'. destruct (truthy chunk); [|assumption].
    apply Forall_app. split; [assumption|].
    constructor; [|constructor]. split; [|split].
    - eapply infixOf_trans; [apply trim_infix|apply slice_infix].
    - apply trim_head.
    - apply trim_last. }
  destruct (len clean - overlap <=? _); [now intros [= <-]|].
  now apply IH.
Qed.

End ChunkFacts.

(** X2: every chunk that [splitIntoChunks] returns is a run of consecutive
    code units of the cleaned text, and neither starts nor ends with white
    space. *)
Theorem splitIntoChunks_cut_from_text fuel text chunkSize overlap chunks :
  splitIntoChunks fuel text chunkSize overlap = Some chunks ->
  Forall (cutFrom (cleanText text)) chunks.
Proof.
  unfold splitIntoChunks. destruct (len (cleanText text) <=? chunkSize).
  - intros [= <-]. constructor; [|constructor].
    split; [apply infixOf_refl|].
    split; [apply trim_head|apply trim_last].
  - apply chunkLoop_cutFrom. constructor.
Qed.

Lemma splitIntoChunks_cut_from_text_witness :
  Forall (cutFrom (cleanText (lit "aaaa bbbb. cccc dddd eeee")))
    [lit "aaaa bbbb."; lit "b. cccc dddd"; lit "dd eeee"].
Proof.
  apply (splitIntoChunks_cut_from_text 5 (lit "aaaa bbbb. cccc dddd eeee")
           12 2).
  vm_compute. reflexivity.
Defined.

(** X3: with an overlap of at most half the chunk size, the windows that
    the loop of [splitIntoChunks] slices leave no gap: every position of a
    cleaned text that is longer than the chunk size lies between the
    [start] and the [end] of some iteration. *)
Theorem chunk_windows_cover text chunkSize overlap k :
  0 < chunkSize -> 0 <= overlap -> 2 * overlap <= chunkSize ->
  chunkSize < len (cleanText text) ->
  0 <= k < len (cleanText text) ->
  exists start chunks,
    loopHead (cleanText text) chunkSize overlap start chunks /\
    start <= k < chunkEnd (cleanText text) chunkSize start.
Proof.
  intros Hc Hov Ho Hl Hk. set (clean := cleanText text) in *.
  assert (forall n start chunks,
             loopHead clean chunkSize overlap start chunks ->
             start <= k -> len clean - start <= Z.of_nat n ->
             exists start' chunks',
               loopHead clean chunkSize overlap start' chunks' /\
               start' <= k < chunkEnd clean chunkSize start') as Hgo.
  { induction n as [|n IH]; intros start chunks Hhead Hs Hn; [lia|].
    destruct (Z_lt_le_dec k (chunkEnd clean chunkSize start)) as [Hin|Hout];
      [now exists start, chunks|].
    pose proof (chunkEnd_progress clean chunkSize overlap start Hc Ho).
    destruct (chunkTrip clean chunkSize overlap start chunks) as [s' c'|r]
      eqn:Htrip.
    - pose proof (head_next _ _ _ _ _ _ _ Hhead Htrip) as Hnext.
      unfold chunkTrip in Htrip.
      destruct (start <? len clean); [|discriminate].
      destruct (len clean - overlap <=? _); [discriminate|].
      injection Htrip as <- _. apply (IH _ _ Hnext); lia.
    - unfold chunkTrip in Htrip.
      destruct (Z.ltb_spec start (len clean)); [|lia].
      destruct (Z.leb_spec (len clean - overlap)
                  (chunkEnd clean chunkSize start - overlap));
        [lia|discriminate]. }
  apply (Hgo (length clean) 0 []); [constructor|lia|unfold len; lia].
Qed.

Lemma chunk_windows_cover_witness :
  exists start chunks,
    loopHead (cleanText (lit "aaaa bbbb. cccc dddd eeee")) 12 2 start chunks /\
    start <= 20 < chunkEnd (cleanText (lit "aaaa bbbb. cccc dddd eeee")) 12 start.
Proof.
  apply (chunk_windows_cover (lit "aaaa bbbb. cccc dddd eeee") 12 2 20);
    try lia; vm_compute; intuition discriminate.
Defined.

(** ** Titles, identifiers and categories *)

Section TitleFacts.

Lemma slice_0 {A} (s : list A) (n : Z) :
  0 <= n -> slice s 0 n = take (Z.to_nat n) s.
Proof.
  intros Hn. unfold slice, relIndex, len. change (0 <? 0) with false.
  cbv iota. destruct (Z.ltb_spec n 0); [lia|].
  rewrite (Z.min_l 0) by lia. rewrite Z.sub_0_r. change (Z.to_nat 0) with O.
  rewrite drop_0.
  destruct (Z_lt_le_dec (Z.of_nat (length s)) n).
  - rewrite Z.min_r by lia. rewrite Nat2Z.id, !take_ge by lia. reflexivity.
  - now rewrite Z.min_l by lia.
Qed.

End TitleFacts.

(** X4: [extractTitle] returns the file name when no line of the content
    has anything but white space, and a title of 1 to 100 code units
    otherwise. *)
Theorem extractTitle_bounds content fileName :
  (existsb (fun l => truthy (trim l)) (splitOn LF content) = false ->
   extractTitle content fileName = fileName) /\
  (existsb (fun l => truthy (trim l)) (splitOn LF content) = true ->
   0 < len (extractTitle content fileName) <= 100).
Proof.
  unfold extractTitle.
  destruct (List.filter (fun l => truthy (trim l)) (splitOn LF content))
    as [|first rest] eqn:Hlines.
  - split; [reflexivity|]. intros (l & Hin & Hl)%existsb_exists.
    assert (In l []) as [] by (rewrite <- Hlines; now apply filter_In).
  - assert (truthy (trim first) = true) as Hfirst.
    { assert (In first (first :: rest)) as Hin by now left.
      rewrite <- Hlines in Hin. now apply filter_In in Hin. }
    split; [intros Hnone|intros _].
    + assert (existsb (fun l => truthy (trim l)) (splitOn LF content) = true)
        as Hsome; [|congruence].
      apply existsb_exists. exists first. split; [|assumption].
      assert (In first (first :: rest)) as Hin by now left.
      rewrite <- Hlines in Hin. now apply filter_In in Hin.
    + destruct (Z.leb_spec (len (trim first)) 100) as [Hshort|Hlong].
      * split; [|assumption]. unfold len. destruct (trim first);
          [discriminate|simpl; lia].
      * rewrite slice_0 by lia. unfold len in *.
        rewrite length_app, length_take. cbn [length lit List.map list_ascii_of_string]. lia.
Qed.

Lemma extractTitle_bounds_witness :
  extractTitle (lit "   ") (lit "notes.txt") = lit "notes.txt" /\
  0 < len (extractTitle (lit "  Returns policy ") (lit "returns.txt")) <= 100.
Proof.
  split.
  - apply (proj1 (extractTitle_bounds (lit "   ") (lit "notes.txt"))).
    reflexivity.
  - apply (proj2 (extractTitle_bounds (lit "  Returns policy ")
                    (lit "returns.txt"))).
    reflexivity.
Defined.

(** X5: a document identifier is a name of at most 30 code units, each a
    lower-case letter, a digit or a hyphen, then a hyphen, then a hash of
    at most 12 code units: at most 43 code units in all. *)
Theorem generateDocumentId_shape `{NodeLib} filePath :
  exists name hash,
    generateDocumentId filePath = name ++ lit "-" ++ hash /\
    len name <= 30 /\
    Forall (fun c => (97 <= c <= 122 \/ 48 <= c <= 57 \/ c = 45)%N) name /\
    len hash <= 12 /\
    len (generateDocumentId filePath) <= 43.
Proof.
  unfold generateDocumentId.
  set (hash := slice (base64url _) 0 12).
  set (name := slice (List.map _ _) 0 30).
  exists name, hash.
  assert (len name <= 30) as Hname
    by (pose proof (slice_length (List.map
          (fun c => if lowerAlnum c then c else 45%N)
          (toLowerCase (path_basename_ext filePath (path_extname filePath))))
          0 30 ltac:(lia) ltac:(lia)); subst name; lia).
  assert (len hash <= 12) as Hhash
    by (pose proof (slice_length
          (base64url (List.map (fun c => if (c =? 92)%N then 47%N else c)
                        filePath)) 0 12 ltac:(lia) ltac:(lia));
        subst hash; lia).
  split; [reflexivity|]. split; [assumption|]. split; [|split; [assumption|]].
  - subst name. rewrite slice_0 by lia. apply Forall_take.
    apply Forall_forall. intros c (d & <- & _)%list_elem_of_In%in_map_iff.
    unfold lowerAlnum.
    destruct (N.leb_spec 97 d), (N.leb_spec d 122), (N.leb_spec 48 d),
      (N.leb_spec d 57); simpl; lia.
  - unfold len in *. rewrite !length_app.
    change (length (lit "-")) with 1%nat. lia.
Qed.

Section BufferFacts.

Lemma base64url_prefix (bytes : list N) :
  (9 <= length bytes)%nat ->
  take 12 (base64urlEncode bytes) = base64urlEncode (take 9 bytes).
Proof.
  intros Hlen.
  do 9 (destruct bytes as [|? bytes]; [simpl in Hlen; lia|]).
  cbn [base64urlEncode take app]. reflexivity.
Qed.

End BufferFacts.

(** X6: [generateDocumentId] does not tell apart two files with the same
    base name whose normalised paths agree on their first nine UTF-8
    bytes: the hash is the base64url text of those nine bytes. *)
Theorem generateDocumentId_collides `{NodeLib} (p q : str) :
  bufferLib ->
  path_basename_ext p (path_extname p) = path_basename_ext q (path_extname q) ->
  (9 <= length (utf8Encode (normalizedPath p)))%nat ->
  take 9 (utf8Encode (normalizedPath p)) = take 9 (utf8Encode (normalizedPath q)) ->
  generateDocumentId p = generateDocumentId q.
Proof.
  intros Hlib Hname Hlen Hprefix.
  assert (9 <= length (utf8Encode (normalizedPath q)))%nat as Hlen'.
  { apply (f_equal length) in Hprefix. rewrite !length_take in Hprefix. lia. }
  unfold generateDocumentId. fold (normalizedPath p) (normalizedPath q).
  rewrite Hname, !Hlib, !(slice_0 _ 12) by lia.
  change (Z.to_nat 12) with 12%nat.
  now rewrite !base64url_prefix, Hprefix by assumption.
Qed.

Lemma generateDocumentId_collides_witness :
  @generateDocumentId bufferSampleLib (lit "/kb/docs/a/readme.md")
  = @generateDocumentId bufferSampleLib (lit "/kb/docs/b/readme.md").
Proof.
  apply (@generateDocumentId_collides bufferSampleLib
           (lit "/kb/docs/a/readme.md") (lit "/kb/docs/b/readme.md"));
    [intros s; reflexivity|vm_compute; reflexivity|vm_compute; lia
    |vm_compute; reflexivity].
Defined.

Section SplitFacts.

Lemma splitOn_nonempty c s : splitOn c s <> [].
Proof.
  destruct s as [|d r]; simpl; [discriminate|].
  destruct (d =? c)%N; [discriminate|]. now destruct (splitOn c r).
Qed.

Lemma splitOn_none c s : c ∉ s -> splitOn c s = [s].
Proof.
  induction s as [|d r IH]; intros Hc; [reflexivity|]. simpl.
  apply not_elem_of_cons in Hc as [Hd Hr].
  destruct (N.eqb_spec d c); [congruence|]. now rewrite IH.
Qed.

Lemma splitOn_first c a b :
  c ∉ a -> splitOn c (a ++ c :: b) = a :: splitOn c b.
Proof.
  induction a as [|d a IH]; intros Hc; simpl.
  - now rewrite N.eqb_refl.
  - apply not_elem_of_cons in Hc as [Hd Ha].
    destruct (N.eqb_spec d c); [congruence|]. now rewrite IH.
Qed.

End SplitFacts.

(** X7: [extractCategory] is [undefined] for a path without a separator
    relative to the base folder, and the first segment of the relative
    path otherwise. *)
Theorem extractCategory_first_segment `{NodeLib} filePath basePath :
  (path_sep ∉ path_relative basePath filePath ->
   extractCategory filePath basePath = None) /\
  (forall a b,
      path_relative basePath filePath = a ++ path_sep :: b ->
      path_sep ∉ a ->
      extractCategory filePath basePath = Some a).
Proof.
  unfold extractCategory. split.
  - intros Hnone. now rewrite splitOn_none.
  - intros a b -> Ha. rewrite splitOn_first by assumption.
    pose proof (splitOn_nonempty path_sep b).
    destruct (splitOn path_sep b) as [|l ls]; [congruence|].
    destruct (Z.ltb_spec 1 (len (a :: l :: ls))) as [_|Hbad]; [reflexivity|].
    unfold len in Hbad. cbn [length] in Hbad. lia.
Qed.

Lemma extractCategory_first_segment_witness :
  @extractCategory sampleLib (lit "/kb/returns.txt") (lit "/kb") = None /\
  @extractCategory sampleLib (lit "/kb/faq/returns.txt") (lit "/kb")
  = Some (lit "faq").
Proof.
  split.
  - apply (proj1 (@extractCategory_first_segment sampleLib
                    (lit "/kb/returns.txt") (lit "/kb"))).
    rewrite list_elem_of_In. vm_compute. intuition discriminate.
  - apply (proj2 (@extractCategory_first_segment sampleLib
                    (lit "/kb/faq/returns.txt") (lit "/kb"))
             (lit "faq") (lit "returns.txt")); [reflexivity|].
    rewrite list_elem_of_In. vm_compute. intuition discriminate.
Defined.

Section ShowFacts.

Lemma lit_inj s t : lit s = lit t -> s = t.
Proof.
  revert t. induction s as [|a s IH]; intros [|b t]; try discriminate;
    [reflexivity|].
  unfold lit. cbn [list_ascii_of_string List.map]. intros [= Hab Hst].
  f_equal; [|now apply IH].
  now rewrite <- (ascii_N_embedding a), <- (ascii_N_embedding b), Hab.
Qed.

Lemma showNat_inj n m : showNat n = showNat m -> n = m.
Proof.
  unfold showNat. intros Heq%lit_inj.
  apply DecimalNat.Unsigned.to_uint_inj.
  apply (f_equal NilEmpty.uint_of_string) in Heq.
  rewrite !NilEmpty.usu in Heq. congruence.
Qed.

End ShowFacts.

(** X8: the chunks of one file carry identifiers that are all different. *)
Theorem parseAndChunkDocument_ids_distinct `{NodeLib} CONFIG fuel filePath
    basePath w chunks w' :
  parseAndChunkDocument CONFIG fuel filePath basePath w = (Ok chunks, w') ->
  NoDup (List.map id chunks).
Proof.
  unfold parseAndChunkDocument, bind.
  destruct (parseDocument filePath w) as [[text| | |] w1]; try discriminate.
  destruct (splitIntoChunks fuel text _ _) as [textChunks|];
    [|discriminate].
  unfold ret. intros [= <- <-].
  change (List.map id) with (fmap (M:=list) id).
  apply NoDup_alt. intros i j x Hi Hj.
  rewrite list_lookup_fmap, list_lookup_imap in Hi, Hj.
  destruct (textChunks !! i); [|discriminate].
  destruct (textChunks !! j); [|discriminate].
  apply fmap_Some in Hi as (ci & Hci & ->).
  apply fmap_Some in Hj as (cj & Hcj & Hij).
  apply (inj Some) in Hci, Hcj. subst ci cj. cbn [id] in Hij.
  apply (app_inv_head (generateDocumentId filePath)) in Hij.
  apply (app_inv_head (lit "-chunk-")) in Hij. now apply showNat_inj.
Qed.

Lemma parseAndChunkDocument_ids_distinct_witness :
  exists chunks,
    @parseAndChunkDocument sampleLib tinyConfig 5
      (lit "/kb/faq/returns.txt") (lit "/kb") returnsWorld
    = (Ok chunks, returnsWorld) /\
    NoDup (List.map id chunks).
Proof.
  eexists. split; [vm_compute; reflexivity|].
  eapply (@parseAndChunkDocument_ids_distinct sampleLib tinyConfig 5
            (lit "/kb/faq/returns.txt") (lit "/kb") returnsWorld).
  vm_compute. reflexivity.
Defined.

(** ** Sets of categories *)

Section CategoryFacts.

Lemma compareStr_less a b : compareStr a b < 0 -> codeUnitLess a b.
Proof.
  revert b. induction a as [|c a IH]; intros [|d b]; simpl; try lia.
  - intros _. exists []. left. split; [reflexivity|]. now exists d, b.
  - destruct (N.ltb_spec c d) as [Hcd|Hcd].
    + intros _. exists []. right. now exists c, a, d, b.
    + destruct (N.ltb_spec d c) as [Hdc|Hdc]; [lia|].
      assert (c = d) as -> by lia.
      intros (common & Hless)%IH. exists (d :: common).
      destruct Hless as [[-> (y & b' & ->)]|(x & a' & y & b' & -> & -> & Hxy)].
      * left. split; [reflexivity|]. now exists y, b'.
      * right. now exists x, a', y, b'.
Qed.

Lemma compareStr_equal a b : compareStr a b = 0 -> a = b.
Proof.
  revert b. induction a as [|c a IH]; intros [|d b]; simpl; try lia;
    [reflexivity|].
  destruct (N.ltb_spec c d); [lia|]. destruct (N.ltb_spec d c); [lia|].
  intros ->%IH. f_equal. lia.
Qed.

Lemma compareStr_flip a b : 0 < compareStr a b -> compareStr b a <= 0.
Proof.
  revert b. induction a as [|c a IH]; intros [|d b]; simpl; try lia.
  destruct (N.ltb_spec c d); [lia|]. destruct (N.ltb_spec d c); [lia|].
  apply IH.
Qed.

Lemma includes_elem (s : list str) (x : str) : includes s x = true <-> x ∈ s.
Proof.
  unfold includes. rewrite existsb_exists. split.
  - intros (y & Hin & Hy). apply bool_decide_eq_true in Hy as ->.
    now apply list_elem_of_In.
  - intros Hin. exists x. split; [now apply list_elem_of_In|].
    now apply bool_decide_eq_true.
Qed.

Lemma setAdd_NoDup s x : NoDup s -> NoDup (setAdd s x).
Proof.
  intros Hs. unfold setAdd. destruct (includes s x) eqn:Hx; [assumption|].
  apply NoDup_app. split; [assumption|]. split; [|apply NoDup_singleton].
  intros y Hy ->%list_elem_of_singleton.
  apply includes_elem in Hy. congruence.
Qed.

Lemma setAdd_elem s x y : y ∈ setAdd s x <-> y ∈ s \/ y = x.
Proof.
  unfold setAdd. destruct (includes s x) eqn:Hx.
  - apply includes_elem in Hx. split; [now left|]. now intros [?| ->].
  - now rewrite elem_of_app, list_elem_of_singleton.
Qed.

(** A sorted list without duplicates is strictly increasing. *)
Lemma sort_strict (l : list str) :
  NoDup l -> Sorted codeUnitLess (sort compareStr l).
Proof.
  intros Hnd.
  assert (NoDup (sort compareStr l)) as Hnd'
      by now rewrite (sort_Permutation compareStr l).
  pose proof (sort_Sorted compareStr compareStr_flip l) as Hsorted.
  induction Hsorted as [|a r _ IH Hhd]; [constructor|].
  apply NoDup_cons in Hnd' as [Ha Hr]. constructor; [now apply IH|].
  destruct Hhd as [|b r' Hab]; constructor.
  apply compareStr_less. unfold inOrder in Hab.
  destruct (Z.eq_dec (compareStr a b) 0) as [->%compareStr_equal|]; [|lia].
  destruct Ha. left.
Qed.

Context {A : Type} (categoryOf : A -> option str).

(** The loop that gathers the categories of [getDocumentStats] and of
    [listCategories]. *)
#[local] Abbreviation gather :=
  (fun (categories : list str) (x : A) =>
     match categoryOf x with
     | Some c => if truthy c then setAdd categories c else categories
     | None => categories
     end).

Lemma gather_invariant (l : list A) :
  NoDup (foldl gather [] l) /\
  forall c, c ∈ foldl gather [] l
            <-> c <> [] /\ exists x, x ∈ l /\ categoryOf x = Some c.
Proof.
  induction l as [|x l [Hnd Hin]] using rev_ind.
  - split; [constructor|]. intros c. split; [now intros ?%elem_of_nil|].
    now intros (_ & x & ?%elem_of_nil & _).
  - rewrite foldl_app. simpl. destruct (categoryOf x) as [c'|] eqn:Hx.
    + destruct c' as [|u c']; simpl.
      * split; [assumption|]. intros c. rewrite Hin. split.
        -- intros (Hc & y & Hy & Hcy). split; [assumption|].
           exists y. rewrite elem_of_app. tauto.
        -- intros (Hc & y & Hy & Hcy). split; [assumption|].
           apply elem_of_app in Hy as [Hy| ->%list_elem_of_singleton];
             [now exists y|congruence].
      * split; [now apply setAdd_NoDup|]. intros c.
        rewrite setAdd_elem, Hin. split.
        -- intros [(Hc & y & Hy & Hcy)| ->].
           ++ split; [assumption|]. exists y. rewrite elem_of_app. tauto.
           ++ split; [discriminate|]. exists x. rewrite elem_of_app.
              split; [right; apply list_elem_of_singleton; reflexivity
                     |assumption].
        -- intros (Hc & y & Hy & Hcy).
           apply elem_of_app in Hy as [Hy| ->%list_elem_of_singleton];
             [left; split; [assumption|now exists y]|right; congruence].
    + split; [assumption|]. intros c. rewrite Hin. split.
      * intros (Hc & y & Hy & Hcy). split; [assumption|].
        exists y. rewrite elem_of_app. tauto.
      * intros (Hc & y & Hy & Hcy). split; [assumption|].
        apply elem_of_app in Hy as [Hy| ->%list_elem_of_singleton];
          [now exists y|congruence].
Qed.

End CategoryFacts.

(** ** What [findDocuments] finds *)

Section FoundFacts.

Context `{NodeLib}.

Lemma found_Dir currentPath readable entries p :
  found currentPath (Dir readable entries) p
  <-> exists name entry,
        Entry name entry ∈ entries /\ foundAt currentPath name entry p.
Proof.
  split.
  - inversion 1; subst. eauto.
  - intros (name & entry & Hin & Hat). econstructor; eassumption.
Qed.

Lemma supported_elem ext :
  includes supportedExtensions ext = true
  <-> ext ∈ [lit ".docx"; lit ".doc"; lit ".pdf"; lit ".txt"; lit ".md"].
Proof. apply includes_elem. Qed.

Lemma startsWith_dot name :
  startsWith name (lit ".") = false <-> take 1 name <> lit ".".
Proof.
  unfold startsWith. change (length (lit ".")) with 1%nat.
  rewrite bool_decide_eq_false. reflexivity.
Qed.

(** A scan that comes to its end has added the paths found, and only
    those. *)
Lemma scanDir_found :
  forall node currentPath documents documents',
    scanDir currentPath node documents = Ok documents' ->
    exists new,
      documents' = documents ++ new /\
      forall p, p ∈ new <-> found currentPath node p.
Proof.
  fix IH 1. intros node. destruct node as [bytes|readable entries|];
    intros currentPath documents documents' Hscan; try discriminate.
  destruct readable; [|discriminate].
  simpl in Hscan.
  enough (exists new,
             documents' = documents ++ new /\
             forall p, p ∈ new
                       <-> exists name entry,
                             Entry name entry ∈ entries /\
                             foundAt currentPath name entry p)
    as (new & Hnew & Hin).
  { exists new. split; [exact Hnew|]. intros p. now rewrite found_Dir. }
  revert documents Hscan.
  induction entries as [|a rest IHrest]; intros documents Hscan.
  { injection Hscan as <-. exists []. split; [now rewrite app_nil_r|].
    intros p. split; [now intros ?%elem_of_nil|].
    now intros (? & ? & ?%elem_of_nil & _). }
  destruct a as [name entry].
  pose proof (fun p d d' => IH entry p d d') as Hentry.
  assert (forall mid new1 new2,
             mid = documents ++ new1 ->
             (forall p, p ∈ new1 <-> foundAt currentPath name entry p) ->
             documents' = mid ++ new2 ->
             (forall p, p ∈ new2
                        <-> exists name' entry',
                              Entry name' entry' ∈ rest /\
                              foundAt currentPath name' entry' p) ->
             exists new,
               documents' = documents ++ new /\
               forall p, p ∈ new
                         <-> exists name' entry',
                               Entry name' entry' ∈ Entry name entry :: rest /\
                               foundAt currentPath name' entry' p) as Hjoin.
  { intros mid new1 new2 -> H1 -> H2. exists (new1 ++ new2).
    split; [now rewrite app_assoc|]. intros p.
    rewrite elem_of_app, H1, H2. split.
    - intros [Hat|(name' & entry' & Hin & Hat)].
      + exists name, entry. split; [left|assumption].
      + exists name', entry'. split; [now right|assumption].
    - intros (name' & entry' & Hin & Hat).
      apply elem_of_cons in Hin as [[= -> ->]|Hin]; [now left|].
      right. now exists name', entry'. }
  destruct entry as [bytes|readable entries|]; simpl in Hscan.
  - match type of Hscan with
    | (if ?b then _ else _) = _ => destruct b eqn:Hext
    end;
      [change (includes supportedExtensions (toLowerCase (path_extname name))
               = true) in Hext
      |change (includes supportedExtensions (toLowerCase (path_extname name))
               = false) in Hext].
    + destruct (IHrest _ Hscan) as (new2 & Hnew2 & Hin2).
      apply (Hjoin (documents ++ [path_join currentPath name])
               [path_join currentPath name] new2);
        [reflexivity| |assumption|assumption].
      intros p. rewrite list_elem_of_singleton. split.
      * intros ->. constructor. now apply supported_elem.
      * inversion 1; subst. reflexivity.
    + destruct (IHrest _ Hscan) as (new2 & Hnew2 & Hin2).
      apply (Hjoin documents [] new2);
        [now rewrite app_nil_r| |assumption|assumption].
      intros p. split; [now intros ?%elem_of_nil|].
      inversion 1; subst.
      match goal with Hs : _ ∈ _ |- _ => apply supported_elem in Hs end.
      congruence.
  - destruct (startsWith name (lit ".")) eqn:Hdot.
    + destruct (IHrest _ Hscan) as (new2 & Hnew2 & Hin2).
      apply (Hjoin documents [] new2);
        [now rewrite app_nil_r| |assumption|assumption].
      intros p. split; [now intros ?%elem_of_nil|].
      inversion 1; subst.
      match goal with Hs : take 1 _ <> _ |- _ =>
        apply startsWith_dot in Hs end.
      congruence.
    + match type of Hscan with
      | match ?sub with _ => _ end = _ =>
          destruct sub as [mid| | |] eqn:Hsub; try discriminate
      end.
      destruct (Hentry (path_join currentPath name) documents mid Hsub)
        as (new1 & Hnew1 & Hin1).
      destruct (IHrest _ Hscan) as (new2 & Hnew2 & Hin2).
      apply (Hjoin mid new1 new2); [assumption| |assumption|assumption].
      intros p. rewrite Hin1. split.
      * intros Hfound. constructor; [now apply startsWith_dot|assumption].
      * inversion 1; subst. assumption.
  - destruct (IHrest _ Hscan) as (new2 & Hnew2 & Hin2).
    apply (Hjoin documents [] new2);
      [now rewrite app_nil_r| |assumption|assumption].
    intros p. split; [now intros ?%elem_of_nil|]. inversion 1.
Qed.

End FoundFacts.

(** X9: a scan by [findDocuments] that comes to its end returns the paths
    of the regular files with a supported extension that lie below the
    root outside directories whose names start with a dot, and no other
    path. *)
Theorem findDocuments_exact `{NodeLib} dirPath w node documents :
  files w dirPath = Some node ->
  (findDocuments dirPath w).1 = Ok documents ->
  forall p, p ∈ documents <-> found dirPath node p.
Proof.
  intros Hnode. unfold findDocuments, existsSync. rewrite Hnode. simpl.
  intros Hscan.
  destruct (scanDir_found node dirPath [] documents Hscan)
    as (new & -> & Hin).
  exact Hin.
Qed.

Lemma findDocuments_exact_witness :
  lit "/kb/faq/returns.txt" ∈ [lit "/kb/faq/returns.txt"]
  <-> @found sampleLib (lit "/kb")
        (Dir true
           [Entry (lit "faq")
              (Dir true
                 [Entry (lit "returns.txt")
                    (File (lit "aaaa bbbb. cccc dddd eeee"))])])
        (lit "/kb/faq/returns.txt").
Proof.
  apply (@findDocuments_exact sampleLib (lit "/kb") returnsWorld);
    vm_compute; reflexivity.
Defined.

(** ** [getDocumentStats] *)

Section MapFacts.

Context {V : Type}.

Implicit Types (m : list (str * V)) (k : str) (v : V).

Lemma mapGet_None m k : mapGet m k = None <-> k ∉ m.*1.
Proof.
  induction m as [|[k' v'] m IH]; simpl.
  - split; [intros _; apply not_elem_of_nil|reflexivity].
  - rewrite not_elem_of_cons. case_bool_decide as Hk.
    + split; [discriminate|]. intros [Hne _]. destruct (Hne (eq_sym Hk)).
    + rewrite IH. split; [intros ?; split; [exact (fun e => Hk (eq_sym e))|assumption]|now intros [_ ?]].
Qed.

Lemma mapGet_Some m k v : mapGet m k = Some v -> (k, v) ∈ m.
Proof.
  induction m as [|[k' v'] m IH]; simpl; [discriminate|].
  case_bool_decide as Hk.
  - intros [= <-]. subst k'. left.
  - intros Hm. right. now apply IH.
Qed.

Lemma mapSet_absent m k v : k ∉ m.*1 -> mapSet m k v = m ++ [(k, v)].
Proof.
  induction m as [|[k' v'] m IH]; simpl; [reflexivity|].
  rewrite not_elem_of_cons. intros [Hne Hm].
  case_bool_decide; [congruence|]. now rewrite IH.
Qed.

Lemma mapSet_keys m k v : k ∈ m.*1 -> (mapSet m k v).*1 = m.*1.
Proof.
  induction m as [|[k' v'] m IH]; cbn [mapSet]; [now intros ?%elem_of_nil|].
  rewrite fmap_cons. case_bool_decide as Hk; [reflexivity|].
  intros [Hk'|Hm]%elem_of_cons; [destruct (Hk (eq_sym Hk'))|].
  rewrite !fmap_cons. now rewrite IH.
Qed.

Lemma mapSet_Forall (Q : str * V -> Prop) m k v :
  NoDup m.*1 ->
  (forall kv, kv ∈ m -> kv.1 <> k -> Q kv) -> Q (k, v) ->
  Forall Q (mapSet m k v).
Proof.
  induction m as [|[k' v'] m IH]; simpl; intros Hnd Hold Hnew.
  - now constructor.
  - apply NoDup_cons in Hnd as [Hk' Hnd]. case_bool_decide as Hk.
    + subst k'. constructor; [assumption|].
      apply Forall_forall. intros kv Hin. apply Hold; [now right|].
      intros Heq. apply Hk'. rewrite <- Heq.
      apply list_elem_of_fmap. now exists kv.
    + constructor; [apply Hold; [left|assumption]|].
      apply IH; [assumption| |assumption].
      intros kv Hin. apply Hold. now right.
Qed.

End MapFacts.

Section StatsFacts.

Implicit Types (chunks done : list DocumentChunk) (c : DocumentChunk).

Lemma chunksOfDocument_snoc d done c :
  chunksOfDocument d (done ++ [c])
  = chunksOfDocument d done
      ++ (if bool_decide (documentId (metadata c) = d) then [c] else []).
Proof. unfold chunksOfDocument. now rewrite List.filter_app. Qed.

Lemma chunksOfDocument_nil d done :
  d ∉ List.map (fun c => documentId (metadata c)) done ->
  chunksOfDocument d done = [].
Proof.
  induction done as [|c done IH]; [reflexivity|]. simpl.
  rewrite not_elem_of_cons. intros [Hne Hd].
  case_bool_decide; [congruence|]. now apply IH.
Qed.

Lemma foldl_countChunk_snoc acc done c :
  foldl countChunk acc (done ++ [c]) = countChunk (foldl countChunk acc done) c.
Proof. now rewrite foldl_app. Qed.

(** What the [docMap] of [getDocumentStats] holds after the chunks
    [done]. *)
Lemma docMap_invariant done :
  let docMap := (foldl countChunk ([], []) done).1 in
  NoDup docMap.*1 /\
  (forall d, d ∈ docMap.*1
             <-> d ∈ List.map (fun c => documentId (metadata c)) done) /\
  Forall (fun kv => statFor done kv.1 kv.2) docMap.
Proof.
  induction done as [|c done IH] using rev_ind.
  - simpl. split; [constructor|]. split; [reflexivity|constructor].
  - cbv zeta in *. rewrite foldl_countChunk_snoc.
    destruct (foldl countChunk ([], []) done) as [docMap categories].
    simpl in IH. destruct IH as (Hnd & Hkeys & Hall).
    unfold countChunk. cbn [fst].
    set (d := documentId (metadata c)).
    assert (forall kv, kv ∈ docMap -> kv.1 <> d ->
                       statFor (done ++ [c]) kv.1 kv.2) as Hothers.
    { intros kv Hin Hne.
      destruct (proj1 (Forall_forall _ _) Hall kv Hin)
        as (first & rest & Hof & Hn & Hc & Hcat).
      exists first, rest. rewrite chunksOfDocument_snoc.
      fold d. case_bool_decide; [congruence|]. now rewrite app_nil_r. }
    destruct (mapGet docMap d) as [existing|] eqn:Hget.
    + apply mapGet_Some in Hget.
      assert (d ∈ docMap.*1) as Hd
          by (apply list_elem_of_fmap; now exists (d, existing)).
      rewrite mapSet_keys by assumption. split; [assumption|]. split.
      * intros d'. rewrite Hkeys, map_app, elem_of_app. simpl.
        rewrite list_elem_of_singleton. fold d.
        split; [now left|]. intros [?| ->]; [assumption|now apply Hkeys].
      * apply mapSet_Forall; [assumption|assumption|].
        destruct (proj1 (Forall_forall _ _) Hall _ Hget)
          as (first & rest & Hof & Hn & Hc & Hcat).
        simpl in *. exists first, (rest ++ [c]).
        rewrite chunksOfDocument_snoc, Hof. fold d.
        rewrite bool_decide_eq_true_2 by reflexivity. simpl.
        split; [reflexivity|]. split; [assumption|]. split; [|assumption].
        rewrite Hc. unfold len. rewrite length_app. simpl. lia.
    + apply mapGet_None in Hget. rewrite mapSet_absent by assumption.
      split; [|split].
      * rewrite fmap_app. apply NoDup_app. split; [assumption|].
        split; [|apply NoDup_singleton].
        intros d' Hd' ->%list_elem_of_singleton. contradiction.
      * intros d'. rewrite fmap_app, map_app, !elem_of_app, Hkeys. simpl.
        rewrite !list_elem_of_singleton. reflexivity.
      * apply Forall_app. split.
        -- apply Forall_forall. intros kv Hin. apply Hothers; [assumption|].
           intros Heq. apply Hget. rewrite <- Heq.
           apply list_elem_of_fmap. now exists kv.
        -- constructor; [|constructor]. exists c, []. simpl.
           rewrite chunksOfDocument_snoc. fold d.
           rewrite bool_decide_eq_true_2 by reflexivity.
           rewrite chunksOfDocument_nil
             by (intros Hin; apply Hget; now apply Hkeys).
           repeat split; reflexivity.
Qed.

End StatsFacts.

(** X10: [getDocumentStats] has one entry for each document identifier
    among the chunks; the entry carries the name and the category of the
    first chunk of that document and the number of its chunks, and
    [totalDocuments] is the number of entries. *)
Theorem getDocumentStats_counts chunks :
  exists ids,
    NoDup ids /\
    (forall d, d ∈ ids <-> exists c, c ∈ chunks /\ documentId (metadata c) = d) /\
    Forall2 (statFor chunks) ids (stats_documents (getDocumentStats chunks)) /\
    stats_totalDocuments (getDocumentStats chunks) = len ids /\
    stats_totalChunks (getDocumentStats chunks) = len chunks.
Proof.
  destruct (docMap_invariant chunks) as (Hnd & Hkeys & Hall).
  unfold getDocumentStats.
  destruct (foldl countChunk ([], []) chunks) as [docMap categories].
  simpl in *. exists docMap.*1. split; [assumption|]. split; [|split; [|split]].
  - intros d. rewrite Hkeys, list_elem_of_In, in_map_iff.
    split; intros (c & Hc & Hd); exists c;
      rewrite ?list_elem_of_In in *; tauto.
  - clear -Hall. induction Hall as [|[k v] m Hkv _ IH]; simpl;
      constructor; assumption.
  - unfold len. now rewrite length_fmap.
  - reflexivity.
Qed.

Lemma countChunk_categories acc chunks :
  (foldl countChunk acc chunks).2
  = foldl (fun (categories : list str) (chunk : DocumentChunk) =>
             match category (metadata chunk) with
             | Some c => if truthy c then setAdd categories c else categories
             | None => categories
             end) acc.2 chunks.
Proof.
  revert acc. induction chunks as [|c chunks IH]; intros [docMap categories];
    [reflexivity|].
  simpl. now rewrite IH.
Qed.

(** X11: the categories of [getDocumentStats] are the non-empty categories
    of the chunks, each once, in the ascending order of their code
    units. *)
Theorem getDocumentStats_categories chunks :
  Sorted codeUnitLess (stats_categories (getDocumentStats chunks)) /\
  forall c, c ∈ stats_categories (getDocumentStats chunks)
            <-> c <> [] /\
                exists chunk, chunk ∈ chunks /\
                              category (metadata chunk) = Some c.
Proof.
  pose proof (countChunk_categories ([], []) chunks) as Hcats.
  unfold getDocumentStats.
  destruct (foldl countChunk ([], []) chunks) as [docMap categories].
  simpl in *. subst categories.
  destruct (gather_invariant (fun chunk => category (metadata chunk)) chunks)
    as [Hnd Hin].
  split; [now apply sort_strict|].
  intros c. now rewrite (sort_Permutation compareStr _), Hin.
Qed.

(** ** The requests of [createEmbeddings] *)

Section RequestFacts.

Lemma slice_take_drop {A} (a : list A) (i n : Z) :
  0 <= i -> 0 <= n ->
  slice a i (i + n) = take (Z.to_nat n) (drop (Z.to_nat i) a).
Proof.
  intros Hi Hn. unfold slice, relIndex, len.
  destruct (Z.ltb_spec i 0); [lia|]. destruct (Z.ltb_spec (i + n) 0); [lia|].
  destruct (Z_lt_le_dec (Z.of_nat (length a)) i).
  - rewrite !Z.min_r by lia. rewrite Z.sub_diag. simpl.
    rewrite (drop_ge a (Z.to_nat i)) by lia. now rewrite take_nil.
  - rewrite (Z.min_l i) by lia.
    destruct (Z_lt_le_dec (Z.of_nat (length a)) (i + n)).
    + rewrite Z.min_r by lia.
      rewrite !take_ge by (rewrite length_drop; lia). reflexivity.
    + rewrite Z.min_l by lia. f_equal. lia.
Qed.

(** What a run of the loop of [createEmbeddings] from batch [k] on sends,
    and how it ends. *)
Lemma embedBatches_trace fuel texts (k : nat) allEmbeddings w :
  (length texts < 100 * k + fuel)%nat -> (0 < fuel)%nat ->
  exists sent,
    requests (embedBatches fuel texts (100 * Z.of_nat k) allEmbeddings w).2
    = requests w ++ sent /\
    (forall j batch,
        sent !! j = Some batch ->
        (100 * (k + j) < length texts)%nat /\
        batch = take 100 (drop (100 * (k + j)) texts)) /\
    match (embedBatches fuel texts (100 * Z.of_nat k) allEmbeddings w).1 with
    | Ok _ => (length texts <= 100 * (k + length sent))%nat
    | Throw message =>
        exists sent' batch,
          sent = sent' ++ [batch] /\
          match endpoint w (length (requests w ++ sent')) batch with
          | Some response =>
              ok response = false /\
              message = lit "Embedding API error: " ++ showZ (status response)
                          ++ lit " - " ++ text response
          | None => True
          end
    | Exit _ | OutOfFuel => False
    end.
Proof.
  revert k allEmbeddings w.
  induction fuel as [|fuel IH]; intros k allEmbeddings w Hfuel Hpos; [lia|].
  cbn [embedBatches].
  destruct (Z.ltb_spec (100 * Z.of_nat k) (len texts)) as [Hin|Hout].
  - assert (slice texts (100 * Z.of_nat k) (100 * Z.of_nat k + batchSize)
            = take 100 (drop (100 * k) texts)) as ->.
    { rewrite slice_take_drop by (unfold batchSize; lia).
      f_equal. f_equal. lia. }
    set (batch := take 100 (drop (100 * k) texts)).
    assert (forall j b, [batch] !! j = Some b ->
              (100 * (k + j) < length texts)%nat /\
              b = take 100 (drop (100 * (k + j)) texts)) as Hone.
    { intros [|j] b; [|now destruct j]. intros [= <-].
      rewrite Nat.add_0_r. unfold len in Hin. split; [lia|reflexivity]. }
    unfold bind, fetchEmbeddings.
    destruct (endpoint w (length (requests w)) batch) as [response|] eqn:Hans.
    + destruct (ok response) eqn:Hok.
      * replace (100 * Z.of_nat k + batchSize) with (100 * Z.of_nat (S k))
          by (unfold batchSize; lia).
        unfold len in Hin.
        destruct (IH (S k) (allEmbeddings ++ List.map embedding
                     (sort (fun a b => index a - index b) (data response)))
                    (withRequest w batch))
          as (sent & Hreq & Hsent & Hend); [lia|lia|].
        exists (batch :: sent). rewrite Hreq. cbn [withRequest requests].
        split; [now rewrite <- app_assoc|]. split.
        -- intros [|j] b.
           ++ intros [= <-]. apply (Hone O). reflexivity.
           ++ intros Hj. replace (k + S j)%nat with (S k + j)%nat by lia.
              now apply Hsent.
        -- destruct (embedBatches fuel texts _ _ _).1 as [r|message|c|];
             [cbn [length]; lia| |assumption..].
           destruct Hend as (sent' & b & -> & Hlast).
           exists (batch :: sent'), b. split; [reflexivity|].
           cbn [withRequest requests endpoint] in Hlast.
           now rewrite <- app_assoc in Hlast.
      * exists [batch]. split; [reflexivity|]. split; [exact Hone|].
        exists [], batch. split; [reflexivity|].
        rewrite app_nil_r, Hans. split; [assumption|reflexivity].
    + exists [batch]. split; [reflexivity|]. split; [exact Hone|].
      exists [], batch. split; [reflexivity|]. now rewrite app_nil_r, Hans.
  - exists []. split; [simpl; now rewrite app_nil_r|].
    split; [intros j b; now rewrite lookup_nil|].
    simpl. unfold len in Hout. lia.
Qed.

End RequestFacts.

(** X12: the [j]-th request of [createEmbeddings] carries the texts
    [100 j] to [100 j + 99], whatever the endpoint answers; a run that
    returns has sent all the texts. *)
Theorem createEmbeddings_batches texts w :
  exists sent,
    requests (createEmbeddings texts w).2 = requests w ++ sent /\
    (forall j batch,
        sent !! j = Some batch ->
        (100 * j < length texts)%nat /\
        batch = take 100 (drop (100 * j) texts)) /\
    (forall embeddings,
        (createEmbeddings texts w).1 = Ok embeddings ->
        (length texts <= 100 * length sent)%nat).
Proof.
  unfold createEmbeddings. destruct (Z.eqb_spec (len texts) 0) as [Hz|Hnz].
  - exists []. split; [simpl; now rewrite app_nil_r|].
    split; [intros j b; now rewrite lookup_nil|].
    intros _ _. unfold len in Hz. lia.
  - destruct (embedBatches_trace (S (length texts)) texts 0 [] w)
      as (sent & Hreq & Hsent & Hend); [lia|lia|].
    change (100 * Z.of_nat 0) with 0 in *.
    exists sent. split; [assumption|]. split; [exact Hsent|].
    intros embeddings Hok. now rewrite Hok in Hend.
Qed.



(** ** The collection's life cycle *)

(** X14: on a store that can be reached, [deleteCollection] followed by
    [createCollection] leaves the collection as [createCollection] sets it
    up, without points, whatever it held before, and the other
    collections as they were. *)
Theorem reset_recreates CONFIG w :
  online (qdrant w) = true ->
  (deleteCollection CONFIG ;; createCollection CONFIG) w
  = (Ok tt,
     withQdrant w
       {| online := true;
          collections :=
            <[knowledge_collectionName CONFIG := freshCollection CONFIG]>
              (collections (qdrant w)) |}).
Proof.
  intros Hon. unfold bind at 1. unfold deleteCollection, bind at 1.
  rewrite collectionExists_eq, Hon. cbn [andb].
  case_bool_decide as Hc.
  - unfold deleteCollectionRpc, rpc. rewrite Hon.
    rewrite createCollection_absent;
      [|simpl; exact Hon|simpl; apply lookup_delete_eq].
    simpl. unfold withCollections, withQdrant. simpl.
    now rewrite Hon, insert_delete_eq.
  - unfold ret. rewrite createCollection_absent; [|exact Hon|].
    + unfold withCollections. now rewrite Hon.
    + destruct (collections (qdrant w) !! _) eqn:E; [|reflexivity].
      destruct Hc. eauto.
Qed.

Lemma reset_recreates_witness :
  (deleteCollection sampleConfig ;; createCollection sampleConfig) shuffledWorld
  = (Ok tt,
     withQdrant shuffledWorld
       {| online := true;
          collections :=
            <[knowledge_collectionName sampleConfig
              := freshCollection sampleConfig]>
              (collections (qdrant shuffledWorld)) |}).
Proof. apply (reset_recreates sampleConfig shuffledWorld). reflexivity. Defined.

(** X15: a store that cannot be reached is taken for one without the
    collection: [collectionExists] answers [false], [deleteCollection]
    returns, [getStats] reports [not_created], [listDocuments] and
    [listCategories] return nothing, all of them without raising, while
    [createCollection] and [getDocumentChunks] raise. *)
Theorem unreachable_store_as_absent CONFIG fuel w :
  online (qdrant w) = false ->
  collectionExists CONFIG w = (Ok false, w) /\
  deleteCollection CONFIG w = (Ok tt, w) /\
  getStats CONFIG w
  = (Ok {| totalPoints := 0; stats_status := lit "not_created" |}, w) /\
  listDocuments CONFIG fuel w = (Ok [], w) /\
  listCategories CONFIG fuel w = (Ok [], w) /\
  (exists message, createCollection CONFIG w = (Throw message, w)) /\
  (forall documentId', exists message,
      getDocumentChunks CONFIG documentId' w = (Throw message, w)).
Proof.
  intros Hoff. pose proof (collectionExists_offline CONFIG w Hoff) as Hex.
  assert (listDocuments CONFIG fuel w = (Ok [], w)) as Hlist
      by (unfold listDocuments, bind; now rewrite Hex).
  split; [exact Hex|]. split; [|split; [|split; [exact Hlist|split; [|split]]]].
  - unfold deleteCollection, bind. now rewrite Hex.
  - unfold getStats, bind. now rewrite Hex.
  - unfold listCategories, bind. now rewrite Hlist.
  - eexists. now apply createCollection_offline.
  - intros documentId'. exists (lit "fetch failed").
    unfold getDocumentChunks, bind, scroll, rpc. now rewrite Hoff.
Qed.

Lemma unreachable_store_as_absent_witness :
  collectionExists sampleConfig offlineWorld = (Ok false, offlineWorld) /\
  deleteCollection sampleConfig offlineWorld = (Ok tt, offlineWorld) /\
  getStats sampleConfig offlineWorld
  = (Ok {| totalPoints := 0; stats_status := lit "not_created" |},
     offlineWorld) /\
  listDocuments sampleConfig 3 offlineWorld = (Ok [], offlineWorld) /\
  listCategories sampleConfig 3 offlineWorld = (Ok [], offlineWorld) /\
  (exists message,
      createCollection sampleConfig offlineWorld
      = (Throw message, offlineWorld)) /\
  (forall documentId', exists message,
      getDocumentChunks sampleConfig documentId' offlineWorld
      = (Throw message, offlineWorld)).
Proof.
  apply (unreachable_store_as_absent sampleConfig 3 offlineWorld).
  reflexivity.
Defined.

(** ** [indexChunks] *)

Section IndexFacts.

Variable CONFIG : Config.

#[local] Abbreviation NAME := (knowledge_collectionName CONFIG).

(** [createEmbeddings] touches nothing but the log of requests. *)
Lemma embedBatches_frame fuel texts i allEmbeddings w :
  let w' := (embedBatches fuel texts i allEmbeddings w).2 in
  qdrant w' = qdrant w /\ uuids w' = uuids w /\ minted w' = minted w /\
  files w' = files w /\ endpoint w' = endpoint w.
Proof.
  revert i allEmbeddings w.
  induction fuel as [|fuel IH]; intros i allEmbeddings w; [now simpl|].
  cbn [embedBatches]. destruct (i <? len texts); [|now simpl].
  unfold bind, fetchEmbeddings.
  destruct (endpoint w _ _) as [response|]; [|now simpl].
  destruct (ok response); [|now simpl].
  destruct (IH (i + batchSize)
              (allEmbeddings ++ List.map embedding
                 (sort (fun a b => index a - index b) (data response)))
              (withRequest w (slice texts i (i + batchSize))))
    as (? & ? & ? & ? & ?).
  now simpl in *.
Qed.

Lemma createEmbeddings_frame texts w :
  let w' := (createEmbeddings texts w).2 in
  qdrant w' = qdrant w /\ uuids w' = uuids w /\ minted w' = minted w /\
  files w' = files w /\ endpoint w' = endpoint w.
Proof.
  unfold createEmbeddings. destruct (len texts =? 0); [now simpl|].
  apply embedBatches_frame.
Qed.

Lemma createEmbeddings_shuffled E texts w :
  shuffling E (endpoint w) ->
  (createEmbeddings texts w).1 = Ok (List.map E texts).
Proof.
  intros Hsh. unfold createEmbeddings.
  destruct (Z.eqb_spec (len texts) 0) as [Hz|Hnz].
  - destruct texts; [reflexivity|discriminate].
  - destruct (embedBatches_shuffled E (S (length texts)) texts 0 [] w Hsh)
      as (w' & -> & _); [lia|unfold len; lia|reflexivity].
Qed.

Lemma preparePoints_spec chunks embeddings i w :
  exists points,
    preparePoints chunks embeddings i w
    = (Ok points, withMinted w (minted w + length chunks)) /\
    List.map point_id points
    = List.map (uuids w) (seq (minted w) (length chunks)) /\
    length points = length chunks /\
    forall j chunk p,
      chunks !! j = Some chunk -> points !! j = Some p ->
      stores (default [] (embeddings !! (i + j)%nat)) chunk p.
Proof.
  revert i w. induction chunks as [|chunk chunks IH]; intros i w.
  - exists []. split; [|split; [reflexivity|split; [reflexivity|]]].
    + unfold ret. simpl. f_equal. destruct w. unfold withMinted. simpl.
      f_equal. lia.
    + intros j chunk p. now rewrite lookup_nil.
  - cbn [preparePoints]. unfold bind at 1. unfold uuidv4.
    destruct (IH (S i) (withMinted w (S (minted w))))
      as (points & Hrun & Hids & Hlen & Hall).
    unfold bind at 1. rewrite Hrun. unfold ret. eexists.
    split; [|split; [|split]].
    + f_equal. unfold withMinted. simpl. f_equal. lia.
    + simpl. f_equal. exact Hids.
    + simpl. now rewrite Hlen.
    + intros [|j] c p.
      * intros [= <-] [= <-]. rewrite Nat.add_0_r.
        unfold stores, emptyAsNull, orNull, truthyOpt, truthy. simpl.
        repeat split; try reflexivity.
        -- now destruct (category (metadata chunk)) as [[|]|].
        -- now destruct (title (metadata chunk)) as [[|]|].
      * simpl. intros Hc Hp. rewrite Nat.add_succ_r. now apply Hall.
Qed.

Lemma upsertPoint_fresh ps p :
  point_id p ∉ List.map point_id ps -> upsertPoint ps p = ps ++ [p].
Proof.
  induction ps as [|q ps IH]; [reflexivity|]. simpl.
  rewrite not_elem_of_cons. intros [Hne Hps].
  case_bool_decide as Hq; [now destruct Hne|]. now rewrite IH.
Qed.

Lemma foldl_upsertPoint_fresh ps new :
  NoDup (List.map point_id new) ->
  (forall p, p ∈ new -> point_id p ∉ List.map point_id ps) ->
  foldl upsertPoint ps new = ps ++ new.
Proof.
  revert ps. induction new as [|p new IH]; intros ps Hnd Hfresh;
    [now rewrite app_nil_r|].
  cbn [List.map] in Hnd. apply NoDup_cons in Hnd as [Hp Hnd]. simpl.
  rewrite upsertPoint_fresh by (apply Hfresh; left).
  rewrite IH; [now rewrite <- app_assoc|assumption|].
  intros q Hq. rewrite map_app, elem_of_app. intros [Hin|Hin].
  - apply (Hfresh q); [now right|assumption].
  - simpl in Hin. apply list_elem_of_singleton in Hin. apply Hp.
    rewrite <- Hin. apply list_elem_of_In, in_map, list_elem_of_In, Hq.
Qed.

Lemma withPoints_same c : withPoints c (points c) = c.
Proof. now destruct c. Qed.

(** The batches of the loop of [indexChunks] from batch [k] on amount to
    upserting the points from [100 k] on one by one. *)
Lemma upsertBatches_spec fuel points' (k : nat) w c :
  online (qdrant w) = true -> collections (qdrant w) !! NAME = Some c ->
  (length points' < 100 * k + fuel)%nat -> (0 < fuel)%nat ->
  exists s,
    upsertBatches CONFIG fuel points' (100 * Z.of_nat k) w
    = (Ok tt, withQdrant w s) /\
    online s = true /\
    collections s
    = <[NAME := withPoints c (foldl upsertPoint (points c)
                                (drop (100 * k) points'))]>
        (collections (qdrant w)).
Proof.
  revert k w c.
  induction fuel as [|fuel IH]; intros k w c Hon Hc Hfuel Hpos; [lia|].
  cbn [upsertBatches].
  destruct (Z.ltb_spec (100 * Z.of_nat k) (len points')) as [Hin|Hout].
  - unfold bind at 1. unfold upsert, rpc. rewrite Hon, Hc.
    replace (100 * Z.of_nat k + batchSize) with (100 * Z.of_nat (S k))
      by (unfold batchSize; lia).
    set (batch := slice points' (100 * Z.of_nat k) (100 * Z.of_nat (S k))).
    set (c1 := withPoints c (foldl upsertPoint (points c) batch)).
    unfold len in Hin.
    destruct (IH (S k)
                (withQdrant w (withCollections (qdrant w)
                   (<[NAME := c1]> (collections (qdrant w))))) c1)
      as (s & Hrun & Hons & Hcs);
      [exact Hon|simpl; apply lookup_insert_eq|lia|lia|].
    exists s. split; [rewrite Hrun; reflexivity|]. split; [exact Hons|].
    rewrite Hcs. cbn -[Nat.mul Z.mul slice]. rewrite insert_insert_eq. f_equal.
    subst c1. unfold withPoints at 1 2. cbn -[Nat.mul Z.mul slice]. f_equal.
    rewrite <- foldl_app. f_equal. subst batch.
    replace (100 * Z.of_nat (S k)) with (100 * Z.of_nat k + 100) by lia.
    replace (drop (100 * k) points')
      with (drop (Z.to_nat (100 * Z.of_nat k)) points') by (f_equal; lia).
    replace (drop (100 * S k) points')
      with (drop (Z.to_nat (100 * Z.of_nat k + 100)) points')
      by (f_equal; lia).
    apply slice_drop; lia.
  - exists (qdrant w). rewrite withQdrant_same.
    split; [reflexivity|]. split; [exact Hon|].
    unfold len in Hout. rewrite drop_ge by lia. simpl.
    rewrite withPoints_same. symmetry. now apply insert_id.
Qed.

(** What [indexChunks] does to a reachable store that has the
    collection, with an endpoint that answers and fresh identifiers. *)
Lemma indexChunks_spec E chunks w c :
  online (qdrant w) = true -> collections (qdrant w) !! NAME = Some c ->
  shuffling E (endpoint w) -> freshUuids w (length chunks) c ->
  exists w' new,
    indexChunks CONFIG chunks w = (Ok tt, w') /\
    online (qdrant w') = true /\
    collections (qdrant w')
    = <[NAME := withPoints c (points c ++ new)]> (collections (qdrant w)) /\
    List.map point_id new
    = List.map (uuids w) (seq (minted w) (length chunks)) /\
    Forall2 (fun chunk p => stores (E (content chunk)) chunk p) chunks new.
Proof.
  intros Hon Hc Hsh [Hnd Hfresh]. unfold indexChunks.
  destruct (Z.eqb_spec (len chunks) 0) as [Hz|Hnz].
  - destruct chunks; [|discriminate]. exists w, [].
    split; [reflexivity|]. split; [exact Hon|].
    rewrite app_nil_r, withPoints_same.
    split; [symmetry; now apply insert_id|]. split; [reflexivity|constructor].
  - unfold bind at 1.
    pose proof (createEmbeddings_shuffled E (List.map content chunks) w Hsh)
      as Hemb.
    destruct (createEmbeddings_frame (List.map content chunks) w)
      as (Hq & Hu & Hm & _ & _).
    destruct (createEmbeddings (List.map content chunks) w) as [r w1].
    simpl in Hemb, Hq, Hu, Hm. subst r.
    destruct (preparePoints_spec chunks
                (List.map E (List.map content chunks)) O w1)
      as (new & Hprep & Hids & Hlen & Hall).
    unfold bind at 1. rewrite Hprep.
    destruct (upsertBatches_spec (S (length new)) new 0
                (withMinted w1 (minted w1 + length chunks)) c)
      as (s & Hrun & Hons & Hcs);
      [simpl; now rewrite Hq|simpl; now rewrite Hq|lia|lia|].
    change (100 * Z.of_nat 0) with 0 in Hrun. rewrite Hrun.
    rewrite Hu, Hm in Hids.
    eexists _, new. split; [reflexivity|]. split; [exact Hons|].
    split; [|split; [exact Hids|]].
    + simpl. rewrite Hcs. simpl. rewrite Hq. do 2 f_equal.
      rewrite drop_0. apply foldl_upsertPoint_fresh; [now rewrite Hids|].
      intros p Hp.
      assert (point_id p ∈ List.map point_id new) as Hin
          by (apply list_elem_of_In, in_map, list_elem_of_In, Hp).
      rewrite Hids in Hin.
      apply list_elem_of_In, in_map_iff in Hin as (n & <- & Hn).
      apply in_seq in Hn.
      replace n with (minted w + (n - minted w))%nat by lia.
      apply Hfresh. lia.
    + apply Forall2_same_length_lookup_2; [now symmetry|].
      intros j chunk p Hchunk Hp.
      pose proof (Hall j chunk p Hchunk Hp) as Hst. simpl in Hst.
      rewrite !list_lookup_fmap, Hchunk in Hst. exact Hst.
Qed.

End IndexFacts.

(** X16: against an endpoint that answers and with identifiers that are
    new to the collection, [indexChunks] adds one point for each chunk
    after the points that the collection holds, in the order of the
    chunks, each with the embedding of the content of its chunk, the
    fields of the chunk and the next identifier. *)
Theorem indexChunks_appends CONFIG E chunks w c :
  online (qdrant w) = true ->
  collections (qdrant w) !! knowledge_collectionName CONFIG = Some c ->
  shuffling E (endpoint w) -> freshUuids w (length chunks) c ->
  exists w' new,
    indexChunks CONFIG chunks w = (Ok tt, w') /\
    collections (qdrant w')
    = <[knowledge_collectionName CONFIG := withPoints c (points c ++ new)]>
        (collections (qdrant w)) /\
    List.map point_id new
    = List.map (uuids w) (seq (minted w) (length chunks)) /\
    Forall2 (fun chunk p => stores (E (content chunk)) chunk p) chunks new.
Proof.
  intros Hon Hc Hsh Hfresh.
  destruct (indexChunks_spec CONFIG E chunks w c Hon Hc Hsh Hfresh)
    as (w' & new & Hrun & _ & Hcs & Hids & Hall).
  now exists w', new.
Qed.

Lemma indexChunks_appends_witness :
  exists w' new,
    indexChunks sampleConfig [sampleChunk] (withMinted shuffledWorld 3) = (Ok tt, w') /\
    collections (qdrant w')
    = <[knowledge_collectionName sampleConfig
        := withPoints shuffledCollection (points shuffledCollection ++ new)]>
        (collections (qdrant (withMinted shuffledWorld 3))) /\
    List.map point_id new
    = List.map (uuids (withMinted shuffledWorld 3))
        (seq (minted (withMinted shuffledWorld 3)) (length [sampleChunk])) /\
    Forall2 (fun chunk p => stores (lengthEmbedding (content chunk)) chunk p)
      [sampleChunk] new.
Proof.
  apply (indexChunks_appends sampleConfig lengthEmbedding [sampleChunk]
           (withMinted shuffledWorld 3) shuffledCollection);
    [reflexivity|reflexivity|exact reversingEndpoint_shuffling|].
  split.
  - apply (bool_decide_unpack _). vm_compute. exact I.
  - intros i Hi. assert (i = O) as -> by (simpl in Hi; lia).
    apply (bool_decide_unpack _). vm_compute. exact I.
Defined.

(** X17: when the embeddings cannot be had, [indexChunks] raises with the
    message of [createEmbeddings], draws no identifier and leaves the
    store as it was. *)
Theorem indexChunks_embedding_failure CONFIG chunks w message :
  (createEmbeddings (List.map content chunks) w).1 = Throw message ->
  (indexChunks CONFIG chunks w).1 = Throw message /\
  qdrant (indexChunks CONFIG chunks w).2 = qdrant w /\
  minted (indexChunks CONFIG chunks w).2 = minted w.
Proof.
  intros Hfail. unfold indexChunks.
  destruct (Z.eqb_spec (len chunks) 0) as [Hz|Hnz].
  - destruct chunks; [discriminate|discriminate].
  - unfold bind at 1 3 5.
    destruct (createEmbeddings_frame (List.map content chunks) w)
      as (Hq & _ & Hm & _).
    destruct (createEmbeddings (List.map content chunks) w) as [r w1].
    simpl in Hfail, Hq, Hm. subst r. now simpl.
Qed.

Lemma indexChunks_embedding_failure_witness :
  (indexChunks sampleConfig [sampleChunk] brokenEndpointWorld).1
  = Throw (lit "Embedding API error: 500 - overloaded") /\
  qdrant (indexChunks sampleConfig [sampleChunk] brokenEndpointWorld).2
  = qdrant brokenEndpointWorld /\
  minted (indexChunks sampleConfig [sampleChunk] brokenEndpointWorld).2
  = minted brokenEndpointWorld.
Proof.
  apply (indexChunks_embedding_failure sampleConfig [sampleChunk]
           brokenEndpointWorld).
  vm_compute. reflexivity.
Defined.

(** ** From a file to [executeGetInstruction] *)

Section RoundTrip.

Lemma imap_increasing {A B} (key : B -> Z) (f : nat -> A -> B) (l : list A)
    (k : nat) :
  (forall j x, key (f j x) = Z.of_nat (k + j)) ->
  Forall (fun b => Z.of_nat k <= key b) (imap f l) /\
  StronglySorted (fun a b => key a < key b) (imap f l).
Proof.
  revert f k. induction l as [|x l IH]; intros f k Hkey;
    [split; constructor|].
  cbn [imap].
  destruct (IH (f ∘ S) (S k)) as [Hlow Hinc].
  { intros j y. unfold compose. rewrite Hkey. f_equal. lia. }
  pose proof (Hkey O x) as H0. rewrite Nat.add_0_r in H0. split.
  - constructor; [lia|]. eapply Forall_impl; [exact Hlow|]. simpl. lia.
  - constructor; [exact Hinc|].
    eapply Forall_impl; [exact Hlow|]. simpl. lia.
Qed.

Context `{NodeLib} (CONFIG : Config).

#[local] Abbreviation NAME := (knowledge_collectionName CONFIG).

Lemma parseDocument_world filePath w : (parseDocument filePath w).2 = w.
Proof.
  unfold parseDocument, parseWordDocument, parsePdfDocument, bind,
    readFileSync, decoded, ret, throw.
  repeat match goal with
         | |- context [if ?b then _ else _] => destruct b
         | |- context [match files w filePath with _ => _ end] =>
             destruct (files w filePath) as [[| |]|]
         | |- context [match ?r with inl _ => _ | inr _ => _ end] =>
             destruct r
         end; reflexivity.
Qed.

(** The chunks of one file are those of one document, numbered from 0. *)
Lemma parseAndChunkDocument_shape fuel filePath basePath w chunks w' :
  parseAndChunkDocument CONFIG fuel filePath basePath w = (Ok chunks, w') ->
  w' = w /\
  Forall (fun chunk => documentId (metadata chunk)
                       = generateDocumentId filePath) chunks /\
  StronglySorted (fun a b => chunkIndex (metadata a) < chunkIndex (metadata b))
    chunks.
Proof.
  unfold parseAndChunkDocument, bind.
  pose proof (parseDocument_world filePath w) as Hw.
  destruct (parseDocument filePath w) as [[text| | |] w1]; try discriminate.
  simpl in Hw. subst w1.
  destruct (splitIntoChunks fuel text _ _) as [textChunks|];
    [|discriminate].
  unfold ret. intros [= <- <-]. split; [reflexivity|]. split.
  - apply Forall_imap. now intros.
  - apply (imap_increasing (fun c => chunkIndex (metadata c)) _ textChunks O).
    reflexivity.
Qed.

Lemma index_then_get E chunks d w c :
  online (qdrant w) = true -> collections (qdrant w) !! NAME = Some c ->
  shuffling E (endpoint w) -> freshUuids w (length chunks) c ->
  Forall (fun chunk => documentId (metadata chunk) = d) chunks ->
  Forall (fun p => documentId (payload_meta (payload p)) <> d) (points c) ->
  StronglySorted (fun a b => chunkIndex (metadata a) < chunkIndex (metadata b))
    chunks ->
  (length chunks <= 1000)%nat ->
  exists w' results,
    indexChunks CONFIG chunks w = (Ok tt, w') /\
    getDocumentChunks CONFIG d w' = (Ok results, w') /\
    List.map result_content results = List.map content chunks.
Proof.
  intros Hon Hc Hsh Hfresh Hdoc Hother Hinc Hlen.
  destruct (indexChunks_spec CONFIG E chunks w c Hon Hc Hsh Hfresh)
    as (w' & new & Hrun & Hon' & Hcs & _ & Hall).
  assert (collections (qdrant w') !! NAME
          = Some (withPoints c (points c ++ new))) as Hc'
      by (rewrite Hcs; apply lookup_insert_eq).
  pose proof (getDocumentChunks_page CONFIG w' d _ Hon' Hc') as Hget.
  assert (documentPage d (withPoints c (points c ++ new)) = new) as Hpage.
  { unfold documentPage. cbn [points withPoints]. rewrite List.filter_app.
    assert (List.filter
              (fun p => bool_decide (documentId (payload_meta (payload p)) = d))
              (points c) = []) as ->.
    { clear -Hother. induction Hother as [|p ps Hp _ IH]; [reflexivity|].
      simpl. now rewrite bool_decide_eq_false_2. }
    assert (List.filter
              (fun p => bool_decide (documentId (payload_meta (payload p)) = d))
              new = new) as ->.
    { clear -Hall Hdoc. induction Hall as [|chunk p chunks new Hst _ IH];
        [reflexivity|].
      apply Forall_cons in Hdoc as [Hd Hdoc]. simpl.
      destruct Hst as (_ & _ & _ & Hid & _).
      rewrite bool_decide_eq_true_2 by congruence. now rewrite IH. }
    simpl. apply take_ge. apply Forall2_length in Hall. lia. }
  rewrite Hpage in Hget.
  assert (sort byChunkIndex (List.map resultOf new) = List.map resultOf new)
    as Hsort.
  { apply (sort_permuted (fun r => chunkIndex (result_meta r)));
      [|reflexivity].
    clear -Hall Hinc. revert new Hall.
    induction Hinc as [|chunk chunks _ IH Hlow]; intros new Hall.
    - apply Forall2_nil_inv_l in Hall as ->. constructor.
    - apply Forall2_cons_inv_l in Hall as (p & new' & Hst & Hall & ->).
      simpl. constructor; [now apply IH|].
      destruct Hst as (_ & _ & _ & _ & _ & _ & Hidx & _).
      clear IH. induction Hall as [|chunk' p' chunks' new'' Hst' _ IH'];
        [constructor|].
      apply Forall_cons in Hlow as [Hlt Hlow]. simpl.
      constructor; [|now apply IH'].
      destruct Hst' as (_ & _ & _ & _ & _ & _ & Hidx' & _).
      simpl. lia. }
  rewrite Hsort in Hget. exists w', (List.map resultOf new).
  split; [exact Hrun|]. split; [exact Hget|].
  rewrite map_map. simpl. clear -Hall.
  induction Hall as [|chunk p chunks new Hst _ IH]; [reflexivity|].
  simpl. destruct Hst as (_ & _ & Hcontent & _). now rewrite Hcontent, IH.
Qed.

End RoundTrip.

(** X18: the chunks of a file that are indexed into a collection without
    points of that document come back from [getDocumentChunks] in their
    order, and [executeGetInstruction] joins their contents with blank
    lines, provided there are at most 1000 of them. *)
Theorem ingest_then_get `{NodeLib} CONFIG E fuel filePath basePath w c chunks :
  parseAndChunkDocument CONFIG fuel filePath basePath w = (Ok chunks, w) ->
  (length chunks <= 1000)%nat ->
  online (qdrant w) = true ->
  collections (qdrant w) !! knowledge_collectionName CONFIG = Some c ->
  Forall (fun p => documentId (payload_meta (payload p))
                   <> generateDocumentId filePath) (points c) ->
  shuffling E (endpoint w) -> freshUuids w (length chunks) c ->
  exists w',
    indexChunks CONFIG chunks w = (Ok tt, w') /\
    exists results,
      getDocumentChunks CONFIG (generateDocumentId filePath) w'
      = (Ok results, w') /\
      List.map result_content results = List.map content chunks /\
      forall first rest,
        chunks = first :: rest ->
        exists header,
          executeGetInstruction CONFIG (generateDocumentId filePath) w'
          = (Ok {| success := true;
                   output :=
                     Some (header ++ [LF; LF] ++ lit "---" ++ [LF; LF]
                             ++ join [LF; LF] (List.map content chunks));
                   error := None |}, w').
Proof.
  intros Hparse Hlen Hon Hc Hother Hsh Hfresh.
  destruct (parseAndChunkDocument_shape CONFIG fuel filePath basePath w
              chunks w Hparse) as (_ & Hdoc & Hinc).
  destruct (index_then_get CONFIG E chunks (generateDocumentId filePath) w c
              Hon Hc Hsh Hfresh Hdoc Hother Hinc Hlen)
    as (w' & results & Hrun & Hget & Hcontents).
  exists w'. split; [exact Hrun|]. exists results.
  split; [exact Hget|]. split; [exact Hcontents|].
  intros first rest ->.
  destruct results as [|meta results']; [discriminate|].
  exists (headerOf meta).
  unfold executeGetInstruction, tryCatch, bind. rewrite Hget. unfold ret.
  now rewrite Hcontents.
Qed.

Lemma ingest_then_get_witness :
  exists chunks,
    @parseAndChunkDocument sampleLib tinyConfig 5
      (lit "/kb/faq/returns.txt") (lit "/kb") readyWorld
    = (Ok chunks, readyWorld) /\
    exists w',
      indexChunks tinyConfig chunks readyWorld = (Ok tt, w') /\
      exists results,
        getDocumentChunks tinyConfig
          (@generateDocumentId sampleLib (lit "/kb/faq/returns.txt")) w'
        = (Ok results, w') /\
        List.map result_content results = List.map content chunks /\
        forall first rest,
          chunks = first :: rest ->
          exists header,
            executeGetInstruction tinyConfig
              (@generateDocumentId sampleLib (lit "/kb/faq/returns.txt")) w'
            = (Ok {| success := true;
                     output :=
                       Some (header ++ [LF; LF] ++ lit "---" ++ [LF; LF]
                               ++ join [LF; LF] (List.map content chunks));
                     error := None |}, w').
Proof.
  eexists. split; [vm_compute; reflexivity|].
  apply (@ingest_then_get sampleLib tinyConfig lengthEmbedding 5
           (lit "/kb/faq/returns.txt") (lit "/kb") readyWorld
           (freshCollection tinyConfig));
    [vm_compute; reflexivity|vm_compute; lia|reflexivity|reflexivity
    |constructor|exact reversingEndpoint_shuffling|].
  split.
  - apply (bool_decide_unpack _). vm_compute. exact I.
  - intros i _. apply not_elem_of_nil.
Defined.

(** ** [listDocuments] and [listCategories] *)

Section ListFacts.

Variable CONFIG : Config.

#[local] Abbreviation NAME := (knowledge_collectionName CONFIG).

Lemma filter_all {A} (l : list A) : List.filter (fun _ => true) l = l.
Proof. induction l as [|x l IH]; [reflexivity|]. simpl. now rewrite IH. Qed.

Lemma fromPoint_drop ps k p :
  NoDup (List.map point_id ps) -> ps !! k = Some p ->
  fromPoint (point_id p) ps = drop k ps.
Proof.
  revert k. induction ps as [|q ps IH]; intros k Hnd Hk;
    [now rewrite lookup_nil in Hk|].
  cbn [List.map] in Hnd. apply NoDup_cons in Hnd as [Hq Hnd].
  destruct k as [|k]; simpl in *.
  - injection Hk as ->. now rewrite bool_decide_eq_true_2.
  - rewrite bool_decide_eq_false_2; [now apply IH|].
    intros Heq. apply Hq. rewrite Heq.
    apply list_elem_of_In, in_map, list_elem_of_In.
    eapply list_elem_of_lookup_2, Hk.
Qed.

(** The pages of [listDocuments] amount to one pass over the points. *)
Lemma scrollDocuments_spec w c :
  online (qdrant w) = true -> collections (qdrant w) !! NAME = Some c ->
  properIds c ->
  forall fuel offset rest seen,
    (offset = None /\ rest = points c) \/
    (exists k p, points c !! k = Some p /\ offset = Some (point_id p) /\
                 rest = drop k (points c)) ->
    (length rest < 100 * fuel)%nat ->
    scrollDocuments CONFIG fuel offset seen w
    = (Ok (foldl seeDocument seen rest), w).
Proof.
  intros Hon Hc [Hnd Hids] fuel.
  induction fuel as [|fuel IH]; intros offset rest seen Hat Hfuel; [lia|].
  cbn [scrollDocuments]. unfold bind at 1. unfold scroll, rpc.
  rewrite Hon, Hc, filter_all, withQdrant_same.
  assert (match (if truthyOpt offset then offset else None) with
          | Some o => fromPoint o (points c)
          | None => points c
          end = rest) as ->.
  { destruct Hat as [[-> ->]|(k & p & Hk & -> & ->)]; [reflexivity|].
    assert (point_id p <> []) as Hp.
    { rewrite Forall_forall in Hids. apply Hids.
      eapply list_elem_of_lookup_2, Hk. }
    simpl. destruct (point_id p) eqn:E; [contradiction|].
    simpl. rewrite <- E. now apply fromPoint_drop. }
  cbn [scroll_points next_page_offset].
  destruct (drop 100 rest) as [|p' rest'] eqn:Hdrop.
  - simpl. unfold ret. rewrite take_ge; [reflexivity|].
    apply (f_equal length) in Hdrop. rewrite length_drop in Hdrop.
    simpl in Hdrop. lia.
  - assert (exists k, points c !! k = Some p' /\
                      drop 100 rest = drop k (points c)) as (k & Hk & Hrest).
    { destruct Hat as [[_ ->]|(k & p & _ & _ & ->)].
      - exists 100%nat. split; [|reflexivity].
        rewrite <- (Nat.add_0_r 100), <- lookup_drop, Hdrop. reflexivity.
      - exists (k + 100)%nat. rewrite drop_drop. split; [|reflexivity].
        rewrite <- lookup_drop, <- (Nat.add_0_r 100), <- lookup_drop, Hdrop.
        reflexivity. }
    assert (point_id p' <> []) as Hp'.
    { rewrite Forall_forall in Hids. apply Hids.
      eapply list_elem_of_lookup_2, Hk. }
    cbn [head fmap option_fmap option_map truthyOpt].
    destruct (point_id p') as [|u o] eqn:E; [contradiction|].
    cbn [truthy negb]. rewrite <- E.
    rewrite (IH (Some (point_id p')) (drop 100 rest)).
    + now rewrite <- foldl_app, take_drop.
    + right. exists k, p'. now rewrite Hrest.
    + apply (f_equal length) in Hdrop. rewrite length_drop in *.
      cbn [length] in Hdrop. lia.
Qed.

Implicit Types (done : list Point) (seen : list (str * DocumentEntry)).

(** What [seen] holds after the points [done]. *)
Lemma seen_invariant c done tail :
  points c = done ++ tail ->
  let seen := foldl seeDocument [] done in
  NoDup seen.*1 /\
  (forall d, d ∈ seen.*1
             <-> d ∈ List.map (fun p => documentId (payload_meta (payload p)))
                       done) /\
  Forall (fun kv =>
            entry_documentId kv.2 = kv.1 /\
            exists first rest,
              List.filter
                (fun p => bool_decide
                            (documentId (payload_meta (payload p)) = kv.1))
                done = first :: rest /\
              entry_documentName kv.2
              = documentName (payload_meta (payload first)) /\
              entry_category kv.2 = category (payload_meta (payload first)) /\
              entry_title kv.2 = title (payload_meta (payload first))) seen.
Proof.
  intros _. induction done as [|p done IH] using rev_ind.
  - simpl. split; [constructor|]. split; [reflexivity|constructor].
  - cbv zeta in *. rewrite foldl_app. cbn [foldl].
    destruct IH as (Hnd & Hkeys & Hall).
    set (seen := foldl seeDocument [] done) in *.
    unfold seeDocument. set (d := documentId (payload_meta (payload p))).
    assert (Forall (fun kv =>
              entry_documentId kv.2 = kv.1 /\
              exists first rest,
                List.filter
                  (fun p => bool_decide
                              (documentId (payload_meta (payload p)) = kv.1))
                  (done ++ [p]) = first :: rest /\
                entry_documentName kv.2
                = documentName (payload_meta (payload first)) /\
                entry_category kv.2 = category (payload_meta (payload first)) /\
                entry_title kv.2 = title (payload_meta (payload first))) seen)
      as Hall'.
    { eapply Forall_impl; [exact Hall|].
      intros kv (Hid & first & rest & Hof & Hfields).
      split; [exact Hid|]. rewrite List.filter_app, Hof.
      now exists first, (rest ++ List.filter
        (fun p0 => bool_decide
                     (documentId (payload_meta (payload p0)) = kv.1)) [p]). }
    destruct (mapGet seen d) as [existing|] eqn:Hget.
    + split; [assumption|]. split; [|assumption].
      apply mapGet_Some in Hget.
      assert (d ∈ seen.*1) as Hd
          by (apply list_elem_of_fmap; now exists (d, existing)).
      intros d'. rewrite Hkeys, map_app, elem_of_app. simpl.
      rewrite list_elem_of_singleton. fold d.
      split; [now left|]. intros [?| ->]; [assumption|now apply Hkeys].
    + apply mapGet_None in Hget. rewrite mapSet_absent by assumption.
      split; [|split].
      * rewrite fmap_app. apply NoDup_app. split; [assumption|].
        split; [|apply NoDup_singleton].
        intros d' Hd' ->%list_elem_of_singleton. contradiction.
      * intros d'. rewrite fmap_app, map_app, !elem_of_app, Hkeys. simpl.
        rewrite !list_elem_of_singleton. reflexivity.
      * apply Forall_app. split; [assumption|].
        constructor; [|constructor]. split; [reflexivity|].
        exists p, []. cbn [fst snd entry_documentName entry_category
                            entry_title].
        split; [|repeat split; reflexivity].
        rewrite List.filter_app.
        assert (List.filter
                  (fun p0 => bool_decide
                     (documentId (payload_meta (payload p0)) = d)) done = [])
          as ->.
        { assert (d ∉ List.map
                    (fun p => documentId (payload_meta (payload p))) done)
            as Hnot by (intros Hin; apply Hget; now apply Hkeys).
          clear -Hnot. induction done as [|q done IH]; [reflexivity|].
          cbn [List.map] in Hnot. apply not_elem_of_cons in Hnot as [Hq Hnot].
          simpl. rewrite bool_decide_eq_false_2 by congruence. now apply IH. }
        simpl. now rewrite bool_decide_eq_true_2.
Qed.

Lemma listDocuments_spec fuel w c :
  online (qdrant w) = true -> collections (qdrant w) !! NAME = Some c ->
  properIds c -> (length (points c) < 100 * fuel)%nat ->
  exists entries,
    listDocuments CONFIG fuel w = (Ok entries, w) /\
    NoDup (List.map entry_documentId entries) /\
    (forall d, d ∈ List.map entry_documentId entries
               <-> exists p, p ∈ points c /\
                             documentId (payload_meta (payload p)) = d) /\
    Forall (entryFor c) entries.
Proof.
  intros Hon Hc Hids Hfuel. unfold listDocuments, bind.
  rewrite (collectionExists_present CONFIG w c Hon Hc). cbn [negb].
  rewrite (scrollDocuments_spec w c Hon Hc Hids fuel None (points c) []);
    [|now left|assumption].
  destruct (seen_invariant c (points c) [] (eq_sym (app_nil_r _)))
    as (Hnd & Hkeys & Hall).
  set (seen := foldl seeDocument [] (points c)) in *.
  assert (List.map entry_documentId (List.map snd seen) = seen.*1) as Hfst.
  { clear -Hall. induction Hall as [|[k e] seen [Hid _] _ IH]; [reflexivity|].
    simpl in *. now rewrite Hid, IH. }
  exists (List.map snd seen). unfold ret. split; [reflexivity|].
  rewrite Hfst. split; [assumption|]. split.
  - intros d. rewrite Hkeys, list_elem_of_In, in_map_iff.
    split; intros (p & Hp & Hd); exists p;
      rewrite ?list_elem_of_In in *; tauto.
  - apply Forall_forall. intros e He.
    apply list_elem_of_In, in_map_iff in He as ([k e'] & <- & Hin).
    rewrite Forall_forall in Hall.
    destruct (Hall (k, e')) as (Hid & first & rest & Hof & Hfields);
      [now apply list_elem_of_In|].
    simpl in *. exists first, rest. unfold pointsOfDocument.
    rewrite Hid. now split.
Qed.

End ListFacts.

(** X19: with enough pages, [listDocuments] returns one entry for each
    document identifier among the points of the collection, with the
    fields of the first point of that document. *)
Theorem listDocuments_distinct CONFIG fuel w c :
  online (qdrant w) = true ->
  collections (qdrant w) !! knowledge_collectionName CONFIG = Some c ->
  properIds c -> (length (points c) < 100 * fuel)%nat ->
  exists entries,
    listDocuments CONFIG fuel w = (Ok entries, w) /\
    NoDup (List.map entry_documentId entries) /\
    (forall d, d ∈ List.map entry_documentId entries
               <-> exists p, p ∈ points c /\
                             documentId (payload_meta (payload p)) = d) /\
    Forall (entryFor c) entries.
Proof. apply listDocuments_spec. Qed.

(** X20: [listCategories] returns, in the ascending order of their code
    units and each once, the non-empty categories of the first points of
    the documents. *)
Theorem listCategories_sorted CONFIG fuel w c :
  online (qdrant w) = true ->
  collections (qdrant w) !! knowledge_collectionName CONFIG = Some c ->
  properIds c -> (length (points c) < 100 * fuel)%nat ->
  exists categories,
    listCategories CONFIG fuel w = (Ok categories, w) /\
    Sorted codeUnitLess categories /\
    forall x, x ∈ categories
              <-> x <> [] /\
                  exists first rest,
                    pointsOfDocument
                      (documentId (payload_meta (payload first))) c
                    = first :: rest /\
                    category (payload_meta (payload first)) = Some x.
Proof.
  intros Hon Hc Hids Hfuel.
  destruct (listDocuments_spec CONFIG fuel w c Hon Hc Hids Hfuel)
    as (entries & Hlist & Hnd & Hkeys & Hall).
  unfold listCategories, bind. rewrite Hlist. unfold ret.
  destruct (gather_invariant entry_category entries) as [Hndc Hin].
  eexists. split; [reflexivity|]. split; [now apply sort_strict|].
  intros x. rewrite (sort_Permutation compareStr _), Hin.
  rewrite Forall_forall in Hall. split.
  - intros (Hx & e & He & Hcat). split; [assumption|].
    destruct (Hall e He) as (first & rest & Hof & _ & Hc' & _).
    exists first, rest. split; [|congruence].
    assert (documentId (payload_meta (payload first)) = entry_documentId e)
      as ->; [|assumption].
    assert (first ∈ pointsOfDocument (entry_documentId e) c) as Hfirst
        by (rewrite Hof; left).
    apply list_elem_of_In, filter_In in Hfirst as [_ Hd].
    now apply bool_decide_eq_true in Hd.
  - intros (Hx & first & rest & Hof & Hcat). split; [assumption|].
    assert (documentId (payload_meta (payload first))
            ∈ List.map entry_documentId entries) as Hd.
    { apply Hkeys. exists first. split; [|reflexivity].
      assert (first ∈ pointsOfDocument
                (documentId (payload_meta (payload first))) c) as Hfirst
          by (rewrite Hof; left).
      now apply list_elem_of_In, filter_In in Hfirst as [?%list_elem_of_In _]. }
    apply list_elem_of_In, in_map_iff in Hd as (e & Hid & He).
    apply list_elem_of_In in He. exists e. split; [assumption|].
    destruct (Hall e He) as (first' & rest' & Hof' & _ & Hc' & _).
    rewrite Hid, Hof in Hof'. injection Hof' as <- _. congruence.
Qed.

Lemma largeCollection_properIds : properIds largeCollection.
Proof.
  split; apply (bool_decide_unpack _); vm_compute; exact I.
Qed.

Lemma listDocuments_distinct_witness :
  exists entries,
    listDocuments sampleConfig 4 largeWorld = (Ok entries, largeWorld) /\
    NoDup (List.map entry_documentId entries) /\
    (forall d, d ∈ List.map entry_documentId entries
               <-> exists p, p ∈ points largeCollection /\
                             documentId (payload_meta (payload p)) = d) /\
    Forall (entryFor largeCollection) entries.
Proof.
  apply (listDocuments_distinct sampleConfig 4 largeWorld largeCollection);
    [reflexivity|vm_compute; reflexivity|exact largeCollection_properIds
    |vm_compute; lia].
Defined.

Lemma listCategories_sorted_witness :
  exists categories,
    listCategories sampleConfig 4 largeWorld = (Ok categories, largeWorld) /\
    Sorted codeUnitLess categories /\
    forall x, x ∈ categories
              <-> x <> [] /\
                  exists first rest,
                    pointsOfDocument
                      (documentId (payload_meta (payload first)))
                      largeCollection
                    = first :: rest /\
                    category (payload_meta (payload first)) = Some x.
Proof.
  apply (listCategories_sorted sampleConfig 4 largeWorld largeCollection);
    [reflexivity|vm_compute; reflexivity|exact largeCollection_properIds
    |vm_compute; lia].
Defined.

(** ** [executeGetInstruction] reports, it never raises *)

Lemma getDocumentChunks_length document_id c :
  length (sort byChunkIndex (List.map resultOf (documentPage document_id c)))
  = Nat.min 1000 (length (pointsOfDocument document_id c)).
Proof.
  rewrite (sort_Permutation byChunkIndex _), length_map.
  unfold documentPage. fold (pointsOfDocument document_id c).
  apply length_take.
Qed.

(** X21: [executeGetInstruction] never raises and leaves the world as it
    is; its result either succeeds with an output or fails with an error,
    and it succeeds exactly when the store can be reached and holds a
    point of the document in the collection. *)
Theorem executeGetInstruction_reports CONFIG document_id w :
  exists result,
    executeGetInstruction CONFIG document_id w = (Ok result, w) /\
    (success result = true /\ error result = None /\ is_Some (output result)
     \/ success result = false /\ output result = None
        /\ is_Some (error result)) /\
    (success result = true
     <-> online (qdrant w) = true /\
         exists c,
           collections (qdrant w) !! knowledge_collectionName CONFIG = Some c
           /\ pointsOfDocument document_id c <> []).
Proof.
  unfold executeGetInstruction, tryCatch, bind.
  destruct (online (qdrant w)) eqn:Hon.
  - destruct (collections (qdrant w) !! knowledge_collectionName CONFIG)
      as [c|] eqn:Hc.
    + rewrite (getDocumentChunks_page CONFIG w document_id c Hon Hc).
      pose proof (getDocumentChunks_length document_id c) as Hlen.
      destruct (sort byChunkIndex (List.map resultOf (documentPage document_id c)))
        as [|meta rest].
      * eexists. split; [reflexivity|]. cbn [success output error].
        split; [right; eauto|]. split; [discriminate|].
        intros (_ & c' & [= <-] & Hne).
        destruct (pointsOfDocument document_id c); [now destruct Hne|].
        cbn [length] in Hlen. lia.
      * eexists. split; [reflexivity|]. cbn [success output error].
        split; [left; eauto|]. split; [|reflexivity].
        intros _. split; [reflexivity|]. exists c. split; [reflexivity|].
        intros Hnone. rewrite Hnone in Hlen. cbn [length] in Hlen. lia.
    + unfold getDocumentChunks, bind, scroll, rpc. rewrite Hon, Hc.
      rewrite withQdrant_same. eexists. split; [reflexivity|].
      cbn [success output error].
      split; [right; eauto|]. split; [discriminate|].
      now intros (_ & c & [=] & _).
  - unfold getDocumentChunks, bind, scroll, rpc. rewrite Hon.
    eexists. split; [reflexivity|]. cbn [success output error].
    split; [right; eauto|]. split; [discriminate|]. now intros [[=] _].
Qed.

(** ** The loop over the documents found *)

Section ParseAllFacts.

Context `{NodeLib} (CONFIG : Config).

Lemma parseAndChunkDocument_world fuel filePath basePath w :
  (parseAndChunkDocument CONFIG fuel filePath basePath w).2 = w /\
  forall code,
    (parseAndChunkDocument CONFIG fuel filePath basePath w).1 <> Exit code.
Proof.
  unfold parseAndChunkDocument, bind.
  assert ((parseDocument filePath w).2 = w /\
          forall code, (parseDocument filePath w).1 <> Exit code)
    as [Hw Hexit].
  { unfold parseDocument, parseWordDocument, parsePdfDocument, bind,
      readFileSync, decoded, ret, throw.
    repeat match goal with
           | |- context [if ?b then _ else _] => destruct b
           | |- context [match files w filePath with _ => _ end] =>
               destruct (files w filePath) as [[| |]|]
           | |- context [match ?r with inl _ => _ | inr _ => _ end] =>
               destruct r
           end; split; try reflexivity; intros code; discriminate. }
  destruct (parseDocument filePath w) as [[text|message|code|] w1];
    simpl in Hw; subst w1.
  - destruct (splitIntoChunks fuel text _ _); split; try reflexivity;
      intros code; discriminate.
  - split; [reflexivity|discriminate].
  - now destruct (Hexit code).
  - split; [reflexivity|discriminate].
Qed.

End ParseAllFacts.

(** X22: the loop of [main] over the documents gathers the chunks of the
    files that can be parsed, in the order of the files, passes over the
    files that cannot, and changes nothing. *)
Theorem parseAll_skips_failures `{NodeLib} CONFIG fuel absolutePath
    documentPaths allChunks w :
  Forall (fun docPath =>
            (parseAndChunkDocument CONFIG fuel docPath absolutePath w).1
            <> OutOfFuel) documentPaths ->
  parseAll CONFIG fuel absolutePath documentPaths allChunks w
  = (Ok (allChunks
           ++ concat (List.map (contribution CONFIG fuel absolutePath w)
                        documentPaths)), w).
Proof.
  intros Hfuel. revert allChunks.
  induction Hfuel as [|docPath rest Hdoc _ IH]; intros allChunks.
  - simpl. unfold ret. now rewrite app_nil_r.
  - cbn [parseAll List.map concat]. unfold bind at 1, tryCatch, bind at 1.
    unfold contribution at 1.
    destruct (parseAndChunkDocument_world CONFIG fuel docPath absolutePath w)
      as [Hw Hexit].
    destruct (parseAndChunkDocument CONFIG fuel docPath absolutePath w)
      as [[chunks|message|code|] w1]; simpl in Hw, Hdoc; subst w1.
    + unfold ret. rewrite IH. now rewrite app_assoc.
    + unfold ret. rewrite IH. reflexivity.
    + now destruct (Hexit code).
    + now destruct Hdoc.
Qed.

Lemma parseAll_skips_failures_witness :
  @parseAll sampleLib tinyConfig 5 (lit "/kb")
    [lit "/kb/missing.txt"; lit "/kb/faq/returns.txt"; lit "/kb/notes.odt"]
    [] returnsWorld
  = (Ok ([] ++ concat
                 (List.map
                    (@contribution sampleLib tinyConfig 5 (lit "/kb")
                       returnsWorld)
                    [lit "/kb/missing.txt"; lit "/kb/faq/returns.txt";
                     lit "/kb/notes.odt"])), returnsWorld).
Proof.
  apply (@parseAll_skips_failures sampleLib tinyConfig 5 (lit "/kb")
           [lit "/kb/missing.txt"; lit "/kb/faq/returns.txt";
            lit "/kb/notes.odt"] [] returnsWorld).
  repeat constructor; vm_compute; discriminate.
Defined.

(** ** How a run of the ingestion may end *)

Section ExitFacts.









Variable CONFIG : Config.







Context `{NodeLib}.





End ExitFacts.

